(** * Structural diff of the [pretty] package ([src/pretty/diff.go])

    A shallow embedding of [Diff], [Fdiff], [Ldiff], [Pdiff] and the three
    sinks, [diffPrinter.diff], [diffPrinter.printf], [diffPrinter.relabel],
    [keyEqual] and [keyDiff], over a model of the parts of Go's [reflect]
    and [fmt] packages that the differ calls; and of [Quote],
    [QuoteCommand] and the line breaking of [logger.output] of
    [src/logger.go]. *)

From Stdlib Require Import ZArith NArith String Ascii List Permutation Lia Bool.
From Stdlib Require Import Floats.SpecFloat HexString DecimalString.
From stdpp Require Import base gmap strings list.


(** ** Outcomes of a Go call

    A call returns normally, panics, or (in the fuelled walker only) needs
    more recursion depth than it was given. *)

Inductive KindName :=
| Invalid | Bool | Int | Int8 | Int16 | Int32 | Int64
| Uint | Uint8 | Uint16 | Uint32 | Uint64 | Uintptr
| Float32 | Float64 | Complex64 | Complex128
| Array | Chan | Func | Interface | Map | Ptr | Slice | String_ | Struct
| UnsafePointer.

Inductive fault :=
| UnknownKind (k : KindName)   (* panic("unknown reflect Kind: " + kind.String()) *)
| InvalidMapKey (t : string)   (* panic("invalid map key type " + av.Type().String()) *)
| RuntimePanic.                (* raised by reflect or the runtime, not by the differ *)

Inductive result (A : Type) :=
| Ok (a : A)
| Panic (p : fault)
| OutOfFuel.
Arguments Ok {A} a.
Arguments Panic {A} p.
Arguments OutOfFuel {A}.

Global Instance result_ret : MRet result := fun A a => Ok a.
Global Instance result_bind : MBind result := fun A B k r =>
  match r with
  | Ok a => k a
  | Panic p => Panic p
  | OutOfFuel => OutOfFuel
  end.

(** ** The [reflect] model *)

Module reflect.

(** [reflect.Kind]. *)
Definition Kind := KindName.

(** A type descriptor.  Two [reflect.Type]s are the same type exactly when
    the descriptors are equal.  [tLen] is the length of an array type and
    [tFields] the field names of a struct type, in declaration order. *)
Record rtype := mkType {
  tString : string;
  tKind : Kind;
  tLen : nat;
  tFields : list string
}.

Definition uintptr := N.

(** A [reflect.Value].  [Zero] is the zero Value ([IsValid] is false).
    [addr] is [Some p] when the value is addressable, and [p] is then its
    [UnsafeAddr].  Pointers hold an address into the heap; arrays, slices,
    structs, interfaces and maps hold their parts. *)
Inductive Value :=
| Zero
| Val (typ : rtype) (addr : option uintptr) (dat : Data)
with Data :=
| DBool (b : bool)
| DInt (n : Z)
| DUint (n : Z)
| DFloat (f : spec_float)
| DComplex (re im : spec_float)
| DString (s : string)
| DPointer (p : uintptr)
| DArray (elems : list Value)
| DSlice (elems : list Value)
| DStruct (fields : list Value)
| DIface (e : Value)
| DMap (entries : list (Value * Value)).

(** The heap: what a non-nil pointer points to. *)
Abbreviation object := (rtype * Data)%type.

Definition IsValid (v : Value) : bool :=
  match v with Zero => false | Val _ _ _ => true end.

Definition CanAddr (v : Value) : bool :=
  match v with Val _ (Some _) _ => true | _ => false end.

Definition Value_Bool (v : Value) : result bool :=
  match v with Val _ _ (DBool b) => Ok b | _ => Panic RuntimePanic end.
Definition Value_Int (v : Value) : result Z :=
  match v with Val _ _ (DInt n) => Ok n | _ => Panic RuntimePanic end.
Definition Value_Uint (v : Value) : result Z :=
  match v with Val _ _ (DUint n) => Ok n | _ => Panic RuntimePanic end.
Definition Value_Float (v : Value) : result spec_float :=
  match v with Val _ _ (DFloat f) => Ok f | _ => Panic RuntimePanic end.
Definition Value_Complex (v : Value) : result (spec_float * spec_float) :=
  match v with Val _ _ (DComplex re im) => Ok (re, im) | _ => Panic RuntimePanic end.
Definition Value_String (v : Value) : result string :=
  match v with Val _ _ (DString s) => Ok s | _ => Panic RuntimePanic end.
Definition Value_Pointer (v : Value) : result uintptr :=
  match v with Val _ _ (DPointer p) => Ok p | _ => Panic RuntimePanic end.

(** [v.IsNil()] for a pointer. *)
Definition Value_IsNil (v : Value) : result bool :=
  match v with Val _ _ (DPointer p) => Ok (N.eqb p 0) | _ => Panic RuntimePanic end.

(** [v.Len()]: from the type for an array, from the header for a slice. *)
Definition Value_Len (v : Value) : result nat :=
  match v with
  | Val t _ (DArray _) => Ok (tLen t)
  | Val _ _ (DSlice elems) => Ok (length elems)
  | _ => Panic RuntimePanic
  end.

Definition Value_Index (v : Value) (i : nat) : result Value :=
  match v with
  | Val t _ (DArray elems) =>
      if Nat.ltb i (tLen t) then
        match nth_error elems i with Some e => Ok e | None => Panic RuntimePanic end
      else Panic RuntimePanic
  | Val _ _ (DSlice elems) =>
      match nth_error elems i with Some e => Ok e | None => Panic RuntimePanic end
  | _ => Panic RuntimePanic
  end.

Definition Value_NumField (v : Value) : result nat :=
  match v with
  | Val t _ (DStruct _) => Ok (length (tFields t))
  | _ => Panic RuntimePanic
  end.

Definition Value_Field (v : Value) (i : nat) : result Value :=
  match v with
  | Val t _ (DStruct fields) =>
      if Nat.ltb i (length (tFields t)) then
        match nth_error fields i with Some e => Ok e | None => Panic RuntimePanic end
      else Panic RuntimePanic
  | _ => Panic RuntimePanic
  end.

(** [t.Field(i).Name]. *)
Definition Type_FieldName (t : rtype) (i : nat) : result string :=
  match nth_error (tFields t) i with Some n => Ok n | None => Panic RuntimePanic end.

(** [v.Elem()] of an interface: the value it holds, [Zero] when nil. *)
Definition Value_ElemIface (v : Value) : result Value :=
  match v with Val _ _ (DIface e) => Ok e | _ => Panic RuntimePanic end.

(** [v.Elem()] of a pointer: the pointee, addressable at the pointer. *)
Definition Value_ElemPtr (mem : gmap uintptr object) (v : Value) : result Value :=
  match v with
  | Val _ _ (DPointer p) =>
      match mem !! p with
      | Some (t, d) => Ok (Val t (Some p) d)
      | None => Panic RuntimePanic
      end
  | _ => Panic RuntimePanic
  end.

End reflect.
Import reflect.

Global Instance KindName_eq_dec : EqDecision KindName.
Proof. solve_decision. Defined.

Definition KindName_to_nat (k : KindName) : nat :=
  match k with
  | Invalid => 0 | Bool => 1 | Int => 2 | Int8 => 3 | Int16 => 4 | Int32 => 5
  | Int64 => 6 | Uint => 7 | Uint8 => 8 | Uint16 => 9 | Uint32 => 10
  | Uint64 => 11 | Uintptr => 12 | Float32 => 13 | Float64 => 14
  | Complex64 => 15 | Complex128 => 16 | Array => 17 | Chan => 18 | Func => 19
  | Interface => 20 | Map => 21 | Ptr => 22 | Slice => 23 | String_ => 24
  | Struct => 25 | UnsafePointer => 26
  end%nat.

Definition KindName_of_nat (n : nat) : KindName :=
  match n with
  | 1 => Bool | 2 => Int | 3 => Int8 | 4 => Int16 | 5 => Int32
  | 6 => Int64 | 7 => Uint | 8 => Uint8 | 9 => Uint16 | 10 => Uint32
  | 11 => Uint64 | 12 => Uintptr | 13 => Float32 | 14 => Float64
  | 15 => Complex64 | 16 => Complex128 | 17 => Array | 18 => Chan | 19 => Func
  | 20 => Interface | 21 => Map | 22 => Ptr | 23 => Slice | 24 => String_
  | 25 => Struct | 26 => UnsafePointer | _ => Invalid
  end%nat.

Global Instance KindName_countable : Countable KindName.
Proof.
  apply (inj_countable' KindName_to_nat KindName_of_nat).
  intros []; reflexivity.
Defined.

Global Instance rtype_eq_dec : EqDecision rtype.
Proof. solve_decision. Defined.

Global Instance rtype_countable : Countable rtype.
Proof.
  apply (inj_countable'
           (fun t => (tString t, tKind t, tLen t, tFields t))
           (fun x => match x with (s, k, n, fs) => mkType s k n fs end)).
  intros []; reflexivity.
Defined.

(** [kind.String()]. *)
Definition Kind_String (k : Kind) : string :=
  match k with
  | Invalid => "invalid" | Bool => "bool" | Int => "int" | Int8 => "int8"
  | Int16 => "int16" | Int32 => "int32" | Int64 => "int64" | Uint => "uint"
  | Uint8 => "uint8" | Uint16 => "uint16" | Uint32 => "uint32"
  | Uint64 => "uint64" | Uintptr => "uintptr" | Float32 => "float32"
  | Float64 => "float64" | Complex64 => "complex64"
  | Complex128 => "complex128" | Array => "array" | Chan => "chan"
  | Func => "func" | Interface => "interface" | Map => "map" | Ptr => "ptr"
  | Slice => "slice" | String_ => "string" | Struct => "struct"
  | UnsafePointer => "unsafe.Pointer"
  end.

(** ** The [fmt] model

    [Sprintf] is modelled on the fragment of format strings made of
    literal text and directives [%], flags, verb.  Text before the first
    [%] is copied; each directive other than [%%] consumes one operand; a
    directive that finds no operand left prints [%!verb(MISSING)];
    operands left over are reported after the text.  How one operand is
    printed under given flags and verb is concrete for the simple cases
    the differ relies on and otherwise left to [fmt_operand].  Formats
    with a width, a precision, an argument index or a non-ASCII verb are
    outside the fragment: what [fmt] prints for them is [fmt_other]. *)

Inductive operand :=
| OFormatter (v : Value)            (* formatter{v: v, quote: true} *)
| OType (t : rtype)
| OBool (b : bool)
| OInt (n : Z)
| OUint (n : Z)
| OLen (n : nat)
| OFloat (f : spec_float)
| OComplex (c : spec_float * spec_float)
| OUintptr (p : uintptr)
| OString (s : string)
| OValue (v : Value).               (* a reflect.Value operand *)

Record Fmt := mkFmt {
  fmt_operand : string -> ascii -> operand -> string;
  fmt_extra : list operand -> string;
  fmt_other : string -> list operand -> string
}.

Definition decimal (n : Z) : string := NilZero.string_of_int (Z.to_int n).

Section Fmt.
Variable F : Fmt.

Definition printArg (flags : string) (verb : ascii) (a : operand) : string :=
  if String.eqb flags "" then
    match a with
    | OInt n | OUint n =>
        if Ascii.eqb verb "d" then decimal n else fmt_operand F flags verb a
    | OLen n =>
        if Ascii.eqb verb "d" then decimal (Z.of_nat n)
        else fmt_operand F flags verb a
    | OBool b =>
        if Ascii.eqb verb "v" then (if b then "true" else "false")
        else fmt_operand F flags verb a
    | OType t =>
        if Ascii.eqb verb "v" || Ascii.eqb verb "s" then tString t
        else fmt_operand F flags verb a
    | _ => fmt_operand F flags verb a
    end
  else
    match a with
    | OUintptr p =>
        if String.eqb flags "#" && Ascii.eqb verb "x" then HexString.of_N p
        else fmt_operand F flags verb a
    | _ => fmt_operand F flags verb a
    end.

Definition isFlag (c : ascii) : bool :=
  Ascii.eqb c "#" || Ascii.eqb c "0" || Ascii.eqb c "+" || Ascii.eqb c "-"
  || Ascii.eqb c " ".

(** A character after [%] and the flags that starts a width, a precision
    or an argument index, or is not ASCII. *)
Definition outsideFragment (c : ascii) : bool :=
  let n := nat_of_ascii c in
  (Nat.leb 49 n && Nat.leb n 57) || Ascii.eqb c "." || Ascii.eqb c "*"
  || Ascii.eqb c "[" || Nat.leb 128 n.

Definition extraOperands (args : list operand) : string :=
  match args with
  | [] => ""
  | _ => "%!(EXTRA " +:+ fmt_extra F args +:+ ")"
  end.

Fixpoint scan (f : string) (args : list operand) : option string :=
  match f with
  | EmptyString => Some (extraOperands args)
  | String c f' =>
      if Ascii.eqb c "%" then directive f' "" args
      else String c <$> scan f' args
  end
with directive (f : string) (flags : string) (args : list operand)
  : option string :=
  match f with
  | EmptyString => Some ("%!(NOVERB)" +:+ extraOperands args)
  | String c f' =>
      if isFlag c then directive f' (flags +:+ String c "") args
      else if Ascii.eqb c "%" then String "%" <$> scan f' args
      else if outsideFragment c then None
      else
        match args with
        | [] => String.append ("%!" +:+ String c "(MISSING)") <$> scan f' []
        | a :: rest => String.append (printArg flags c a) <$> scan f' rest
        end
  end.

Definition Sprintf (f : string) (args : list operand) : string :=
  match scan f args with
  | Some s => s
  | None => fmt_other F f args
  end.

End Fmt.

(** ** Key matching: [keyEqual] and [keyDiff] *)

(** The loop [for i := 0; i < n; i++ { if !eq(av.Index(i), bv.Index(i))
    { return false } }; return true], run over the parts [xs] of [av]
    from index [i] on; [bAt i] is [bv.Index(i)] (or [bv.Field(i)]). *)
Definition eachEqual (eq : Value -> Value -> result bool) (n : nat)
    (bAt : nat -> result Value) : list Value -> nat -> result bool :=
  fix loop (xs : list Value) (i : nat) {struct xs} : result bool :=
    if Nat.ltb i n then
      match xs with
      | x :: xs' =>
          y ← bAt i;
          r ← eq x y;
          if r : bool then loop xs' (S i) else Ok false
      | [] => Panic RuntimePanic
      end
    else Ok true.

Fixpoint keyEqual (av bv : Value) {struct av} : result bool :=
  match av, bv with
  | Zero, Zero => Ok true
  | Zero, Val _ _ _ | Val _ _ _, Zero => Ok false
  | Val at_ _ ad, Val bt _ _ =>
      if negb (bool_decide (at_ = bt)) then Ok false
      else
        match tKind at_ with
        | Bool =>
            a ← Value_Bool av; b ← Value_Bool bv; Ok (Bool.eqb a b)
        | Int | Int8 | Int16 | Int32 | Int64 =>
            a ← Value_Int av; b ← Value_Int bv; Ok (Z.eqb a b)
        | Uint | Uint8 | Uint16 | Uint32 | Uint64 | Uintptr =>
            a ← Value_Uint av; b ← Value_Uint bv; Ok (Z.eqb a b)
        | Float32 | Float64 =>
            a ← Value_Float av; b ← Value_Float bv; Ok (SFeqb a b)
        | Complex64 | Complex128 =>
            a ← Value_Complex av; b ← Value_Complex bv;
            Ok (SFeqb (fst a) (fst b) && SFeqb (snd a) (snd b))
        | Array =>
            match ad with
            | DArray xs => eachEqual keyEqual (tLen at_) (Value_Index bv) xs 0
            | _ => Panic RuntimePanic
            end
        | Chan | UnsafePointer | Ptr =>
            a ← Value_Pointer av; b ← Value_Pointer bv; Ok (N.eqb a b)
        | Interface =>
            match ad with
            | DIface e => y ← Value_ElemIface bv; keyEqual e y
            | _ => Panic RuntimePanic
            end
        | String_ =>
            a ← Value_String av; b ← Value_String bv; Ok (String.eqb a b)
        | Struct =>
            match ad with
            | DStruct xs =>
                eachEqual keyEqual (length (tFields at_)) (Value_Field bv) xs 0
            | _ => Panic RuntimePanic
            end
        | Invalid | Func | Map | Slice => Panic (InvalidMapKey (tString at_))
        end
  end.

(** The inner loop of [keyDiff]: is some element of [l] equal to the
    fixed key?  [eq] is [keyEqual] with the fixed key on its side. *)
Fixpoint inBoth (eq : Value -> result bool) (l : list Value) : result bool :=
  match l with
  | [] => Ok false
  | x :: l' => r ← eq x; if r : bool then Ok true else inBoth eq l'
  end.

(** First loop of [keyDiff]: splits [a] into [ak] and [both]. *)
Fixpoint keyDiffLeft (a b : list Value) : result (list Value * list Value) :=
  match a with
  | [] => Ok ([], [])
  | av :: a' =>
      r ← inBoth (fun bv => keyEqual av bv) b;
      '(ak, both) ← keyDiffLeft a' b;
      Ok (if r : bool then (ak, av :: both) else (av :: ak, both))
  end.

(** Second loop of [keyDiff]: the keys of [b] with no equal key in [a]. *)
Fixpoint keyDiffRight (a b : list Value) : result (list Value) :=
  match b with
  | [] => Ok []
  | bv :: b' =>
      r ← inBoth (fun av => keyEqual av bv) a;
      bk ← keyDiffRight a b';
      Ok (if r : bool then bk else bv :: bk)
  end.

Definition keyDiff (a b : list Value)
  : result (list Value * list Value * list Value) :=
  '(ak, both) ← keyDiffLeft a b;
  bk ← keyDiffRight a b;
  Ok (ak, both, bk).

(** ** Maps in [reflect]

    The runtime finds a key with Go's [==], which on the kinds that can
    be map keys is the comparison [keyEqual] spells out. *)
Definition sameKey (a b : Value) : bool :=
  match keyEqual a b with Ok true => true | _ => false end.

Definition mapIndex (entries : list (Value * Value)) (k : Value) : Value :=
  match find (fun e => sameKey (fst e) k) entries with
  | Some e => snd e
  | None => Zero
  end.

Definition Value_MapIndex (v k : Value) : result Value :=
  match v with
  | Val _ _ (DMap entries) => Ok (mapIndex entries k)
  | _ => Panic RuntimePanic
  end.

(** ** The differ's state

    [diffPrinter] is copied by value at each call, but its sink [w] and
    its two maps are references shared by all copies: they are the store
    threaded through the walk.  [iters] counts the map iterations started
    so far: [MapKeys] returns the keys in an order the runtime chooses
    anew for every iteration. *)

Abbreviation visit := (uintptr * rtype)%type.

Record Store := mkStore {
  out : list string;
  aVisited : gmap visit visit;
  bVisited : gmap visit visit;
  iters : nat
}.

Record diffPrinter := mkPrinter { l : string }.

Definition emit (line : string) (s : Store) : Store :=
  mkStore (out s ++ [line]) (aVisited s) (bVisited s) (iters s).

Definition emitAll (lines : list string) (s : Store) : Store :=
  mkStore (out s ++ lines) (aVisited s) (bVisited s) (iters s).

Definition record (avis bvis : visit) (s : Store) : Store :=
  mkStore (out s) (<[avis := bvis]> (aVisited s)) (<[bvis := avis]> (bVisited s))
          (iters s).

Definition Value_MapKeys (order : nat -> list Value -> list Value) (v : Value)
    (s : Store) : result (list Value * Store) :=
  match v with
  | Val _ _ (DMap entries) =>
      Ok (order (iters s) (map fst entries),
          mkStore (out s) (aVisited s) (bVisited s) (S (iters s)))
  | _ => Panic RuntimePanic
  end.

(** ** The differ *)

Fixpoint foldM {A} (body : A -> Store -> result Store) (xs : list A)
    (s : Store) : result Store :=
  match xs with
  | [] => Ok s
  | x :: xs' => s' ← body x s; foldM body xs' s'
  end.

(** [for i := 0; i < n; i++ { body }]. *)
Definition forRange (n : nat) (body : nat -> Store -> result Store)
    (s : Store) : result Store :=
  foldM body (seq 0 n) s.

Section Differ.
Variable F : Fmt.
Variable mem : gmap uintptr object.
Variable order : nat -> list Value -> list Value.

(** [diffPrinter.printf]: the label and its separator are put in front
    of the format, and the sink formats the whole. *)
Definition line (d : diffPrinter) (f : string) (a : list operand) : string :=
  let l' := if String.eqb (l d) "" then "" else l d +:+ ": " in
  Sprintf F (l' +:+ f) a.

Definition printf (d : diffPrinter) (f : string) (a : list operand)
    (s : Store) : Store :=
  emit (line d f a) s.

(** [diffPrinter.relabel].  [name[0]] is read only when the label is not
    empty, and panics on an empty name. *)
Definition relabel (d : diffPrinter) (name : string) : result diffPrinter :=
  if String.eqb (l d) "" then Ok (mkPrinter (l d +:+ name))
  else
    match name with
    | EmptyString => Panic RuntimePanic
    | String c _ =>
        if negb (Ascii.eqb c "[") then Ok (mkPrinter ((l d +:+ ".") +:+ name))
        else Ok (mkPrinter (l d +:+ name))
    end.

(** The cycle check of [diff] (the block under [av.CanAddr() &&
    bv.CanAddr()]): the store after it, and whether [diff] returns. *)
Definition cycleCheck (d : diffPrinter) (av bv : Value) (s : Store)
  : Store * bool :=
  match av, bv with
  | Val at_ (Some pa) _, Val bt (Some pb) _ =>
      let avis := (pa, at_) in
      let bvis := (pb, bt) in
      let '(s1, cycle) :=
        match aVisited s !! avis with
        | Some vis =>
            (if negb (bool_decide (vis = bvis))
             then printf d "%# v (previously visited) != %# v"
                         [OFormatter av; OFormatter bv] s
             else s, true)
        | None =>
            match bVisited s !! bvis with
            | Some _ =>
                (printf d "%# v != %# v (previously visited)"
                        [OFormatter av; OFormatter bv] s, true)
            | None => (s, false)
            end
        end in
      (record avis bvis s1, cycle)
  | _, _ => (s, false)
  end.

(** The [switch] on [at.Kind()]; [rec] is the recursive call of [diff]. *)
Definition diffKind
    (rec : diffPrinter -> Value -> Value -> Store -> result Store)
    (d : diffPrinter) (at_ bt : rtype) (av bv : Value) (s : Store)
  : result Store :=
  match tKind at_ with
  | Bool =>
      a ← Value_Bool av; b ← Value_Bool bv;
      Ok (if negb (Bool.eqb a b)
          then printf d "%v != %v" [OBool a; OBool b] s else s)
  | Int | Int8 | Int16 | Int32 | Int64 =>
      a ← Value_Int av; b ← Value_Int bv;
      Ok (if negb (Z.eqb a b)
          then printf d "%d != %d" [OInt a; OInt b] s else s)
  | Uint | Uint8 | Uint16 | Uint32 | Uint64 | Uintptr =>
      a ← Value_Uint av; b ← Value_Uint bv;
      Ok (if negb (Z.eqb a b)
          then printf d "%d != %d" [OUint a; OUint b] s else s)
  | Float32 | Float64 =>
      a ← Value_Float av; b ← Value_Float bv;
      Ok (if negb (SFeqb a b)
          then printf d "%v != %v" [OFloat a; OFloat b] s else s)
  | Complex64 | Complex128 =>
      a ← Value_Complex av; b ← Value_Complex bv;
      Ok (if negb (SFeqb (fst a) (fst b) && SFeqb (snd a) (snd b))
          then printf d "%v != %v" [OComplex a; OComplex b] s else s)
  | Array =>
      n ← Value_Len av;
      forRange n (fun i s =>
        d1 ← relabel d (Sprintf F "[%d]" [OLen i]);
        x ← Value_Index av i; y ← Value_Index bv i;
        rec d1 x y s) s
  | Chan | Func | UnsafePointer =>
      a ← Value_Pointer av; b ← Value_Pointer bv;
      Ok (if negb (N.eqb a b)
          then printf d "%#x != %#x" [OUintptr a; OUintptr b] s else s)
  | Interface =>
      x ← Value_ElemIface av; y ← Value_ElemIface bv;
      rec d x y s
  | Map =>
      '(ka, s1) ← Value_MapKeys order av s;
      '(kb, s2) ← Value_MapKeys order bv s1;
      '(ak, both, bk) ← keyDiff ka kb;
      s3 ← foldM (fun k s =>
              w ← relabel d (Sprintf F "[%#v]" [OValue k]);
              x ← Value_MapIndex av k;
              Ok (printf w "%q != (missing)" [OValue x] s)) ak s2;
      s4 ← foldM (fun k s =>
              w ← relabel d (Sprintf F "[%#v]" [OValue k]);
              x ← Value_MapIndex av k; y ← Value_MapIndex bv k;
              rec w x y s) both s3;
      foldM (fun k s =>
              w ← relabel d (Sprintf F "[%#v]" [OValue k]);
              y ← Value_MapIndex bv k;
              Ok (printf w "(missing) != %q" [OValue y] s)) bk s4
  | Ptr =>
      an ← Value_IsNil av; bn ← Value_IsNil bv;
      if an && negb bn then Ok (printf d "nil != %# v" [OFormatter bv] s)
      else if negb an && bn then Ok (printf d "%# v != nil" [OFormatter av] s)
      else if negb an && negb bn then
        x ← Value_ElemPtr mem av; y ← Value_ElemPtr mem bv;
        rec d x y s
      else Ok s
  | Slice =>
      lenA ← Value_Len av; lenB ← Value_Len bv;
      if negb (Nat.eqb lenA lenB) then
        Ok (printf d "%s[%d] != %s[%d]"
                   [OType at_; OLen lenA; OType bt; OLen lenB] s)
      else
        forRange lenA (fun i s =>
          d1 ← relabel d (Sprintf F "[%d]" [OLen i]);
          x ← Value_Index av i; y ← Value_Index bv i;
          rec d1 x y s) s
  | String_ =>
      a ← Value_String av; b ← Value_String bv;
      Ok (if negb (String.eqb a b)
          then printf d "%q != %q" [OString a; OString b] s else s)
  | Struct =>
      n ← Value_NumField av;
      forRange n (fun i s =>
        name ← Type_FieldName at_ i;
        d1 ← relabel d name;
        x ← Value_Field av i; y ← Value_Field bv i;
        rec d1 x y s) s
  | Invalid => Panic (UnknownKind (tKind at_))
  end.

(** [diffPrinter.diff].  [fuel] bounds the depth of the recursion. *)
Fixpoint diff (fuel : nat) (d : diffPrinter) (av bv : Value) (s : Store)
  : result Store :=
  match fuel with
  | O => OutOfFuel
  | S fuel' =>
      match av, bv with
      | Zero, Val _ _ _ => Ok (printf d "nil != %# v" [OFormatter bv] s)
      | Val _ _ _, Zero => Ok (printf d "%# v != nil" [OFormatter av] s)
      | Zero, Zero => Ok s
      | Val at_ _ _, Val bt _ _ =>
          if negb (bool_decide (at_ = bt))
          then Ok (printf d "%v != %v" [OType at_; OType bt] s)
          else
            let '(s1, cycle) := cycleCheck d av bv s in
            if cycle : bool then Ok s1
            else diffKind (diff fuel') d at_ bt av bv s1
      end
  end.

(** [Pdiff] with the collecting sink: a printer with an empty label and
    two new, empty maps. *)
Definition newStore : Store := mkStore [] ∅ ∅ 0.

Definition Pdiff (fuel : nat) (a b : Value) : result Store :=
  diff fuel (mkPrinter "") a b newStore.

(** [Diff]: the lines collected by [Pdiff]; [a] and [b] are
    [reflect.ValueOf] of the two arguments. *)
Definition Diff (fuel : nat) (a b : Value) : result (list string) :=
  s ← Pdiff fuel a b; Ok (out s).

(** The printers that [diff] derives for an element and for a map key. *)
Definition indexLabel (d : diffPrinter) (i : nat) : diffPrinter :=
  mkPrinter (l d +:+ "[" +:+ decimal (Z.of_nat i) +:+ "]").

Definition keyLabel (d : diffPrinter) (k : Value) : diffPrinter :=
  mkPrinter (l d +:+ "[" +:+ fmt_operand F "#" "v" (OValue k) +:+ "]").

(** The printer that [relabel] derives for a struct field. *)
Definition fieldLabel (d : diffPrinter) (name : string) : diffPrinter :=
  mkPrinter (if String.eqb (l d) "" then name
             else match name with
                  | String "[" _ => l d +:+ name
                  | _ => (l d +:+ ".") +:+ name
                  end).

End Differ.

(** The store after the two [MapKeys] calls of a map comparison. *)
Definition afterMapKeys (s : Store) : Store :=
  mkStore (out s) (aVisited s) (bVisited s) (S (S (iters s))).


(** ** Well-formed values

    [shaped v]: the data of [v] and of all its parts is of the kind its
    type says, an array has the length of its type and a struct as many
    fields as its type. *)

Fixpoint shaped (v : Value) : bool :=
  match v with
  | Zero => true
  | Val t _ d =>
      match tKind t, d with
      | Bool, DBool _ => true
      | (Int | Int8 | Int16 | Int32 | Int64), DInt _ => true
      | (Uint | Uint8 | Uint16 | Uint32 | Uint64 | Uintptr), DUint _ => true
      | (Float32 | Float64), DFloat _ => true
      | (Complex64 | Complex128), DComplex _ _ => true
      | String_, DString _ => true
      | (Chan | Func | UnsafePointer | Ptr), DPointer _ => true
      | Array, DArray xs => Nat.eqb (length xs) (tLen t) && forallb shaped xs
      | Slice, DSlice xs => forallb shaped xs
      | Struct, DStruct xs =>
          Nat.eqb (length xs) (length (tFields t)) && forallb shaped xs
      | Interface, DIface e => shaped e
      | Map, DMap es => forallb (fun e => shaped (fst e) && shaped (snd e)) es
      | _, _ => false
      end
  end.

(** The immediate parts of a value's data. *)
Definition parts (d : Data) : list Value :=
  match d with
  | DArray xs | DSlice xs | DStruct xs => xs
  | DIface e => [e]
  | DMap es => map fst es ++ map snd es
  | _ => []
  end.

(** The element-wise loop over two lists of equal length. *)
Fixpoint allEqual (eq : Value -> Value -> result bool) (xs ys : list Value)
  : result bool :=
  match xs, ys with
  | x :: xs', y :: ys' =>
      r ← eq x y; if r : bool then allEqual eq xs' ys' else Ok false
  | _, _ => Ok true
  end.

(** [comparable v]: [v] is shaped and of a kind legal as a map key, and so
    are the parts that a key comparison reaches. *)
Fixpoint comparable (v : Value) : bool :=
  match v with
  | Zero => true
  | Val t _ d =>
      match tKind t, d with
      | Bool, DBool _ => true
      | (Int | Int8 | Int16 | Int32 | Int64), DInt _ => true
      | (Uint | Uint8 | Uint16 | Uint32 | Uint64 | Uintptr), DUint _ => true
      | (Float32 | Float64), DFloat _ => true
      | (Complex64 | Complex128), DComplex _ _ => true
      | String_, DString _ => true
      | (Chan | UnsafePointer | Ptr), DPointer _ => true
      | Array, DArray xs =>
          Nat.eqb (length xs) (tLen t) && forallb comparable xs
      | Struct, DStruct xs =>
          Nat.eqb (length xs) (length (tFields t)) && forallb comparable xs
      | Interface, DIface e => comparable e
      | _, _ => false
      end
  end.

Definition nonEmpty (s : string) : bool := negb (String.eqb s "").

Definition isNaN (f : spec_float) : bool :=
  match f with S754_nan => true | _ => false end.

Section Heap.
Variable mem : gmap uintptr object.

(** [wf v]: [v] is a value the differ supports.  It is shaped, a non-nil
    pointer points into the heap, struct fields have names, and map keys
    are comparable. *)
Fixpoint wf (v : Value) : bool :=
  match v with
  | Zero => true
  | Val t _ d =>
      match tKind t, d with
      | Bool, DBool _ => true
      | (Int | Int8 | Int16 | Int32 | Int64), DInt _ => true
      | (Uint | Uint8 | Uint16 | Uint32 | Uint64 | Uintptr), DUint _ => true
      | (Float32 | Float64), DFloat _ => true
      | (Complex64 | Complex128), DComplex _ _ => true
      | String_, DString _ => true
      | (Chan | Func | UnsafePointer), DPointer _ => true
      | Ptr, DPointer p => N.eqb p 0 || bool_decide (is_Some (mem !! p))
      | Array, DArray xs => Nat.eqb (length xs) (tLen t) && forallb wf xs
      | Slice, DSlice xs => forallb wf xs
      | Struct, DStruct xs =>
          Nat.eqb (length xs) (length (tFields t))
          && forallb nonEmpty (tFields t) && forallb wf xs
      | Interface, DIface e => wf e
      | Map, DMap es => forallb (fun e => comparable (fst e) && wf (snd e)) es
      | _, _ => false
      end
  end.

(** Every object of the heap is a supported value. *)
Definition wfHeap : Prop :=
  forall p t d, mem !! p = Some (t, d) -> wf (Val t (Some p) d) = true.

(** The identities of the heap's objects. *)
Definition heapIdents : gset visit :=
  list_to_set (map (fun po => (fst po, fst (snd po))) (map_to_list mem)).

End Heap.

(** [clean v]: no float or complex component of [v], map keys included,
    is a NaN. *)
Fixpoint clean (v : Value) : bool :=
  match v with
  | Zero => true
  | Val _ _ d =>
      match d with
      | DFloat f => negb (isNaN f)
      | DComplex re im => negb (isNaN re) && negb (isNaN im)
      | DArray xs | DSlice xs | DStruct xs => forallb clean xs
      | DIface e => clean e
      | DMap es => forallb (fun e => clean (fst e) && clean (snd e)) es
      | _ => true
      end
  end.

Definition cleanHeap (mem : gmap uintptr object) : Prop :=
  forall p t d, mem !! p = Some (t, d) -> clean (Val t (Some p) d) = true.

(** The number of [Val] nodes of a value. *)
Fixpoint vsize (v : Value) : nat :=
  match v with
  | Zero => 0
  | Val _ _ d =>
      S match d with
        | DArray xs | DSlice xs | DStruct xs => list_sum (map vsize xs)
        | DIface e => vsize e
        | DMap es => list_sum (map (fun e => vsize (fst e) + vsize (snd e)) es)
        | _ => 0
        end
  end.

(** ** Notions used to state the properties *)

(** The keys only on the left, on both sides, and only on the right, in
    the words of the specification. *)
Definition onlyLeft (ka kb : list Value) : list Value :=
  List.filter (fun k => negb (existsb (sameKey k) kb)) ka.
Definition bothLeft (ka kb : list Value) : list Value :=
  List.filter (fun k => existsb (sameKey k) kb) ka.
Definition onlyRight (ka kb : list Value) : list Value :=
  List.filter (fun k => negb (existsb (fun x => sameKey x k) ka)) kb.

(** Growth of the left visited set. *)
Definition grows (s s' : Store) : Prop := dom (aVisited s) ⊆ dom (aVisited s').

(** The heap identities not yet in the left visited set. *)
Definition unvisited (mem : gmap uintptr object) (s : Store) : nat :=
  size (heapIdents mem ∖ dom (aVisited s)).

(** [run], a computation indexed by its fuel, returns a store from some
    fuel on. *)
Definition halts (run : nat -> result Store) (s : Store) : Prop :=
  exists f0 s', (forall f, (f0 <= f)%nat -> run f = Ok s') /\ grows s s'.

(** [rec2] gives every outcome of [rec1] other than running out of fuel. *)
Definition refines
    (rec1 rec2 : diffPrinter -> Value -> Value -> Store -> result Store) :=
  forall d x y s r, rec1 d x y s = r -> r <> OutOfFuel -> rec2 d x y s = r.

(** The store of a self-comparison: both maps are the same, and send
    every recorded identity to itself. *)
Definition selfStore (s : Store) : Prop :=
  aVisited s = bVisited s /\ forall k v, aVisited s !! k = Some v -> v = k.

Definition quiet (s0 s : Store) : Prop := out s = out s0 /\ selfStore s.

(** Every identity recorded as a counterpart on the right is itself
    recorded on the left. *)
Definition paired (s : Store) : Prop :=
  forall a b, bVisited s !! b = Some a -> is_Some (aVisited s !! a).

(** The identity of an addressable value. *)
Definition ident (v : Value) : option visit :=
  match v with
  | Val t (Some p) _ => Some (p, t)
  | _ => None
  end.

(** The values the walk can come to from a value: its parts, and what
    its pointers point to. *)
Inductive reach (mem : gmap uintptr object) : Value -> Value -> Prop :=
| reach_here v : reach mem v v
| reach_zero v : reach mem v Zero
| reach_part t a d x w :
    In x (parts d) -> reach mem x w -> reach mem (Val t a d) w
| reach_elem t a p tp dp w :
    mem !! p = Some (tp, dp) -> reach mem (Val tp (Some p) dp) w ->
    reach mem (Val t a (DPointer p)) w.

(** [k] and [v] are the identities of two addressable values reached
    from [a] and from [b]. *)
Definition visitedPair (mem : gmap uintptr object) (a b : Value)
    (k v : visit) : Prop :=
  exists x y, reach mem a x /\ reach mem b y /\ ident x = Some k /\ ident y = Some v.

(** Every entry of the maps of [s'] is an entry of [s] or was recorded
    for a pair reached from [a] and [b]. *)
Definition fromPair (mem : gmap uintptr object) (a b : Value)
    (s s' : Store) : Prop :=
  (forall k v, aVisited s' !! k = Some v ->
     aVisited s !! k = Some v \/ visitedPair mem a b k v)
  /\ (forall k v, bVisited s' !! k = Some v ->
     bVisited s !! k = Some v \/ visitedPair mem a b v k).

Definition child (mem : gmap uintptr object) (v x : Value) : Prop :=
  forall w, reach mem x w -> reach mem v w.

(** A label with no [%] in it. *)
Fixpoint noPercent (s : string) : bool :=
  match s with
  | EmptyString => true
  | String c s' => negb (Ascii.eqb c "%") && noPercent s'
  end.

(** ** The walker over any [Printfer]

    [Pdiff] takes the sink as an interface.  [Walk W] is the differ's
    state with a sink of type [W]; [Printf] is the sink's method. *)

Record Walk (W : Type) := mkWalk {
  sink : W;
  aSeen : gmap visit visit;
  bSeen : gmap visit visit;
  started : nat
}.
Arguments mkWalk {W}.
Arguments sink {W}.
Arguments aSeen {W}.
Arguments bSeen {W}.
Arguments started {W}.

Fixpoint foldW {W A} (body : A -> Walk W -> result (Walk W)) (xs : list A)
    (s : Walk W) : result (Walk W) :=
  match xs with
  | [] => Ok s
  | x :: xs' => s' ← body x s; foldW body xs' s'
  end.

Section Walker.
Variable F : Fmt.
Variable mem : gmap uintptr object.
Variable order : nat -> list Value -> list Value.
Context {W : Type}.
Variable Printf : string -> list operand -> W -> W.

Definition recordW (avis bvis : visit) (s : Walk W) : Walk W :=
  mkWalk (sink s) (<[avis := bvis]> (aSeen s)) (<[bvis := avis]> (bSeen s))
         (started s).

Definition MapKeysW (v : Value) (s : Walk W) : result (list Value * Walk W) :=
  match v with
  | Val _ _ (DMap entries) =>
      Ok (order (started s) (map fst entries),
          mkWalk (sink s) (aSeen s) (bSeen s) (S (started s)))
  | _ => Panic RuntimePanic
  end.

(** [diffPrinter.printf] on the sink [d.w]. *)
Definition printfW (d : diffPrinter) (f : string) (a : list operand)
    (s : Walk W) : Walk W :=
  let l' := if String.eqb (l d) "" then "" else l d +:+ ": " in
  mkWalk (Printf (l' +:+ f) a (sink s)) (aSeen s) (bSeen s) (started s).

Definition cycleCheckW (d : diffPrinter) (av bv : Value) (s : Walk W)
  : Walk W * bool :=
  match av, bv with
  | Val at_ (Some pa) _, Val bt (Some pb) _ =>
      let avis := (pa, at_) in
      let bvis := (pb, bt) in
      let '(s1, cycle) :=
        match aSeen s !! avis with
        | Some vis =>
            (if negb (bool_decide (vis = bvis))
             then printfW d "%# v (previously visited) != %# v"
                          [OFormatter av; OFormatter bv] s
             else s, true)
        | None =>
            match bSeen s !! bvis with
            | Some _ =>
                (printfW d "%# v != %# v (previously visited)"
                         [OFormatter av; OFormatter bv] s, true)
            | None => (s, false)
            end
        end in
      (recordW avis bvis s1, cycle)
  | _, _ => (s, false)
  end.

Definition diffKindW
    (rec : diffPrinter -> Value -> Value -> Walk W -> result (Walk W))
    (d : diffPrinter) (at_ bt : rtype) (av bv : Value) (s : Walk W)
  : result (Walk W) :=
  match tKind at_ with
  | Bool =>
      a ← Value_Bool av; b ← Value_Bool bv;
      Ok (if negb (Bool.eqb a b)
          then printfW d "%v != %v" [OBool a; OBool b] s else s)
  | Int | Int8 | Int16 | Int32 | Int64 =>
      a ← Value_Int av; b ← Value_Int bv;
      Ok (if negb (Z.eqb a b)
          then printfW d "%d != %d" [OInt a; OInt b] s else s)
  | Uint | Uint8 | Uint16 | Uint32 | Uint64 | Uintptr =>
      a ← Value_Uint av; b ← Value_Uint bv;
      Ok (if negb (Z.eqb a b)
          then printfW d "%d != %d" [OUint a; OUint b] s else s)
  | Float32 | Float64 =>
      a ← Value_Float av; b ← Value_Float bv;
      Ok (if negb (SFeqb a b)
          then printfW d "%v != %v" [OFloat a; OFloat b] s else s)
  | Complex64 | Complex128 =>
      a ← Value_Complex av; b ← Value_Complex bv;
      Ok (if negb (SFeqb (fst a) (fst b) && SFeqb (snd a) (snd b))
          then printfW d "%v != %v" [OComplex a; OComplex b] s else s)
  | Array =>
      n ← Value_Len av;
      foldW (fun i s =>
        d1 ← relabel d (Sprintf F "[%d]" [OLen i]);
        x ← Value_Index av i; y ← Value_Index bv i;
        rec d1 x y s) (seq 0 n) s
  | Chan | Func | UnsafePointer =>
      a ← Value_Pointer av; b ← Value_Pointer bv;
      Ok (if negb (N.eqb a b)
          then printfW d "%#x != %#x" [OUintptr a; OUintptr b] s else s)
  | Interface =>
      x ← Value_ElemIface av; y ← Value_ElemIface bv;
      rec d x y s
  | Map =>
      '(ka, s1) ← MapKeysW av s;
      '(kb, s2) ← MapKeysW bv s1;
      '(ak, both, bk) ← keyDiff ka kb;
      s3 ← foldW (fun k s =>
              w ← relabel d (Sprintf F "[%#v]" [OValue k]);
              x ← Value_MapIndex av k;
              Ok (printfW w "%q != (missing)" [OValue x] s)) ak s2;
      s4 ← foldW (fun k s =>
              w ← relabel d (Sprintf F "[%#v]" [OValue k]);
              x ← Value_MapIndex av k; y ← Value_MapIndex bv k;
              rec w x y s) both s3;
      foldW (fun k s =>
              w ← relabel d (Sprintf F "[%#v]" [OValue k]);
              y ← Value_MapIndex bv k;
              Ok (printfW w "(missing) != %q" [OValue y] s)) bk s4
  | Ptr =>
      an ← Value_IsNil av; bn ← Value_IsNil bv;
      if an && negb bn then Ok (printfW d "nil != %# v" [OFormatter bv] s)
      else if negb an && bn then Ok (printfW d "%# v != nil" [OFormatter av] s)
      else if negb an && negb bn then
        x ← Value_ElemPtr mem av; y ← Value_ElemPtr mem bv;
        rec d x y s
      else Ok s
  | Slice =>
      lenA ← Value_Len av; lenB ← Value_Len bv;
      if negb (Nat.eqb lenA lenB) then
        Ok (printfW d "%s[%d] != %s[%d]"
                    [OType at_; OLen lenA; OType bt; OLen lenB] s)
      else
        foldW (fun i s =>
          d1 ← relabel d (Sprintf F "[%d]" [OLen i]);
          x ← Value_Index av i; y ← Value_Index bv i;
          rec d1 x y s) (seq 0 lenA) s
  | String_ =>
      a ← Value_String av; b ← Value_String bv;
      Ok (if negb (String.eqb a b)
          then printfW d "%q != %q" [OString a; OString b] s else s)
  | Struct =>
      n ← Value_NumField av;
      foldW (fun i s =>
        name ← Type_FieldName at_ i;
        d1 ← relabel d name;
        x ← Value_Field av i; y ← Value_Field bv i;
        rec d1 x y s) (seq 0 n) s
  | Invalid => Panic (UnknownKind (tKind at_))
  end.

Fixpoint diffW (fuel : nat) (d : diffPrinter) (av bv : Value) (s : Walk W)
  : result (Walk W) :=
  match fuel with
  | O => OutOfFuel
  | S fuel' =>
      match av, bv with
      | Zero, Val _ _ _ => Ok (printfW d "nil != %# v" [OFormatter bv] s)
      | Val _ _ _, Zero => Ok (printfW d "%# v != nil" [OFormatter av] s)
      | Zero, Zero => Ok s
      | Val at_ _ _, Val bt _ _ =>
          if negb (bool_decide (at_ = bt))
          then Ok (printfW d "%v != %v" [OType at_; OType bt] s)
          else
            let '(s1, cycle) := cycleCheckW d av bv s in
            if cycle : bool then Ok s1
            else diffKindW (diffW fuel') d at_ bt av bv s1
      end
  end.

(** [Pdiff(p, a, b)]: the sink after the walk. *)
Definition PdiffTo (fuel : nat) (p : W) (a b : Value) : result W :=
  s ← diffW fuel (mkPrinter "") a b (mkWalk p ∅ ∅ 0); Ok (sink s).

End Walker.

(** The three sinks.  [sbuf] appends the formatted line; [wprintfer]
    writes the format with a newline added, formatted, to a writer that
    takes every byte; [logprintfer] hands format and operands to [Logf],
    and the [Logfer] is modelled by the calls it receives. *)
Definition nl : string := String "010" "".

Definition sbuf_Printf (F : Fmt) (f : string) (a : list operand)
    (p : list string) : list string :=
  p ++ [Sprintf F f a].

Definition wprintfer_Printf (F : Fmt) (f : string) (a : list operand)
    (w : string) : string :=
  w +:+ Sprintf F (f +:+ nl) a.

Definition logprintfer_Printf (f : string) (a : list operand)
    (calls : list (string * list operand)) : list (string * list operand) :=
  calls ++ [(f, a)].

Definition Fdiff F mem order (fuel : nat) (w : string) (a b : Value) : result string :=
  PdiffTo F mem order (wprintfer_Printf F) fuel w a b.

Definition Ldiff F mem order (fuel : nat) (calls : list (string * list operand))
    (a b : Value) : result (list (string * list operand)) :=
  PdiffTo F mem order logprintfer_Printf fuel calls a b.


(** What a sink that renders each call would hold for a call, and a sink
    fed a sequence of calls one after the other. *)
Definition render (F : Fmt) (c : string * list operand) : string :=
  Sprintf F (fst c) (snd c).

Definition replay {W} (Printf : string -> list operand -> W -> W)
    (calls : list (string * list operand)) (w : W) : W :=
  fold_left (fun w c => Printf (fst c) (snd c) w) calls w.

(** The lines of [Diff] as [Fdiff] writes them. *)
Definition withNewlines (lines : list string) : string :=
  fold_right (fun x acc => x +:+ nl +:+ acc) "" lines.

(** The format that [diffPrinter.printf] hands to the sink. *)
Definition labelled (d : diffPrinter) (f : string) : string :=
  (if String.eqb (l d) "" then "" else l d +:+ ": ") +:+ f.

(** The number of operands that a format of the fragment asks for, when
    it does not end inside a directive. *)
Fixpoint verbs (f : string) : option nat :=
  match f with
  | EmptyString => Some 0%nat
  | String c f' => if Ascii.eqb c "%" then verbsIn f' else verbs f'
  end
with verbsIn (f : string) : option nat :=
  match f with
  | EmptyString => None
  | String c f' =>
      if isFlag c then verbsIn f'
      else if Ascii.eqb c "%" then verbs f'
      else if outsideFragment c then None
      else S <$> verbs f'
  end.

(** A call as [diffPrinter.printf] makes it: a label and its separator,
    or nothing, before a format that asks for the operands passed. *)
Definition balanced (c : string * list operand) : Prop :=
  exists d body, fst c = labelled d body /\ verbs body = Some (length (snd c)).

(** A call is in the fragment of formats that [scan] reads. *)
Definition inFragment (F : Fmt) (c : string * list operand) : Prop :=
  scan F (fst c) (snd c) <> None.

(** Two walks into two sinks that hold related contents, and a walk of the
    collecting differ beside a walk into a sink. *)
Definition alike {W1 W2} (R : W1 -> W2 -> Prop) (s1 : Walk W1) (s2 : Walk W2)
  : Prop :=
  R (sink s1) (sink s2) /\ aSeen s1 = aSeen s2 /\ bSeen s1 = bSeen s2
  /\ started s1 = started s2.

Definition alikeR {W1 W2} (R : W1 -> W2 -> Prop)
    (r1 : result (Walk W1)) (r2 : result (Walk W2)) : Prop :=
  match r1, r2 with
  | Ok s1, Ok s2 => alike R s1 s2
  | Panic p, Panic q => p = q
  | OutOfFuel, OutOfFuel => True
  | _, _ => False
  end.

Definition tracks {W} (R : list string -> W -> Prop) (s : Store) (w : Walk W)
  : Prop :=
  R (out s) (sink w) /\ aVisited s = aSeen w /\ bVisited s = bSeen w
  /\ iters s = started w.

Definition tracksR {W} (R : list string -> W -> Prop)
    (r1 : result Store) (r2 : result (Walk W)) : Prop :=
  match r1, r2 with
  | Ok s, Ok w => tracks R s w
  | Panic p, Panic q => p = q
  | OutOfFuel, OutOfFuel => True
  | _, _ => False
  end.

(** ** Plain values

    [plain v]: [v] is built from booleans, integers, strings, channels,
    functions, unsafe pointers, arrays, slices, structs and interfaces
    only, with the data its types say and named struct fields. *)
Fixpoint plain (v : Value) : bool :=
  match v with
  | Zero => true
  | Val t _ d =>
      match tKind t, d with
      | Bool, DBool _ => true
      | (Int | Int8 | Int16 | Int32 | Int64), DInt _ => true
      | (Uint | Uint8 | Uint16 | Uint32 | Uint64 | Uintptr), DUint _ => true
      | String_, DString _ => true
      | (Chan | Func | UnsafePointer), DPointer _ => true
      | Array, DArray xs => Nat.eqb (length xs) (tLen t) && forallb plain xs
      | Slice, DSlice xs => forallb plain xs
      | Struct, DStruct xs =>
          Nat.eqb (length xs) (length (tFields t))
          && forallb nonEmpty (tFields t) && forallb plain xs
      | Interface, DIface e => plain e
      | _, _ => false
      end
  end.

(** What a value holds, whatever the addresses it and its parts are at. *)
Fixpoint content (v : Value) : Value :=
  match v with
  | Zero => Zero
  | Val t _ d =>
      Val t None
          match d with
          | DArray xs => DArray (map content xs)
          | DSlice xs => DSlice (map content xs)
          | DStruct xs => DStruct (map content xs)
          | DIface e => DIface (content e)
          | DMap es => DMap (map (fun e => (content (fst e), content (snd e))) es)
          | _ => d
          end
  end.

(** The identities of a value and of the parts it holds in place. *)
Fixpoint idents (v : Value) : list visit :=
  match v with
  | Zero => []
  | Val t a d =>
      match a with Some p => [(p, t)] | None => [] end
      ++ match d with
         | DArray xs | DSlice xs | DStruct xs => flat_map idents xs
         | DIface e => idents e
         | _ => []
         end
  end.

(** No identity of [v] is recorded in the visited map [m]. *)
Definition unseen (v : Value) (m : gmap visit visit) : Prop :=
  forall k, In k (idents v) -> m !! k = None.

(** [discrete v]: no float or complex number is among the parts of [v]
    that a key comparison reaches. *)
Fixpoint discrete (v : Value) : bool :=
  match v with
  | Zero => true
  | Val _ _ d =>
      match d with
      | DFloat _ | DComplex _ _ => false
      | DArray xs | DSlice xs | DStruct xs => forallb discrete xs
      | DIface e => discrete e
      | DMap es => forallb (fun e => discrete (fst e) && discrete (snd e)) es
      | _ => true
      end
  end.

(** A result with its value, if any, stripped of addresses. *)
Definition contentOf (r : result Value) : result Value :=
  match r with
  | Ok v => Ok (content v)
  | Panic p => Panic p
  | OutOfFuel => OutOfFuel
  end.

(** [namesPlain v]: no field name of a struct type in [v] holds a [%]. *)
Fixpoint namesPlain (v : Value) : bool :=
  match v with
  | Zero => true
  | Val t _ d =>
      forallb noPercent (tFields t)
      && match d with
         | DArray xs | DSlice xs | DStruct xs => forallb namesPlain xs
         | DIface e => namesPlain e
         | DMap es =>
             forallb (fun e => namesPlain (fst e) && namesPlain (snd e)) es
         | _ => true
         end
  end.

(** A line of the form [label: body], or [body] alone for the empty
    label, where the body is a format with its operands, rendered. *)
Definition labelledLine (F : Fmt) (line : string) : Prop :=
  exists lab body args,
    noPercent lab = true /\ verbs body = Some (length args)
    /\ line = (if String.eqb lab "" then "" else lab +:+ ": ")
              +:+ Sprintf F body args.

(** ** Shell quoting ([src/logger.go])

    Go strings are byte strings.  [pattern] is the regular expression
    [[^\w@%+=:,./-]]: it matches a string exactly when some byte of it is
    not an ASCII letter, a digit, or one of [_@%+=:,./-] (a byte above 127
    is part of a character that is none of these). *)

Definition inClass (c : ascii) : bool :=
  let n := nat_of_ascii c in
  (Nat.leb 48 n && Nat.leb n 57) || (Nat.leb 65 n && Nat.leb n 90)
  || (Nat.leb 97 n && Nat.leb n 122) || Ascii.eqb c "_"
  || Ascii.eqb c "@" || Ascii.eqb c "%" || Ascii.eqb c "+" || Ascii.eqb c "="
  || Ascii.eqb c ":" || Ascii.eqb c "," || Ascii.eqb c "." || Ascii.eqb c "/"
  || Ascii.eqb c "-".

Fixpoint pattern_MatchString (s : string) : bool :=
  match s with
  | EmptyString => false
  | String c s' => negb (inClass c) || pattern_MatchString s'
  end.

(** [strings.ReplaceAll(s, old, new)] for a one-byte [old]. *)
Fixpoint ReplaceAll (s : string) (old : ascii) (new : string) : string :=
  match s with
  | EmptyString => EmptyString
  | String c s' =>
      if Ascii.eqb c old then new +:+ ReplaceAll s' old new
      else String c (ReplaceAll s' old new)
  end.

(** [strings.Join]. *)
Fixpoint Join (elems : list string) (sep : string) : string :=
  match elems with
  | [] => ""
  | [x] => x
  | x :: rest => x +:+ sep +:+ Join rest sep
  end.

(** The replacement for a single quote: quote, double quote, quote,
    double quote, quote. *)
Definition quoteEscape : string :=
  String "'" (String "034" (String "'" (String "034" (String "'" "")))).

Definition Quote (s : string) : string :=
  if Nat.eqb (String.length s) 0 then "''"
  else if pattern_MatchString s then "'" +:+ ReplaceAll s "'" quoteEscape +:+ "'"
  else s.

Definition QuoteCommand (args : list string) : string :=
  Join (map Quote args) " ".

(** ** How a shell reads a command line

    The words of a command line, for the part of the POSIX shell syntax
    made of spaces, bytes that stand for themselves, single quotes, and
    double quotes around bytes that stand for themselves there.  A line
    outside this part has no reading here. *)

(** The printable bytes that stand for themselves outside quotes: none of
    the operators, quoting, expansion and pattern characters. *)
Definition shLiteral (c : ascii) : bool :=
  let n := nat_of_ascii c in
  Nat.leb 33 n && Nat.leb n 126
  && negb (existsb (Ascii.eqb c)
             (list_ascii_of_string
                (String "034" "|&;<>()$`\'*?[]#~!{}^"))).

Inductive lexState :=
| Between
| InWord (w : string)
| InSingle (w : string)
| InDouble (w : string).

Fixpoint lex (st : lexState) (s : string) : option (list string) :=
  match s with
  | EmptyString =>
      match st with
      | Between => Some []
      | InWord w => Some [w]
      | InSingle _ | InDouble _ => None
      end
  | String c s' =>
      match st with
      | Between =>
          if Ascii.eqb c " " then lex Between s'
          else if Ascii.eqb c "'" then lex (InSingle "") s'
          else if Ascii.eqb c "034" then lex (InDouble "") s'
          else if shLiteral c then lex (InWord (String c "")) s'
          else None
      | InWord w =>
          if Ascii.eqb c " " then cons w <$> lex Between s'
          else if Ascii.eqb c "'" then lex (InSingle w) s'
          else if Ascii.eqb c "034" then lex (InDouble w) s'
          else if shLiteral c then lex (InWord (w +:+ String c "")) s'
          else None
      | InSingle w =>
          if Ascii.eqb c "'" then lex (InWord w) s'
          else lex (InSingle (w +:+ String c "")) s'
      | InDouble w =>
          if Ascii.eqb c "034" then lex (InWord w) s'
          else if Ascii.eqb c "$" || Ascii.eqb c "`" || Ascii.eqb c "\"
                  || Ascii.eqb c "!"
          then None
          else lex (InDouble (w +:+ String c "")) s'
      end
  end.

Definition shellWords (s : string) : option (list string) := lex Between s.

(** ** Line breaking in [logger.output] ([src/logger.go])

    [argWidth] and [colorize] are not in the sources at hand and stay
    parameters; the elapsed time that [output] formats is an input,
    [timestamp].  [fmt.Fprint] of strings writes them one after the
    other.  The state of the loop is the buffer and the three variables
    [padding], [lineArgs] and [lineWidth]. *)

Definition maxLineWidth : nat := 80.

(** [strings.Repeat] of a one-byte string. *)
Fixpoint Repeat (c : ascii) (n : nat) : string :=
  match n with
  | O => EmptyString
  | S n' => String c (Repeat c n')
  end.

Record lineState := mkLine {
  buf : string;
  padding : string;
  lineArgs : nat;
  lineWidth : nat
}.

Section Output.
Variable argWidth : string -> nat.
Variable colorize : string -> string.

(** One iteration of [for _, arg := range args]. *)
Definition outputArg (timestampWidth : nat) (indent : string)
    (st : lineState) (arg : string) : lineState :=
  let w := argWidth arg in
  let lineWidth1 := (lineWidth st + (w + String.length (padding st)))%nat in
  let arg1 := ReplaceAll arg "010" (nl +:+ indent) in
  let st1 :=
    if Nat.ltb maxLineWidth lineWidth1 && negb (Nat.eqb (lineArgs st) 0)
    then mkLine (buf st +:+ nl +:+ indent) "" 0 (timestampWidth + w)
    else mkLine (buf st) (padding st) (lineArgs st) lineWidth1 in
  mkLine (buf st1 +:+ padding st1 +:+ arg1) " " (S (lineArgs st1))
         (lineWidth st1).

(** [l.output(args...)]: the buffer afterwards. *)
Definition output (timestamp : string) (args : list string) (buf0 : string)
  : string :=
  let timestampWidth := (String.length timestamp + 1)%nat in
  let timestamp1 := colorize timestamp in
  let buf1 := buf0 +:+ timestamp1 +:+ " " in
  let indent := Repeat " " timestampWidth in
  let st := fold_left (outputArg timestampWidth indent) args
                      (mkLine buf1 "" 0 timestampWidth) in
  buf st +:+ nl.

(** The text of a line holding the arguments [line], and the width that
    [output] counts for it. *)
Definition lineText (indent : string) (line : list string) : string :=
  Join (map (fun arg => ReplaceAll arg "010" (nl +:+ indent)) line) " ".

Definition width (line : list string) : nat :=
  (list_sum (map argWidth line) + (length line - 1))%nat.

(** Every line but the last is full: the first argument of the next
    line, put after it, would have made it wider than [maxLineWidth]. *)
Fixpoint full (timestampWidth : nat) (lines : list (list string)) : Prop :=
  match lines with
  | line :: (next :: _) as rest =>
      match next with
      | arg :: _ =>
          (maxLineWidth < timestampWidth + width (line ++ [arg]))%nat
      | [] => True
      end
      /\ full timestampWidth rest
  | _ => True
  end.

End Output.

(** ** Concrete inputs *)

Definition int_t : rtype := mkType "int" Int 0 [].
Definition string_t : rtype := mkType "string" String_ 0 [].
Definition float64_t : rtype := mkType "float64" Float64 0 [].
Definition vInt (n : Z) : Value := Val int_t None (DInt n).
Definition vString (s : string) : Value := Val string_t None (DString s).

(** A renderer that prints every operand it is asked about as [?]. *)
Definition plainFmt : Fmt :=
  mkFmt (fun _ _ _ => "?") (fun _ => "?") (fun _ _ => "?").

(** The double quote. *)
Definition dq : string := String "034" "".

(** A renderer for the operands of the concrete inputs below: a string
    held by a [reflect.Value] in double quotes, an integer held by a
    [reflect.Value] in decimal, a NaN as [NaN]. *)
Definition sampleFmt : Fmt :=
  mkFmt (fun _ _ a =>
           match a with
           | OValue (Val _ _ (DString s)) => dq +:+ s +:+ dq
           | OValue (Val _ _ (DInt n)) => decimal n
           | OFloat S754_nan => "NaN"
           | _ => "?"
           end)
        (fun _ => "?") (fun _ _ => "?").

Definition vNaN : Value := Val float64_t None (DFloat S754_nan).

(** [type T struct { next *T }; p := &T{}; p.next = p]: the record lives
    at address 16, and its field [next], at the same address, points back
    to it. *)
Definition T_t : rtype := mkType "main.T" Struct 0 ["next"].
Definition ptrT_t : rtype := mkType "*main.T" Ptr 0 [].
Definition cyclicHeap : gmap uintptr object :=
  {[ 16%N := (T_t, DStruct [Val ptrT_t (Some 16%N) (DPointer 16%N)]) ]}.
Definition cyclic : Value := Val ptrT_t None (DPointer 16%N).

(** [map[string]int{"a": 1, "b": 2}], the empty map of that type, and
    [map[string]int{"%d": 1}]. *)
Definition mapSI_t : rtype := mkType "map[string]int" Map 0 [].
Definition mapAB : Value :=
  Val mapSI_t None (DMap [(vString "a", vInt 1); (vString "b", vInt 2)]).
Definition mapEmpty : Value := Val mapSI_t None (DMap []).
Definition mapPercent : Value :=
  Val mapSI_t None (DMap [(vString "%d", vInt 1)]).

(** [&x] and [&y] for two [int] variables holding 5, at addresses 8 and
    24. *)
Definition ptrInt_t : rtype := mkType "*int" Ptr 0 [].
Definition intHeap : gmap uintptr object :=
  {[ 8%N := (int_t, DInt 5); 24%N := (int_t, DInt 5) ]}.

(** [type P struct { x, y *int }]: on the left both fields point to the
    variable at 8; on the right [x] points to 8 and [y] to 24. *)
Definition P_t : rtype := mkType "main.P" Struct 0 ["x"; "y"].
Definition pairLeft : Value :=
  Val P_t None (DStruct [Val ptrInt_t None (DPointer 8%N);
                         Val ptrInt_t None (DPointer 8%N)]).
Definition pairRight : Value :=
  Val P_t None (DStruct [Val ptrInt_t None (DPointer 8%N);
                         Val ptrInt_t None (DPointer 24%N)]).

(** [[]int{1, 2}] and [[]int{1}]; the elements of a slice are
    addressable. *)
Definition sliceInt_t : rtype := mkType "[]int" Slice 0 [].
Definition slice12 : Value :=
  Val sliceInt_t None
      (DSlice [Val int_t (Some 32%N) (DInt 1); Val int_t (Some 40%N) (DInt 2)]).
Definition slice1 : Value :=
  Val sliceInt_t None (DSlice [Val int_t (Some 48%N) (DInt 1)]).

(** Two enumeration orders for map keys. *)
Definition inOrder (n : nat) (ks : list Value) : list Value := ks.
Definition reversed (n : nat) (ks : list Value) : list Value := rev ks.

(** [[]int{1, 2}] once more, in other storage. *)
Definition slice12b : Value :=
  Val sliceInt_t None
      (DSlice [Val int_t (Some 56%N) (DInt 1); Val int_t (Some 64%N) (DInt 2)]).

(** * Properties *)

(** ** Induction on values through their parts *)

Section ValueInd.
Variable P : Value -> Prop.
Hypothesis HZero : P Zero.
Hypothesis HVal : forall t a d, Forall P (parts d) -> P (Val t a d).

Lemma Value_parts_ind : forall v, P v.
Proof.
  fix IH 1. intros [|t a d]; [exact HZero|].
  apply HVal. destruct d as [ | | | | | | |xs|xs|xs|e|es]; simpl;
    try apply List.Forall_nil.
  - induction xs as [|x xs IHxs]; [apply List.Forall_nil|apply List.Forall_cons]; [apply IH | exact IHxs].
  - induction xs as [|x xs IHxs]; [apply List.Forall_nil|apply List.Forall_cons]; [apply IH | exact IHxs].
  - induction xs as [|x xs IHxs]; [apply List.Forall_nil|apply List.Forall_cons]; [apply IH | exact IHxs].
  - apply List.Forall_cons; [apply IH | apply List.Forall_nil].
  - apply Forall_app_2.
    + induction es as [|[k x] es IHes]; [apply List.Forall_nil|apply List.Forall_cons]; [apply IH | exact IHes].
    + induction es as [|[k x] es IHes]; [apply List.Forall_nil|apply List.Forall_cons]; [apply IH | exact IHes].
Qed.

End ValueInd.

(** ** Strings and [Sprintf] *)

Lemma append_nil_r (x : string) : x +:+ "" = x.
Proof.
  induction x as [|c x IH]; [reflexivity|].
  change (String c (x +:+ "") = String c x). now rewrite IH.
Qed.

Lemma append_assoc (x y z : string) : (x +:+ y) +:+ z = x +:+ (y +:+ z).
Proof.
  induction x as [|c x IH]; [reflexivity|].
  change (String c ((x +:+ y) +:+ z) = String c (x +:+ (y +:+ z))).
  now rewrite IH.
Qed.

Lemma out_emit x s : out (emit x s) = out s ++ [x].
Proof. reflexivity. Qed.

(** ** The checks at the entry of [diff] *)

Section Entry.
Variable F : Fmt.
Variable mem : gmap uintptr object.
Variable order : nat -> list Value -> list Value.

Lemma printf_root d f a s :
  l d = "" -> printf F d f a s = emit (Sprintf F f a) s.
Proof. intros H. unfold printf, line. rewrite H. reflexivity. Qed.


End Entry.


(** ** Symmetry of [keyEqual] *)

Lemma SFeqb_sym a b : SFeqb a b = SFeqb b a.
Proof.
  unfold SFeqb, SFcompare.
  destruct a as [sa|sa| |sa ma ea], b as [sb|sb| |sb mb eb]; try reflexivity;
    try (destruct sa; reflexivity); try (destruct sb; reflexivity);
    try (destruct sa, sb; reflexivity).
  change (PosDef.Pos.compare_cont Eq ma mb) with (Pos.compare ma mb).
  change (PosDef.Pos.compare_cont Eq mb ma) with (Pos.compare mb ma).
  rewrite (Z.compare_antisym ea eb), (Pos.compare_antisym ma mb).
  destruct sa, sb; try reflexivity;
    destruct (ea ?= eb)%Z; simpl; try reflexivity;
    destruct (ma ?= mb)%positive; reflexivity.
Qed.

Lemma eqb_comm (a b : bool) : Bool.eqb a b = Bool.eqb b a.
Proof. destruct a, b; reflexivity. Qed.

Lemma allEqual_sym xs : forall ys,
  Forall (fun x => forall y, shaped x = true -> shaped y = true -> keyEqual x y = keyEqual y x) xs ->
  forallb shaped xs = true -> forallb shaped ys = true ->
  length xs = length ys ->
  allEqual keyEqual xs ys = allEqual keyEqual ys xs.
Proof.
  induction xs as [|x xs IH]; intros [|y ys] HF Hx Hy Hlen; try reflexivity; try discriminate.
  simpl in *. apply andb_prop in Hx as [Hx Hxs]. apply andb_prop in Hy as [Hy Hys].
  inversion HF as [|? ? Hxy HF']; subst.
  rewrite (Hxy y Hx Hy). destruct (keyEqual y x) as [[]| |]; simpl; try reflexivity.
  apply IH; auto.
Qed.

Lemma eachEqual_allEqual eq n bAt xs : forall i ys,
  (forall j y, nth_error ys j = Some y -> bAt (i + j)%nat = Ok y) ->
  (i + length xs = n)%nat -> length ys = length xs ->
  eachEqual eq n bAt xs i = allEqual eq xs ys.
Proof.
  induction xs as [|x xs IH]; intros i ys HB Hlen Hys; simpl in *.
  - assert (Nat.ltb i n = false) as -> by (apply Nat.ltb_ge; lia).
    destruct ys; reflexivity.
  - assert (Nat.ltb i n = true) as -> by (apply Nat.ltb_lt; lia).
    destruct ys as [|y ys]; [discriminate|].
    specialize (HB 0%nat y eq_refl) as HB0. rewrite Nat.add_0_r in HB0.
    rewrite HB0. simpl.
    destruct (eq x y) as [[]| |]; simpl; try reflexivity.
    apply IH; simpl in *; try lia.
    intros j z Hj. rewrite <- (HB (S j) z Hj). f_equal. lia.
Qed.

Lemma Value_Index_array t a xs j y :
  length xs = tLen t -> nth_error xs j = Some y ->
  Value_Index (Val t a (DArray xs)) j = Ok y.
Proof.
  intros Hl Hj. simpl.
  assert (j < length xs)%nat by (apply nth_error_Some; congruence).
  assert (Nat.ltb j (tLen t) = true) as -> by (apply Nat.ltb_lt; lia).
  rewrite Hj. reflexivity.
Qed.

Lemma Value_Field_struct t a xs j y :
  length xs = length (tFields t) -> nth_error xs j = Some y ->
  Value_Field (Val t a (DStruct xs)) j = Ok y.
Proof.
  intros Hl Hj. simpl.
  assert (j < length xs)%nat by (apply nth_error_Some; congruence).
  assert (Nat.ltb j (length (tFields t)) = true) as -> by (apply Nat.ltb_lt; lia).
  rewrite Hj. reflexivity.
Qed.

(** C10.  [keyEqual] is symmetric: on shaped values, which include all
    values of the kinds legal as map keys and the zero Value,
    [keyEqual a b] and [keyEqual b a] are the same outcome. *)
Theorem keyEqual_symmetric a : forall b,
  shaped a = true -> shaped b = true -> keyEqual a b = keyEqual b a.
Proof.
  induction a as [|t aa d IH] using Value_parts_ind; intros b Ha Hb.
  - destruct b; reflexivity.
  - destruct b as [|bt ba bd]; [reflexivity|].
    simpl keyEqual.
    destruct (decide (t = bt)) as [->|Hne].
    2:{ rewrite !bool_decide_eq_false_2 by congruence. reflexivity. }
    rewrite !bool_decide_eq_true_2 by done. simpl negb. cbv iota.
    simpl in Ha, Hb.
    destruct (tKind bt) eqn:Hk; destruct d; try discriminate Ha;
      destruct bd; try discriminate Hb; simpl; try reflexivity.
    all: try (f_equal; first [apply eqb_comm | apply Z.eqb_sym | apply SFeqb_sym | apply N.eqb_sym | apply String.eqb_sym]).
    + rewrite (SFeqb_sym re), (SFeqb_sym im). reflexivity.
    + rewrite (SFeqb_sym re), (SFeqb_sym im). reflexivity.
    + apply andb_prop in Ha as [Hla Ha]. apply andb_prop in Hb as [Hlb Hb].
      apply Nat.eqb_eq in Hla, Hlb. simpl in IH.
      rewrite (eachEqual_allEqual _ _ _ elems 0 elems0), (eachEqual_allEqual _ _ _ elems0 0 elems);
        try lia; try (intros j y Hj; apply Value_Index_array; assumption).
      apply allEqual_sym; auto. lia.
    + simpl in IH. inversion IH; subst. auto.
    + apply andb_prop in Ha as [Hla Ha]. apply andb_prop in Hb as [Hlb Hb].
      apply Nat.eqb_eq in Hla, Hlb. simpl in IH.
      rewrite (eachEqual_allEqual _ _ _ fields 0 fields0), (eachEqual_allEqual _ _ _ fields0 0 fields);
        try lia; try (intros j y Hj; apply Value_Field_struct; assumption).
      apply allEqual_sym; auto. lia.
Qed.

Lemma keyEqual_symmetric_witness :
  keyEqual (vInt 1) (vInt 2) = keyEqual (vInt 2) (vInt 1).
Proof. apply keyEqual_symmetric; reflexivity. Defined.

(** ** The monad, loops and labels *)

Lemma bind_Ok {A B} (c : result A) (k : A -> result B) r :
  (x ← c; k x) = Ok r -> exists x, c = Ok x /\ k x = Ok r.
Proof. destruct c; simpl; intros H; try discriminate. eauto. Qed.

Lemma relabel_bracket d n :
  relabel d (String "[" n) = Ok (mkPrinter (l d +:+ String "[" n)).
Proof.
  unfold relabel. destruct (String.eqb (l d) ""); reflexivity.
Qed.

Lemma relabel_field d name :
  nonEmpty name = true -> relabel d name = Ok (fieldLabel d name).
Proof.
  unfold relabel, fieldLabel, nonEmpty. intros H.
  destruct (String.eqb (l d) "") eqn:Hl.
  - apply String.eqb_eq in Hl. rewrite Hl. reflexivity.
  - destruct name as [|c name]; [discriminate|].
    destruct (Ascii.eqb c "[") eqn:Hc.
    + apply Ascii.eqb_eq in Hc. subst c. reflexivity.
    + simpl. f_equal. f_equal.
      destruct c as [[] [] [] [] [] [] [] []]; try reflexivity. discriminate.
Qed.

Lemma Sprintf_index F i :
  Sprintf F "[%d]" [OLen i] = String "[" (decimal (Z.of_nat i) +:+ "]").
Proof. reflexivity. Qed.

Lemma Sprintf_key F k :
  Sprintf F "[%#v]" [OValue k] = String "[" (fmt_operand F "#" "v" (OValue k) +:+ "]").
Proof. reflexivity. Qed.

Lemma foldM_ext {A} (f g : A -> Store -> result Store) xs :
  (forall x s, In x xs -> f x s = g x s) -> forall s, foldM f xs s = foldM g xs s.
Proof.
  induction xs as [|x xs IH]; intros H s; [reflexivity|].
  simpl. rewrite (H x s) by (left; reflexivity).
  destruct (g x s); simpl; try reflexivity. apply IH. intros; apply H; right; assumption.
Qed.

Lemma foldM_seq_zip3 {A} (body : nat -> Store -> result Store)
    (body' : A * Value * Value -> Store -> result Store) xs :
  forall (ns : list A) ys i, length ns = length xs -> length ys = length xs ->
  (forall j n x y s, nth_error ns j = Some n -> nth_error xs j = Some x ->
                   nth_error ys j = Some y ->
                   body (i + j)%nat s = body' (n, x, y) s) ->
  forall s, foldM body (seq i (length xs)) s
            = foldM body' (zip (zip ns xs) ys) s.
Proof.
  induction xs as [|x xs IH]; intros ns ys i Hn Hlen H s.
  - destruct ns; [reflexivity|discriminate].
  - destruct ys as [|y ys]; [discriminate|]. destruct ns as [|n ns]; [discriminate|]. simpl.
    specialize (H 0%nat n x y s eq_refl eq_refl eq_refl) as H0. rewrite Nat.add_0_r in H0.
    rewrite H0. destruct (body' (n, x, y) s); simpl; try reflexivity.
    apply IH; [simpl in Hn; lia|simpl in Hlen; lia|].
    intros j n' x' y' s' Hn' Hx Hy. specialize (H (S j) n' x' y' s' Hn' Hx Hy).
    replace (S i + j)%nat with (i + S j)%nat by lia. exact H.
Qed.

Lemma nth_error_seq_Some i n j k :
  nth_error (seq i n) j = Some k -> k = (i + j)%nat.
Proof.
  revert i j. induction n as [|n IH]; intros i [|j]; simpl; intros H; try discriminate.
  - inversion H. lia.
  - apply IH in H. lia.
Qed.

Lemma foldM_seq_zip (body : nat -> Store -> result Store)
    (body' : nat * Value * Value -> Store -> result Store) xs ys :
  length ys = length xs ->
  (forall j x y s, nth_error xs j = Some x -> nth_error ys j = Some y ->
                 body j s = body' (j, x, y) s) ->
  forall s, foldM body (seq 0 (length xs)) s
            = foldM body' (zip (zip (seq 0 (length xs)) xs) ys) s.
Proof.
  intros Hlen H s. apply foldM_seq_zip3; [apply length_seq|assumption|].
  intros j n x y s' Hn Hx Hy. apply nth_error_seq_Some in Hn. subst n. simpl. auto.
Qed.

Lemma emitAll_nil s : emitAll [] s = s.
Proof. destruct s. unfold emitAll. simpl. rewrite app_nil_r. reflexivity. Qed.

Lemma emitAll_cons x xs s : emitAll (x :: xs) s = emitAll xs (emit x s).
Proof. destruct s. unfold emitAll, emit. simpl. rewrite <- app_assoc. reflexivity. Qed.

Lemma foldM_emit {A} (g : A -> string) xs : forall s,
  foldM (fun k s => Ok (emit (g k) s)) xs s = Ok (emitAll (map g xs) s).
Proof.
  induction xs as [|x xs IH]; intros s; simpl.
  - rewrite emitAll_nil. reflexivity.
  - rewrite IH, emitAll_cons. reflexivity.
Qed.

Section Kinds.
Variable F : Fmt.
Variable mem : gmap uintptr object.
Variable order : nat -> list Value -> list Value.
Variable rec : diffPrinter -> Value -> Value -> Store -> result Store.

Lemma diffKind_array d t aa ba xs ys s :
  tKind t = Array -> length xs = tLen t -> length ys = tLen t ->
  diffKind F mem order rec d t t (Val t aa (DArray xs)) (Val t ba (DArray ys)) s
  = foldM (fun '(i, x, y) s => rec (indexLabel d i) x y s)
          (zip (zip (seq 0 (length xs)) xs) ys) s.
Proof.
  intros Hk Hx Hy. unfold diffKind. rewrite Hk.
  cbn [Value_Len mbind result_bind]. unfold forRange. rewrite <- Hx.
  apply foldM_seq_zip; [congruence|].
  intros j x y s' Hjx Hjy. rewrite Sprintf_index, relabel_bracket.
  rewrite (Value_Index_array _ _ _ _ _ Hx Hjx), (Value_Index_array _ _ _ _ _ Hy Hjy).
  reflexivity.
Qed.

Lemma diffKind_slice_ne d t aa ba xs ys s :
  tKind t = Slice -> length xs <> length ys ->
  diffKind F mem order rec d t t (Val t aa (DSlice xs)) (Val t ba (DSlice ys)) s
  = Ok (printf F d "%s[%d] != %s[%d]"
          [OType t; OLen (length xs); OType t; OLen (length ys)] s).
Proof.
  intros Hk Hne. unfold diffKind. rewrite Hk. simpl.
  apply Nat.eqb_neq in Hne. rewrite Hne. reflexivity.
Qed.

Lemma diffKind_slice_eq d t aa ba xs ys s :
  tKind t = Slice -> length xs = length ys ->
  diffKind F mem order rec d t t (Val t aa (DSlice xs)) (Val t ba (DSlice ys)) s
  = foldM (fun '(i, x, y) s => rec (indexLabel d i) x y s)
          (zip (zip (seq 0 (length xs)) xs) ys) s.
Proof.
  intros Hk Heq. unfold diffKind. rewrite Hk. simpl.
  rewrite (proj2 (Nat.eqb_eq _ _) Heq). simpl. unfold forRange.
  apply foldM_seq_zip; [congruence|].
  intros j x y s' Hx Hy. simpl. rewrite Sprintf_index, relabel_bracket. simpl.
  rewrite Hx, Hy. reflexivity.
Qed.

Lemma diffKind_struct d t aa ba xs ys s :
  tKind t = Struct -> length xs = length (tFields t) ->
  length ys = length (tFields t) -> forallb nonEmpty (tFields t) = true ->
  diffKind F mem order rec d t t (Val t aa (DStruct xs)) (Val t ba (DStruct ys)) s
  = foldM (fun '(name, x, y) s => rec (fieldLabel d name) x y s)
          (zip (zip (tFields t) xs) ys) s.
Proof.
  intros Hk Hx Hy Hn. unfold diffKind. rewrite Hk.
  cbn [Value_NumField mbind result_bind]. unfold forRange. rewrite <- Hx.
  apply foldM_seq_zip3; [congruence|congruence|].
  intros j n x y s' Hjn Hjx Hjy. simpl plus. unfold Type_FieldName. rewrite Hjn.
  cbn [mbind result_bind]. rewrite relabel_field.
  2:{ rewrite forallb_forall in Hn. apply Hn. eapply nth_error_In; eauto. }
  rewrite (Value_Field_struct _ _ _ _ _ Hx Hjx), (Value_Field_struct _ _ _ _ _ Hy Hjy).
  reflexivity.
Qed.

Lemma diffKind_map d t aa ba ea eb s ak both bk :
  tKind t = Map ->
  keyDiff (order (iters s) (map fst ea)) (order (S (iters s)) (map fst eb))
  = Ok (ak, both, bk) ->
  diffKind F mem order rec d t t (Val t aa (DMap ea)) (Val t ba (DMap eb)) s
  = (s4 ← foldM (fun k s => rec (keyLabel F d k) (mapIndex ea k) (mapIndex eb k) s)
                both
                (emitAll
                   (map (fun k => line F (keyLabel F d k) "%q != (missing)"
                                       [OValue (mapIndex ea k)]) ak)
                   (afterMapKeys s));
     Ok (emitAll
           (map (fun k => line F (keyLabel F d k) "(missing) != %q"
                               [OValue (mapIndex eb k)]) bk)
           s4)).
Proof.
  intros Hk HD. unfold diffKind. rewrite Hk.
  cbn [Value_MapKeys mbind result_bind iters out aVisited bVisited]. rewrite HD.
  cbn [mbind result_bind].
  rewrite (foldM_ext _ (fun k s => Ok (emit (line F (keyLabel F d k) "%q != (missing)" [OValue (mapIndex ea k)]) s))).
  2:{ intros k s' _. rewrite Sprintf_key, relabel_bracket. reflexivity. }
  rewrite foldM_emit. cbn [mbind result_bind].
  rewrite (foldM_ext _ (fun k s => rec (keyLabel F d k) (mapIndex ea k) (mapIndex eb k) s)).
  2:{ intros k s' _. rewrite Sprintf_key, relabel_bracket. reflexivity. }
  fold (afterMapKeys s).
  destruct (foldM _ both _) as [s4| |]; cbn [mbind result_bind]; try reflexivity.
  rewrite (foldM_ext _ (fun k s => Ok (emit (line F (keyLabel F d k) "(missing) != %q" [OValue (mapIndex eb k)]) s))).
  2:{ intros k s' _. rewrite Sprintf_key, relabel_bracket. reflexivity. }
  rewrite foldM_emit. reflexivity.
Qed.

Lemma diffKind_ptr d t aa ba pa pb s :
  tKind t = Ptr ->
  diffKind F mem order rec d t t (Val t aa (DPointer pa)) (Val t ba (DPointer pb)) s
  = if N.eqb pa 0 then
      if N.eqb pb 0 then Ok s
      else Ok (printf F d "nil != %# v" [OFormatter (Val t ba (DPointer pb))] s)
    else if N.eqb pb 0 then
      Ok (printf F d "%# v != nil" [OFormatter (Val t aa (DPointer pa))] s)
    else
      match mem !! pa, mem !! pb with
      | Some (ta, da), Some (tb, db) =>
          rec d (Val ta (Some pa) da) (Val tb (Some pb) db) s
      | _, _ => Panic RuntimePanic
      end.
Proof.
  intros Hk. unfold diffKind. rewrite Hk. simpl.
  destruct (N.eqb pa 0), (N.eqb pb 0); simpl; try reflexivity.
  destruct (mem !! pa) as [[ta da]|]; simpl; [|reflexivity].
  destruct (mem !! pb) as [[tb db]|]; simpl; reflexivity.
Qed.

Lemma diffKind_iface d t aa ba ea eb s :
  tKind t = Interface ->
  diffKind F mem order rec d t t (Val t aa (DIface ea)) (Val t ba (DIface eb)) s
  = rec d ea eb s.
Proof. intros Hk. unfold diffKind. rewrite Hk. reflexivity. Qed.

End Kinds.

(** ** Store invariants kept by [diff] *)

Ltac inv_bind H :=
  let x := fresh "x" in let Hx := fresh "Hx" in
  apply bind_Ok in H as (x & Hx & H).

Lemma foldM_invariant {A} (Inv : Store -> Prop) (body : A -> Store -> result Store) xs :
  (forall x s s', In x xs -> Inv s -> body x s = Ok s' -> Inv s') ->
  forall s s', Inv s -> foldM body xs s = Ok s' -> Inv s'.
Proof.
  induction xs as [|x xs IH]; simpl; intros Hb s s' Hs H.
  - congruence.
  - inv_bind H. eapply IH; [|eapply Hb; eauto|exact H]. intros; eapply Hb; eauto.
Qed.

Section Invariant.
Variable F : Fmt.
Variable mem : gmap uintptr object.
Variable order : nat -> list Value -> list Value.
Variable Inv : Store -> Prop.
Hypothesis Inv_emit : forall x s, Inv s -> Inv (emit x s).
Hypothesis Inv_record : forall a b s, Inv s -> Inv (record a b s).
Hypothesis Inv_iters : forall s n, Inv s -> Inv (mkStore (out s) (aVisited s) (bVisited s) n).

Lemma cycleCheck_invariant d av bv s s1 c :
  Inv s -> cycleCheck F d av bv s = (s1, c) -> Inv s1.
Proof.
  intros Hs H. unfold cycleCheck in H.
  destruct av as [|at_ [pa|] ad]; try (inversion H; subst; assumption).
  destruct bv as [|bt [pb|] bd]; try (inversion H; subst; assumption).
  destruct (aVisited s !! (pa, at_)) as [vis|].
  - destruct (negb (bool_decide (vis = (pb, bt)))); inversion H; subst;
      unfold printf; auto using Inv_record, Inv_emit.
  - destruct (bVisited s !! (pb, bt)); inversion H; subst; unfold printf; auto using Inv_record, Inv_emit.
Qed.

Lemma diffKind_invariant rec d at_ bt av bv s s' :
  (forall d x y s s', Inv s -> rec d x y s = Ok s' -> Inv s') ->
  Inv s -> diffKind F mem order rec d at_ bt av bv s = Ok s' -> Inv s'.
Proof.
  intros Hrec Hs H. unfold diffKind in H.
  destruct (tKind at_).
  all: try (inv_bind H; inv_bind H; inversion H; subst;
            match goal with |- Inv (if ?c then _ else _) => destruct c end;
            unfold printf; auto using Inv_emit; fail).
  all: try discriminate.
  - (* Array *)
    inv_bind H. unfold forRange in H.
    eapply foldM_invariant; [|exact Hs|exact H].
    intros i s0 s0' _ Hs0 Hb. repeat inv_bind Hb. eauto.
  - (* Interface *)
    repeat inv_bind H. eauto.
  - (* Map *)
    inv_bind H. destruct x as [ka s1]. inv_bind H. destruct x as [kb s2].
    inv_bind H. destruct x as [[ak both] bk]. inv_bind H. inv_bind H.
    assert (Inv s1).
    { destruct av as [|? ? []]; simpl in Hx; try discriminate. inversion Hx; subst. auto. }
    assert (Inv s2).
    { destruct bv as [|? ? []]; simpl in Hx0; try discriminate. inversion Hx0; subst. auto. }
    assert (Inv x).
    { eapply foldM_invariant; [| |exact Hx2]; [|assumption].
      intros k s0 s0' _ Hs0 Hb. repeat inv_bind Hb. inversion Hb; subst. unfold printf. auto. }
    assert (Inv x0).
    { eapply foldM_invariant; [| |exact Hx3]; [|assumption].
      intros k s0 s0' _ Hs0 Hb. repeat inv_bind Hb. eauto. }
    eapply foldM_invariant; [| |exact H]; [|assumption].
    intros k s0 s0' _ Hs0 Hb. repeat inv_bind Hb. inversion Hb; subst. unfold printf. auto.
  - (* Ptr *)
    inv_bind H. inv_bind H.
    destruct (x && negb x0); [inversion H; subst; unfold printf; auto|].
    destruct (negb x && x0); [inversion H; subst; unfold printf; auto|].
    destruct (negb x && negb x0); [|inversion H; subst; auto].
    repeat inv_bind H. eauto.
  - (* Slice *)
    inv_bind H. inv_bind H.
    destruct (negb (Nat.eqb x x0)); [inversion H; subst; unfold printf; auto|].
    eapply foldM_invariant; [|exact Hs|exact H].
    intros i s0 s0' _ Hs0 Hb. repeat inv_bind Hb. eauto.
  - (* Struct *)
    inv_bind H. unfold forRange in H.
    eapply foldM_invariant; [|exact Hs|exact H].
    intros i s0 s0' _ Hs0 Hb. repeat inv_bind Hb. eauto.
Qed.

Lemma diff_invariant fuel : forall d av bv s s',
  Inv s -> diff F mem order fuel d av bv s = Ok s' -> Inv s'.
Proof.
  induction fuel as [|fuel IH]; intros d av bv s s' Hs H; [discriminate|].
  cbn [diff] in H.
  destruct av as [|at_ aa ad], bv as [|bt ba bd];
    try (inversion H; subst; unfold printf; auto; fail).
  destruct (negb (bool_decide (at_ = bt))); [inversion H; subst; unfold printf; auto|].
  destruct (cycleCheck F d (Val at_ aa ad) (Val bt ba bd) s) as [s1 c] eqn:Hc.
  apply cycleCheck_invariant in Hc; [|assumption].
  destruct c; [inversion H; subst; assumption|].
  eapply diffKind_invariant; [|exact Hc|exact H]. exact IH.
Qed.
End Invariant.

(** ** Termination of [diff] on supported values *)

Lemma grows_refl s : grows s s.
Proof. unfold grows. set_solver. Qed.

Lemma grows_trans s1 s2 s3 : grows s1 s2 -> grows s2 s3 -> grows s1 s3.
Proof. unfold grows. set_solver. Qed.

Lemma grows_emit x s : grows s (emit x s).
Proof. unfold grows. simpl. set_solver. Qed.

Lemma grows_record a b s : grows s (record a b s).
Proof. unfold grows, record. simpl. rewrite dom_insert. set_solver. Qed.

Lemma grows_iters s n : grows s (mkStore (out s) (aVisited s) (bVisited s) n).
Proof. unfold grows. simpl. set_solver. Qed.

Section Measure.
Variable mem : gmap uintptr object.

Lemma unvisited_mono s s' : grows s s' -> (unvisited mem s' <= unvisited mem s)%nat.
Proof.
  intros H. unfold unvisited. apply subseteq_size. unfold grows in H. set_solver.
Qed.

Lemma heapIdents_elem p t d : mem !! p = Some (t, d) -> (p, t) ∈ heapIdents mem.
Proof.
  intros H. unfold heapIdents. apply elem_of_list_to_set.
  apply list_elem_of_fmap. exists (p, (t, d)). split; [reflexivity|].
  apply elem_of_map_to_list. exact H.
Qed.

Lemma unvisited_record p t d b s :
  mem !! p = Some (t, d) -> aVisited s !! (p, t) = None ->
  (unvisited mem (record (p, t) b s) < unvisited mem s)%nat.
Proof.
  intros Hm Hn. unfold unvisited. apply subset_size.
  apply heapIdents_elem in Hm.
  assert ((p, t) ∉ dom (aVisited s)) by (by apply not_elem_of_dom).
  unfold record. simpl. rewrite dom_insert. set_solver.
Qed.
End Measure.

Lemma foldM_terminates {A} (body : nat -> A -> Store -> result Store)
    (P : Store -> Prop) xs :
  (forall s s', P s -> grows s s' -> P s') ->
  (forall x, In x xs -> forall s, P s ->
     exists f0 s', (forall f, (f0 <= f)%nat -> body f x s = Ok s') /\ grows s s') ->
  forall s, P s ->
    exists f0 s', (forall f, (f0 <= f)%nat -> foldM (body f) xs s = Ok s') /\ grows s s'.
Proof.
  intros HP. induction xs as [|x xs IH]; intros Hb s Hs.
  - exists 0%nat, s. split; [reflexivity|apply grows_refl].
  - destruct (Hb x (or_introl eq_refl) s Hs) as (f1 & s1 & H1 & G1).
    destruct (IH (fun y Hy => Hb y (or_intror Hy)) s1 (HP _ _ Hs G1)) as (f2 & s2 & H2 & G2).
    exists (Nat.max f1 f2), s2. split; [|eapply grows_trans; eauto].
    intros f Hf. simpl. rewrite H1 by lia. simpl. apply H2. lia.
Qed.

Lemma allEqual_total xs : forall ys,
  Forall (fun x => forall y, comparable x = true -> comparable y = true ->
                             exists r, keyEqual x y = Ok r) xs ->
  forallb comparable xs = true -> forallb comparable ys = true ->
  exists r, allEqual keyEqual xs ys = Ok r.
Proof.
  induction xs as [|x xs IH]; intros [|y ys] HF Hx Hy; simpl; eauto.
  simpl in Hx, Hy. apply andb_prop in Hy as [Hy Hys]. apply andb_prop in Hx as [Hx Hxs].
  inversion HF as [|? ? Hxy HF']; subst.
  destruct (Hxy y Hx Hy) as [[] ->]; simpl; eauto.
Qed.

Lemma keyEqual_total a : forall b,
  comparable a = true -> comparable b = true -> exists r, keyEqual a b = Ok r.
Proof.
  induction a as [|t aa d IH] using Value_parts_ind; intros b Ha Hb.
  - destruct b; simpl; eauto.
  - destruct b as [|bt ba bd]; [simpl; eauto|].
    simpl keyEqual.
    destruct (decide (t = bt)) as [->|Hne].
    2:{ rewrite !bool_decide_eq_false_2 by congruence. simpl. eauto. }
    rewrite !bool_decide_eq_true_2 by done. simpl negb. cbv iota.
    simpl in Ha, Hb.
    destruct (tKind bt) eqn:Hk; destruct d; try discriminate Ha;
      destruct bd; try discriminate Hb; simpl; eauto.
    + apply andb_prop in Ha as [Hla Ha]. apply andb_prop in Hb as [Hlb Hb].
      apply Nat.eqb_eq in Hla, Hlb. simpl in IH.
      rewrite (eachEqual_allEqual _ _ _ elems 0 elems0);
        try lia; try (intros j y Hj; apply Value_Index_array; assumption).
      apply allEqual_total; auto.
    + simpl in IH. inversion IH; subst. auto.
    + apply andb_prop in Ha as [Hla Ha]. apply andb_prop in Hb as [Hlb Hb].
      apply Nat.eqb_eq in Hla, Hlb. simpl in IH.
      rewrite (eachEqual_allEqual _ _ _ fields 0 fields0);
        try lia; try (intros j y Hj; apply Value_Field_struct; assumption).
      apply allEqual_total; auto.
Qed.

Lemma inBoth_total eq xs :
  (forall x, In x xs -> exists r, eq x = Ok r) -> exists r, inBoth eq xs = Ok r.
Proof.
  induction xs as [|x xs IH]; intros H; simpl; eauto.
  destruct (H x (or_introl eq_refl)) as [[] ->]; simpl; eauto.
  apply IH. intros; apply H; right; assumption.
Qed.

Lemma keyDiff_total ka kb :
  Forall (fun k => comparable k = true) ka ->
  Forall (fun k => comparable k = true) kb ->
  exists ak both bk, keyDiff ka kb = Ok (ak, both, bk).
Proof.
  intros Ha Hb. unfold keyDiff.
  assert (HL : exists ak both, keyDiffLeft ka kb = Ok (ak, both)).
  { clear -Ha Hb. induction ka as [|a ka IH]; simpl; eauto.
    inversion Ha; subst.
    destruct (inBoth_total (fun bv => keyEqual a bv) kb) as [r ->].
    { intros x Hx. apply keyEqual_total; auto.
      rewrite List.Forall_forall in Hb. auto. }
    destruct IH as (ak & both & ->); auto. simpl. destruct r; eauto. }
  assert (HR : exists bk, keyDiffRight ka kb = Ok bk).
  { clear -Ha Hb. induction kb as [|b kb IH]; simpl; eauto.
    inversion Hb; subst.
    destruct (inBoth_total (fun av => keyEqual av b) ka) as [r ->].
    { intros x Hx. apply keyEqual_total; auto.
      rewrite List.Forall_forall in Ha. auto. }
    destruct IH as (bk & ->); auto. simpl. destruct r; eauto. }
  destruct HL as (ak & both & ->). destruct HR as (bk & ->). simpl. eauto.
Qed.

Lemma vsize_elem x xs : In x xs -> (vsize x <= list_sum (map vsize xs))%nat.
Proof.
  induction xs as [|y xs IH]; simpl; intros []; subst; [lia|].
  specialize (IH H). lia.
Qed.

Lemma mapIndex_size ea k :
  (vsize (mapIndex ea k) <= list_sum (map (fun e => vsize (fst e) + vsize (snd e)) ea))%nat.
Proof.
  unfold mapIndex. induction ea as [|e ea IH]; simpl; [lia|].
  destruct (sameKey (fst e) k); simpl; lia.
Qed.

Lemma mapIndex_wf mem ea k :
  forallb (fun e => comparable (fst e) && wf mem (snd e)) ea = true ->
  wf mem (mapIndex ea k) = true.
Proof.
  unfold mapIndex. induction ea as [|e ea IH]; simpl; intros H; [reflexivity|].
  apply andb_prop in H as [He H]. apply andb_prop in He as [_ He].
  destruct (sameKey (fst e) k); simpl; auto.
Qed.

Lemma map_keys_comparable mem ea :
  forallb (fun e => comparable (fst e) && wf mem (snd e)) ea = true ->
  Forall (fun k => comparable k = true) (map fst ea).
Proof.
  induction ea as [|e ea IH]; simpl; intros H; constructor.
  - apply andb_prop in H as [He _]. apply andb_prop in He as [He _]. exact He.
  - apply IH. apply andb_prop in H as [_ H]. exact H.
Qed.

Lemma relabel_named d name :
  nonEmpty name = true -> exists d1, relabel d name = Ok d1.
Proof.
  unfold relabel, nonEmpty. intros H.
  destruct (String.eqb (l d) ""); eauto.
  destruct name as [|c name]; [discriminate|].
  destruct (negb (Ascii.eqb c "[")); eauto.
Qed.

Section Termination.
Variable F : Fmt.
Variable mem : gmap uintptr object.
Variable order : nat -> list Value -> list Value.
Hypothesis Hheap : wfHeap mem.
Hypothesis Horder : forall n ks, Permutation (order n ks) ks.

Lemma halts_now r s s' : (forall f, r f = Ok s') -> grows s s' -> halts r s.
Proof. intros H G. exists 0%nat, s'. split; auto. Qed.

Lemma unvisited_closed n s s' :
  (unvisited mem s <= n)%nat -> grows s s' -> (unvisited mem s' <= n)%nat.
Proof. intros H G. pose proof (unvisited_mono mem _ _ G). lia. Qed.

Lemma cycleCheck_grows d av bv s s1 c :
  cycleCheck F d av bv s = (s1, c) -> grows s s1.
Proof.
  intros H. unfold cycleCheck in H.
  destruct av as [|at_ [pa|] ad]; try (inversion H; subst; apply grows_refl).
  destruct bv as [|bt [pb|] bd]; try (inversion H; subst; apply grows_refl).
  destruct (aVisited s !! (pa, at_)) as [vis|].
  - destruct (negb (bool_decide (vis = (pb, bt)))); inversion H; subst;
      unfold printf; eauto using grows_trans, grows_record, grows_emit.
  - destruct (bVisited s !! (pb, bt)); inversion H; subst; unfold printf;
      eauto using grows_trans, grows_record, grows_emit.
Qed.

Lemma halts_ext r r' s : (forall f, r f = r' f) -> halts r' s -> halts r s.
Proof.
  intros E (f0 & s' & H & G). exists f0, s'. split; [|assumption].
  intros f Hf. rewrite E. auto.
Qed.

Lemma unvisited_same s s' :
  aVisited s = aVisited s' -> unvisited mem s = unvisited mem s'.
Proof. unfold unvisited. intros ->. reflexivity. Qed.

Lemma grows_same s s' : aVisited s = aVisited s' -> grows s s'.
Proof. unfold grows. intros ->. set_solver. Qed.

Lemma cycleCheck_first d ta pa da tb pb db s s1 :
  cycleCheck F d (Val ta (Some pa) da) (Val tb (Some pb) db) s = (s1, false) ->
  aVisited s !! (pa, ta) = None /\ bVisited s !! (pb, tb) = None
  /\ s1 = record (pa, ta) (pb, tb) s.
Proof.
  unfold cycleCheck. destruct (aVisited s !! (pa, ta)); [intros H; inversion H|].
  destruct (bVisited s !! (pb, tb)); intros H; inversion H. auto.
Qed.

Lemma zip_loop_halts {A} (lab : A -> diffPrinter) (ns : list A) xs ys n s :
  (forall x y, In x xs -> In y ys -> forall d s, (unvisited mem s <= n)%nat ->
               halts (fun f => diff F mem order f d x y s) s) ->
  (unvisited mem s <= n)%nat ->
  halts (fun f => foldM (fun '(i, x, y) s => diff F mem order f (lab i) x y s)
                        (zip (zip ns xs) ys) s) s.
Proof.
  intros H Hs.
  apply (foldM_terminates
           (fun f '(i, x, y) s => diff F mem order f (lab i) x y s)
           (fun s => (unvisited mem s <= n)%nat)); [|
    |assumption].
  - intros; eapply unvisited_closed; eauto.
  - intros [[i x] y] Hin s0 Hs0. apply H; auto.
    + apply list_elem_of_In in Hin. apply elem_of_zip_l in Hin.
      apply elem_of_zip_r in Hin. apply list_elem_of_In. exact Hin.
    + apply list_elem_of_In in Hin. apply elem_of_zip_r in Hin.
      apply list_elem_of_In. exact Hin.
Qed.

Lemma diff_halts_aux : forall n m av, (vsize av <= m)%nat ->
  forall bv, wf mem av = true -> wf mem bv = true ->
  (forall d s, (unvisited mem s <= n)%nat ->
     halts (fun f => diff F mem order f d av bv s) s)
  /\ (forall t aa ad ba bd, av = Val t aa ad -> bv = Val t ba bd ->
      forall d s, (unvisited mem s <= n)%nat ->
        halts (fun f => diffKind F mem order (diff F mem order f) d t t av bv s) s).
Proof.
  induction n as [n IHn] using lt_wf_ind.
  induction m as [|m IHm]; intros av Hsz bv Hwa Hwb.
  - destruct av; simpl in Hsz; [|lia].
    split; [|discriminate].
    intros d s Hs. exists 1%nat. destruct bv; eexists; (split; [intros [|f] Hf; [lia|reflexivity]|]);
     unfold printf; auto using grows_refl, grows_emit.
  - destruct av as [|t aa ad].
    { split; [|discriminate].
      intros d s Hs. exists 1%nat. destruct bv; eexists; (split; [intros [|f] Hf; [lia|reflexivity]|]);
       unfold printf; auto using grows_refl, grows_emit. }
    assert (KIND : forall ba bd, wf mem (Val t ba bd) = true ->
      forall d s, (unvisited mem s <= n)%nat ->
        halts (fun f => diffKind F mem order (diff F mem order f) d t t (Val t aa ad) (Val t ba bd) s) s).
    { intros ba bd Hwb' d s Hs. pose proof Hwa as Hwa'. simpl in Hwa', Hwb'.
      destruct (tKind t) eqn:Hk; destruct ad; try discriminate Hwa';
        destruct bd; try discriminate Hwb'.
      all: try (unfold diffKind; rewrite Hk; simpl; exists 0%nat; eexists;
                split; [intros; reflexivity|];
                match goal with |- grows _ (if ?c then _ else _) => destruct c end;
                unfold printf; auto using grows_refl, grows_emit; fail).
      - (* Array *)
        apply andb_prop in Hwa' as [Hla Hxs]. apply andb_prop in Hwb' as [Hlb Hys].
        apply Nat.eqb_eq in Hla, Hlb.
        eapply halts_ext; [intros f; apply diffKind_array; assumption|].
        apply (zip_loop_halts _ _ _ _ n); [|assumption].
        intros x y Hx Hy. rewrite forallb_forall in Hxs, Hys.
        refine (proj1 (IHm x _ y _ _)); auto.
        pose proof (vsize_elem x elems Hx). simpl in Hsz. lia.
      - (* Interface *)
        apply (halts_ext _ (fun f => diff F mem order f d e e0 s)); [intros f; apply diffKind_iface; assumption|].
        refine (proj1 (IHm e _ e0 _ _) d s Hs); auto. simpl in Hsz. lia.
      - (* Map *)
        destruct (keyDiff_total (order (iters s) (map fst entries))
                    (order (S (iters s)) (map fst entries0))) as (ak & both & bk & HD).
        { eapply Permutation_Forall; [symmetry; apply Horder|].
          eapply map_keys_comparable; eauto. }
        { eapply Permutation_Forall; [symmetry; apply Horder|].
          eapply map_keys_comparable; eauto. }
        eapply halts_ext; [intros f; eapply diffKind_map; eassumption|].
        destruct (foldM_terminates
                    (fun f k s => diff F mem order f (keyLabel F d k)
                                       (mapIndex entries k) (mapIndex entries0 k) s)
                    (fun s => (unvisited mem s <= n)%nat) both) with
          (s := emitAll (map (fun k => line F (keyLabel F d k) "%q != (missing)"
                                          [OValue (mapIndex entries k)]) ak)
                        (afterMapKeys s))
          as (f0 & s4 & Hrun & G).
        + intros; eapply unvisited_closed; eauto.
        + intros k _ s0 Hs0.
          refine (proj1 (IHm (mapIndex entries k) _ (mapIndex entries0 k) _ _) _ _ Hs0); eauto using mapIndex_wf.
          pose proof (mapIndex_size entries k). simpl in Hsz. lia.
        + rewrite (unvisited_same _ s) by reflexivity. assumption.
        + exists f0. eexists. split.
          * intros f Hf. rewrite Hrun by assumption. reflexivity.
          * eapply grows_trans; [|eapply grows_trans; [exact G|]];
              apply grows_same; reflexivity.
      - (* Ptr *)
        eapply halts_ext; [intros f; apply diffKind_ptr; assumption|].
        destruct (N.eqb p 0) eqn:Hpa, (N.eqb p0 0) eqn:Hpb; simpl in Hwa', Hwb'.
        1-3: exists 0%nat; eexists; (split; [reflexivity|]);
             unfold printf; auto using grows_refl, grows_emit.
        apply bool_decide_eq_true_1 in Hwa' as [[ta da] Hma].
        apply bool_decide_eq_true_1 in Hwb' as [[tb db] Hmb].
        apply (halts_ext _ (fun f => diff F mem order f d (Val ta (Some p) da) (Val tb (Some p0) db) s));
          [intros f; cbv beta; rewrite Hma, Hmb; reflexivity|].
        destruct (decide (ta = tb)) as [<-|Hne].
        2:{ exists 1%nat. eexists; split.
            - intros [|f] Hf; [lia|]. cbn [diff]. rewrite bool_decide_eq_false_2 by done. reflexivity.
            - unfold printf; auto using grows_emit. }
        destruct (cycleCheck F d (Val ta (Some p) da) (Val ta (Some p0) db) s) as [s1 c] eqn:Hc.
        pose proof (cycleCheck_grows _ _ _ _ _ _ Hc) as G1.
        destruct c.
        { exists 1%nat, s1. split; [|assumption].
          intros [|f] Hf; [lia|]. cbn [diff]. rewrite bool_decide_eq_true_2 by done. cbn [negb].
          rewrite Hc. reflexivity. }
        destruct (cycleCheck_first _ _ _ _ _ _ _ _ _ Hc) as (Hna & _ & ->).
        pose proof (unvisited_record mem p ta da (p0, ta) s Hma Hna) as Hlt.
        destruct (proj2 (IHn (unvisited mem (record (p, ta) (p0, ta) s)) ltac:(lia)
                       (vsize (Val ta (Some p) da)) (Val ta (Some p) da) (le_n _)
                       (Val ta (Some p0) db) (Hheap _ _ _ Hma) (Hheap _ _ _ Hmb))
                    ta (Some p) da (Some p0) db eq_refl eq_refl d
                    (record (p, ta) (p0, ta) s) (le_n _))
          as (f0 & s' & Hrun & G2).
        exists (S f0), s'. split; [|eapply grows_trans; eauto].
        intros [|f] Hf; [lia|]. cbn [diff]. rewrite bool_decide_eq_true_2 by done. cbn [negb].
        rewrite Hc. apply Hrun. lia.
      - (* Slice *)
        destruct (decide (length elems = length elems0)) as [Heq|Hne].
        2:{ eapply halts_ext; [intros f; apply diffKind_slice_ne; assumption|].
            exists 0%nat; eexists; (split; [reflexivity|]); unfold printf; auto using grows_emit. }
        eapply halts_ext; [intros f; apply diffKind_slice_eq; assumption|].
        apply (zip_loop_halts _ _ _ _ n); [|assumption].
        intros x y Hx Hy. rewrite forallb_forall in Hwa', Hwb'.
        refine (proj1 (IHm x _ y _ _)); auto.
        pose proof (vsize_elem x elems Hx). simpl in Hsz. lia.
      - (* Struct *)
        apply andb_prop in Hwa' as [Hla Hxs]. apply andb_prop in Hwb' as [Hlb Hys].
        apply andb_prop in Hla as [Hla Hna]. apply andb_prop in Hlb as [Hlb _].
        apply Nat.eqb_eq in Hla, Hlb.
        eapply halts_ext; [intros f; apply diffKind_struct; assumption|].
        apply (zip_loop_halts _ _ _ _ n); [|assumption].
        intros x y Hx Hy. rewrite forallb_forall in Hxs, Hys.
        refine (proj1 (IHm x _ y _ _)); auto.
        pose proof (vsize_elem x fields Hx). simpl in Hsz. lia.
    }
    split.
    + intros d s Hs. destruct bv as [|bt ba bd].
      { exists 1%nat. eexists; (split; [intros [|f] Hf; [lia|reflexivity]|]);
         unfold printf; auto using grows_refl, grows_emit. }
      destruct (decide (t = bt)) as [<-|Hne].
      2:{ exists 1%nat. eexists; split.
          - intros [|f] Hf; [lia|]. cbn [diff]. rewrite bool_decide_eq_false_2 by done. reflexivity.
          - unfold printf; auto using grows_emit. }
      destruct (cycleCheck F d (Val t aa ad) (Val t ba bd) s) as [s1 c] eqn:Hc.
      pose proof (cycleCheck_grows _ _ _ _ _ _ Hc) as G1.
      destruct c.
      { exists 1%nat, s1. split; [|assumption].
        intros [|f] Hf; [lia|]. cbn [diff]. rewrite bool_decide_eq_true_2 by done. cbn [negb].
        rewrite Hc. reflexivity. }
      destruct (KIND ba bd Hwb d s1) as (f0 & s' & Hrun & G2).
      { eapply unvisited_closed; eauto. }
      exists (S f0), s'. split; [|eapply grows_trans; eauto].
      intros [|f] Hf; [lia|]. cbn [diff]. rewrite bool_decide_eq_true_2 by done. cbn [negb].
      rewrite Hc. apply Hrun. lia.
    + intros t' aa' ad' ba bd Ha Hb d s Hs. inversion Ha; subst. apply KIND; auto.
Qed.
End Termination.

(** ** More fuel does not change an outcome *)

Lemma foldM_mono {A} (b1 b2 : A -> Store -> result Store) xs :
  (forall x s r, b1 x s = r -> r <> OutOfFuel -> b2 x s = r) ->
  forall s r, foldM b1 xs s = r -> r <> OutOfFuel -> foldM b2 xs s = r.
Proof.
  intros Hb. induction xs as [|x xs IH]; intros s r H Hr; [exact H|].
  simpl in *. destruct (b1 x s) as [s1|p|] eqn:E; simpl in H.
  - rewrite (Hb x s (Ok s1) E) by discriminate. simpl. auto.
  - rewrite (Hb x s (Panic p) E) by discriminate. exact H.
  - congruence.
Qed.

Ltac step_bind :=
  match goal with
  | |- context [mbind _ ?c] =>
      match c with
      | foldM _ _ _ => fail 1
      | _ => destruct c as [?|?|] eqn:?; cbn [mbind result_bind]; try (intros; assumption)
      end
  end.

Section Mono.
Variable F : Fmt.
Variable mem : gmap uintptr object.
Variable order : nat -> list Value -> list Value.

Lemma diffKind_mono rec1 rec2 d at_ bt av bv s r :
  refines rec1 rec2 ->
  diffKind F mem order rec1 d at_ bt av bv s = r -> r <> OutOfFuel ->
  diffKind F mem order rec2 d at_ bt av bv s = r.
Proof.
  intros Hrec. unfold diffKind. destruct (tKind at_); try (intros; assumption).
  - (* Array *)
    destruct (Value_Len av); cbn [mbind result_bind]; try (intros; assumption).
    unfold forRange. apply foldM_mono. intros i s0 r0.
    repeat step_bind. apply Hrec.
  - (* Interface *)
    repeat step_bind. apply Hrec.
  - (* Map *)
    destruct (Value_MapKeys order av s) as [[ka s1]| |]; cbn [mbind result_bind]; try (intros; assumption).
    destruct (Value_MapKeys order bv s1) as [[kb s2]| |]; cbn [mbind result_bind]; try (intros; assumption).
    destruct (keyDiff ka kb) as [[[ak both] bk]| |]; cbn [mbind result_bind]; try (intros; assumption).
    destruct (foldM _ ak s2) as [s3| |]; cbn [mbind result_bind]; try (intros; assumption).
    intros H Hr.
    destruct (foldM _ both s3) as [s4|p|] eqn:E; cbn [mbind result_bind] in H.
    + match goal with
      | E : foldM ?b1 both s3 = _ |- context [foldM ?b2 both s3] =>
          rewrite (foldM_mono b1 b2 both
                     ltac:(intros k s0 r0; cbv beta; repeat step_bind; apply Hrec)
                     s3 _ E ltac:(discriminate))
      end. exact H.
    + match goal with
      | E : foldM ?b1 both s3 = _ |- context [foldM ?b2 both s3] =>
          rewrite (foldM_mono b1 b2 both
                     ltac:(intros k s0 r0; cbv beta; repeat step_bind; apply Hrec)
                     s3 _ E ltac:(discriminate))
      end. exact H.
    + congruence.
  - (* Ptr *)
    repeat step_bind.
    destruct (_ && _); [intros; assumption|].
    destruct (_ && _); [intros; assumption|].
    destruct (_ && _); [|intros; assumption].
    repeat step_bind. apply Hrec.
  - (* Slice *)
    repeat step_bind.
    destruct (negb _); [intros; assumption|].
    unfold forRange. apply foldM_mono. intros i s0 r0.
    repeat step_bind. apply Hrec.
  - (* Struct *)
    destruct (Value_NumField av); cbn [mbind result_bind]; try (intros; assumption).
    unfold forRange. apply foldM_mono. intros i s0 r0.
    repeat step_bind. apply Hrec.
Qed.

Lemma diff_fuel_S fuel : refines (diff F mem order fuel) (diff F mem order (S fuel)).
Proof.
  induction fuel as [|fuel IH]; intros d av bv s r H Hr.
  - simpl in H. congruence.
  - cbn [diff] in H. cbn [diff].
    destruct av as [|at_ aa ad], bv as [|bt ba bd]; try assumption.
    destruct (negb (bool_decide (at_ = bt))); [assumption|].
    destruct (cycleCheck F d (Val at_ aa ad) (Val bt ba bd) s) as [s1 c].
    destruct c; [assumption|].
    eapply diffKind_mono; [exact IH|exact H|exact Hr].
Qed.

Lemma diff_fuel_mono fuel fuel' d av bv s r :
  (fuel <= fuel')%nat -> diff F mem order fuel d av bv s = r -> r <> OutOfFuel ->
  diff F mem order fuel' d av bv s = r.
Proof.
  induction 1 as [|fuel' Hle IH]; intros H Hr; [assumption|].
  apply diff_fuel_S; auto.
Qed.
End Mono.

(** ** The partition computed by [keyDiff] *)

Lemma inBoth_existsb eq xs r :
  inBoth eq xs = Ok r ->
  r = existsb (fun x => match eq x with Ok true => true | _ => false end) xs.
Proof.
  induction xs as [|x xs IH]; simpl; intros H.
  - congruence.
  - destruct (eq x) as [[]| |]; simpl in *; try discriminate.
    + congruence.
    + auto.
Qed.

Lemma keyDiffLeft_filter a b ak both :
  keyDiffLeft a b = Ok (ak, both) ->
  ak = List.filter (fun k => negb (existsb (sameKey k) b)) a
  /\ both = List.filter (fun k => existsb (sameKey k) b) a.
Proof.
  revert ak both. induction a as [|av a IH]; simpl; intros ak both H.
  - inversion H. auto.
  - destruct (inBoth (fun bv => keyEqual av bv) b) as [r| |] eqn:Hr; simpl in H; try discriminate.
    destruct (keyDiffLeft a b) as [[ak' both']| |]; simpl in H; try discriminate.
    destruct (IH _ _ eq_refl) as [-> ->].
    apply inBoth_existsb in Hr.
    change (existsb (sameKey av) b) with
      (existsb (fun x => match keyEqual av x with Ok true => true | _ => false end) b).
    rewrite <- Hr.
    destruct r; inversion H; subst; simpl; auto.
Qed.

Lemma keyDiffRight_filter a b bk :
  keyDiffRight a b = Ok bk ->
  bk = List.filter (fun k => negb (existsb (fun x => sameKey x k) a)) b.
Proof.
  revert bk. induction b as [|bv b IH]; simpl; intros bk H.
  - inversion H. auto.
  - destruct (inBoth (fun av => keyEqual av bv) a) as [r| |] eqn:Hr; simpl in H; try discriminate.
    destruct (keyDiffRight a b) as [bk'| |]; simpl in H; try discriminate.
    specialize (IH _ eq_refl). subst bk'.
    apply inBoth_existsb in Hr.
    change (existsb (fun x => sameKey x bv) a) with
      (existsb (fun x => match keyEqual x bv with Ok true => true | _ => false end) a).
    rewrite <- Hr.
    destruct r; inversion H; subst; simpl; auto.
Qed.

Lemma keyDiff_partition ka kb ak both bk :
  keyDiff ka kb = Ok (ak, both, bk) ->
  ak = onlyLeft ka kb /\ both = bothLeft ka kb /\ bk = onlyRight ka kb.
Proof.
  unfold keyDiff. intros H.
  destruct (keyDiffLeft ka kb) as [[ak' both']| |] eqn:HL; simpl in H; try discriminate.
  destruct (keyDiffRight ka kb) as [bk'| |] eqn:HR; simpl in H; try discriminate.
  inversion H; subst.
  apply keyDiffLeft_filter in HL as [-> ->]. apply keyDiffRight_filter in HR as ->.
  auto.
Qed.


(** ** Slices and maps *)

Section SliceMap.
Variable F : Fmt.
Variable mem : gmap uintptr object.
Variable order : nat -> list Value -> list Value.



End SliceMap.





(** ** Comparing a value with itself *)

Lemma SFeqb_refl f : isNaN f = false -> SFeqb f f = true.
Proof.
  unfold SFeqb, SFcompare. destruct f as [s|s| |s m e]; simpl; intros H; try discriminate.
  - reflexivity.
  - destruct s; reflexivity.
  - rewrite Z.compare_refl.
    change (PosDef.Pos.compare_cont Eq m m) with (Pos.compare m m).
    rewrite Pos.compare_refl. destruct s; reflexivity.
Qed.

Lemma allEqual_refl xs :
  Forall (fun x => comparable x = true -> clean x = true -> keyEqual x x = Ok true) xs ->
  forallb comparable xs = true -> forallb clean xs = true ->
  allEqual keyEqual xs xs = Ok true.
Proof.
  induction xs as [|x xs IH]; intros HF Hc Hn; [reflexivity|].
  simpl in *. apply andb_prop in Hc as [Hc Hcs]. apply andb_prop in Hn as [Hn Hns].
  inversion HF as [|? ? Hx HF']; subst.
  rewrite (Hx Hc Hn). simpl. auto.
Qed.

Lemma keyEqual_refl k :
  comparable k = true -> clean k = true -> keyEqual k k = Ok true.
Proof.
  induction k as [|t aa d IH] using Value_parts_ind; intros Hc Hn; [reflexivity|].
  simpl keyEqual. rewrite bool_decide_eq_true_2 by done. simpl negb. cbv iota.
  simpl in Hc, Hn.
  destruct (tKind t) eqn:Hk; destruct d; try discriminate Hc; simpl.
  all: try (f_equal; first [apply Bool.eqb_reflx | apply Z.eqb_refl | apply N.eqb_refl
                           | apply String.eqb_refl ]; fail).
  - f_equal. apply SFeqb_refl. destruct (isNaN f); [discriminate|reflexivity].
  - f_equal. apply SFeqb_refl. destruct (isNaN f); [discriminate|reflexivity].
  - apply andb_prop in Hn as [H1 H2]. f_equal.
    rewrite !SFeqb_refl; [reflexivity| |].
    + destruct (isNaN im); [discriminate|reflexivity].
    + destruct (isNaN re); [discriminate|reflexivity].
  - apply andb_prop in Hn as [H1 H2]. f_equal.
    rewrite !SFeqb_refl; [reflexivity| |].
    + destruct (isNaN im); [discriminate|reflexivity].
    + destruct (isNaN re); [discriminate|reflexivity].
  - apply andb_prop in Hc as [Hl Hc]. apply Nat.eqb_eq in Hl.
    rewrite (eachEqual_allEqual _ _ _ elems 0 elems);
      try lia; try (intros j y Hj; apply Value_Index_array; assumption).
    apply allEqual_refl; auto.
  - simpl in IH. inversion IH; subst. auto.
  - apply andb_prop in Hc as [Hl Hc]. apply Nat.eqb_eq in Hl.
    rewrite (eachEqual_allEqual _ _ _ fields 0 fields);
      try lia; try (intros j y Hj; apply Value_Field_struct; assumption).
    apply allEqual_refl; auto.
Qed.

Lemma filter_none {A} (f : A -> bool) xs :
  (forall x, In x xs -> f x = false) -> List.filter f xs = [].
Proof.
  induction xs as [|x xs IH]; intros H; [reflexivity|].
  simpl. rewrite (H x (or_introl eq_refl)). apply IH. intros; apply H; right; assumption.
Qed.

Lemma zip_same {A} (ns : list A) (xs : list Value) i x y :
  In (i, x, y) (zip (zip ns xs) xs) -> x = y.
Proof.
  revert ns. induction xs as [|z xs IH]; intros [|n ns]; simpl; try tauto.
  intros [H|H]; [inversion H; reflexivity|eauto].
Qed.

Lemma zip_elems {A} (ns : list A) (xs ys : list Value) i x y :
  In (i, x, y) (zip (zip ns xs) ys) -> In x xs /\ In y ys.
Proof.
  intros Hin. split.
  - apply list_elem_of_In in Hin. apply elem_of_zip_l in Hin.
    apply elem_of_zip_r in Hin. apply list_elem_of_In. exact Hin.
  - apply list_elem_of_In in Hin. apply elem_of_zip_r in Hin.
    apply list_elem_of_In. exact Hin.
Qed.

Lemma mapIndex_clean ea k :
  forallb (fun e => clean (fst e) && clean (snd e)) ea = true ->
  clean (mapIndex ea k) = true.
Proof.
  unfold mapIndex. induction ea as [|e ea IH]; simpl; intros H; [reflexivity|].
  apply andb_prop in H as [He H]. apply andb_prop in He as [_ He].
  destruct (sameKey (fst e) k); simpl; auto.
Qed.

Lemma selfStore_record k s : selfStore s -> selfStore (record k k s).
Proof.
  intros [E H]. split; simpl.
  - rewrite E. reflexivity.
  - intros k' v. rewrite lookup_insert. case_decide; [congruence|auto].
Qed.

Section Self.
Variable F : Fmt.
Variable mem : gmap uintptr object.
Variable order : nat -> list Value -> list Value.
Hypothesis Hheap : wfHeap mem.
Hypothesis Hclean : cleanHeap mem.
Hypothesis Horder : forall n ks, Permutation (order n ks) ks.

Lemma self_keys_both keys i j :
  Forall (fun k => comparable k = true) keys ->
  Forall (fun k => clean k = true) keys ->
  onlyLeft (order i keys) (order j keys) = []
  /\ onlyRight (order i keys) (order j keys) = [].
Proof.
  intros Hc Hn. rewrite List.Forall_forall in Hc, Hn.
  assert (Href : forall k, In k keys -> sameKey k k = true).
  { intros k Hk. unfold sameKey. rewrite keyEqual_refl; auto. }
  split; apply filter_none; intros k Hk; apply negb_false_iff, existsb_exists;
    exists k; split.
  - eapply Permutation_in; [symmetry; apply Horder|].
    eapply Permutation_in; [apply Horder|exact Hk].
  - apply Href. eapply Permutation_in; [apply Horder|exact Hk].
  - eapply Permutation_in; [symmetry; apply Horder|].
    eapply Permutation_in; [apply Horder|exact Hk].
  - apply Href. eapply Permutation_in; [apply Horder|exact Hk].
Qed.

Lemma self_diff fuel : forall d v s s',
  wf mem v = true -> clean v = true -> selfStore s ->
  diff F mem order fuel d v v s = Ok s' -> quiet s s'.
Proof.
  induction fuel as [|fuel IH]; intros d v s s' Hw Hn Hs H; [discriminate|].
  cbn [diff] in H. destruct v as [|t aa ad].
  { inversion H; subst. split; auto. }
  rewrite bool_decide_eq_true_2 in H by done. cbn [negb] in H.
  destruct (cycleCheck F d (Val t aa ad) (Val t aa ad) s) as [s1 c] eqn:Hc.
  assert (Hq : quiet s s1).
  { unfold cycleCheck in Hc.
    destruct aa as [p|]; [|inversion Hc; subst; split; auto].
    destruct Hs as [E Hid]. destruct (aVisited s !! (p, t)) as [vis|] eqn:Hv.
    - rewrite (Hid _ _ Hv) in Hc. rewrite bool_decide_eq_true_2 in Hc by done.
      cbn [negb] in Hc. inversion Hc; subst. split; [reflexivity|].
      apply selfStore_record. split; auto.
    - rewrite <- E, Hv in Hc. inversion Hc; subst. split; [reflexivity|].
      apply selfStore_record. split; auto. }
  destruct Hq as [Ho1 Hs1].
  destruct c; [inversion H; subst; split; auto|].
  cut (quiet s1 s').
  { intros [Ho' Hs']. split; [congruence|assumption]. }
  clear Hc Hs Ho1 s.
  assert (LOOP : forall {A} (lab : A -> diffPrinter) (ns : list A) xs s0,
            forallb (wf mem) xs = true -> forallb clean xs = true ->
            quiet s1 s0 ->
            foldM (fun '(i, x, y) s => diff F mem order fuel (lab i) x y s)
                  (zip (zip ns xs) xs) s0 = Ok s' -> quiet s1 s').
  { intros A lab ns xs s0 Hwx Hnx Hq Hrun.
    eapply (foldM_invariant (quiet s1)); [|exact Hq|exact Hrun].
    intros [[i x] y] s2 s2' Hin [Ho2 Hs2] Hb.
    pose proof (zip_same _ _ _ _ _ Hin) as <-.
    apply zip_elems in Hin as [Hx _].
    rewrite forallb_forall in Hwx, Hnx.
    destruct (IH _ _ _ _ (Hwx _ Hx) (Hnx _ Hx) Hs2 Hb) as [Ho3 Hs3].
    split; [congruence|assumption]. }
  pose proof Hw as Hw'. simpl in Hw', Hn.
  destruct (tKind t) eqn:Hk; destruct ad; try discriminate Hw'.
  all: try (unfold diffKind in H; rewrite Hk in H; simpl in H;
            rewrite ?Bool.eqb_reflx, ?Z.eqb_refl, ?N.eqb_refl, ?String.eqb_refl in H;
            simpl in H; inversion H; subst; split; auto; fail).
  - (* Float32 *)
    unfold diffKind in H; rewrite Hk in H; simpl in H.
    rewrite SFeqb_refl in H by (destruct (isNaN f); [discriminate|reflexivity]).
    simpl in H. inversion H; subst; split; auto.
  - (* Float64 *)
    unfold diffKind in H; rewrite Hk in H; simpl in H.
    rewrite SFeqb_refl in H by (destruct (isNaN f); [discriminate|reflexivity]).
    simpl in H. inversion H; subst; split; auto.
  - (* Complex64 *)
    unfold diffKind in H; rewrite Hk in H; simpl in H.
    apply andb_prop in Hn as [H1 H2].
    apply negb_true_iff in H1, H2.
    rewrite !SFeqb_refl in H by assumption.
    simpl in H. inversion H; subst; split; auto.
  - (* Complex128 *)
    unfold diffKind in H; rewrite Hk in H; simpl in H.
    apply andb_prop in Hn as [H1 H2].
    apply negb_true_iff in H1, H2.
    rewrite !SFeqb_refl in H by assumption.
    simpl in H. inversion H; subst; split; auto.
  - (* Array *)
    apply andb_prop in Hw' as [Hl Hwx]. apply Nat.eqb_eq in Hl.
    rewrite diffKind_array in H by assumption.
    eapply LOOP; [exact Hwx|exact Hn| |exact H]. split; auto.
  - (* Interface *)
    rewrite diffKind_iface in H by assumption.
    eapply IH; eauto.
  - (* Map *)
    pose proof (map_keys_comparable _ _ Hw') as Hkc.
    assert (Hkn : Forall (fun k => clean k = true) (map fst entries)).
    { clear -Hn. induction entries as [|e es IHes]; simpl in *; constructor.
      - apply andb_prop in Hn as [He _]. apply andb_prop in He as [He _]. exact He.
      - apply IHes. apply andb_prop in Hn as [_ Hn]. exact Hn. }
    destruct (keyDiff_total (order (iters s1) (map fst entries))
                (order (S (iters s1)) (map fst entries))) as (ak & both & bk & HD).
    { eapply Permutation_Forall; [symmetry; apply Horder|assumption]. }
    { eapply Permutation_Forall; [symmetry; apply Horder|assumption]. }
    rewrite (diffKind_map _ _ _ _ _ _ _ _ _ _ _ _ _ _ Hk HD) in H.
    apply keyDiff_partition in HD as (Hak & _ & Hbk).
    destruct (self_keys_both _ (iters s1) (S (iters s1)) Hkc Hkn) as [E1 E2].
    rewrite E1 in Hak. rewrite E2 in Hbk. subst ak bk.
    simpl in H. rewrite emitAll_nil in H.
    apply bind_Ok in H as (s4 & H4 & H). rewrite emitAll_nil in H. inversion H; subst s4.
    eapply (foldM_invariant (quiet s1)); [| |exact H4].
    + intros k s2 s2' _ [Ho2 Hs2] Hb.
      destruct (IH _ _ _ _ (mapIndex_wf mem _ k Hw') (mapIndex_clean _ k Hn) Hs2 Hb) as [Ho3 Hs3].
      split; [congruence|assumption].
    + split; auto.
  - (* Ptr *)
    rewrite diffKind_ptr in H by assumption.
    destruct (N.eqb p 0) eqn:Hp; [inversion H; subst; split; auto|].
    simpl in Hw'. apply bool_decide_eq_true_1 in Hw' as [[tp dp] Hm].
    rewrite Hm in H.
    eapply IH; [eapply Hheap|eapply Hclean| |]; eauto.
  - (* Slice *)
    rewrite diffKind_slice_eq in H by auto.
    eapply LOOP; [exact Hw'|exact Hn| |exact H]. split; auto.
  - (* Struct *)
    apply andb_prop in Hw' as [Hl Hwx]. apply andb_prop in Hl as [Hl Hnm].
    apply Nat.eqb_eq in Hl.
    rewrite diffKind_struct in H by assumption.
    eapply LOOP; [exact Hwx|exact Hn| |exact H]. split; auto.
Qed.
End Self.

(** ** The cycle check *)

Lemma paired_newStore : paired newStore.
Proof. intros a b H. simpl in H. rewrite lookup_empty in H. discriminate. Qed.

Lemma paired_record a b s : paired s -> paired (record a b s).
Proof.
  intros Hp a' b' H. simpl in *. rewrite lookup_insert in H. case_decide.
  - inversion H; subst. rewrite lookup_insert_eq. eauto.
  - apply lookup_insert_is_Some'. right. eapply Hp. exact H.
Qed.

Lemma paired_diff F mem order fuel d av bv s s' :
  paired s -> diff F mem order fuel d av bv s = Ok s' -> paired s'.
Proof.
  apply diff_invariant.
  - intros x s0 H. exact H.
  - intros a b s0. apply paired_record.
  - intros s0 n H. exact H.
Qed.

Section Cycle.
Variable F : Fmt.
Variable mem : gmap uintptr object.
Variable order : nat -> list Value -> list Value.

End Cycle.


(** ** Where the entries of the visited sets come from *)

Lemma child_zero mem v : child mem v Zero.
Proof. intros w H. inversion H; subst; apply reach_zero. Qed.

Lemma child_part mem t a d x : In x (parts d) -> child mem (Val t a d) x.
Proof. intros Hin w H. eapply reach_part; eauto. Qed.

Lemma child_Index mem v i x : Value_Index v i = Ok x -> child mem v x.
Proof.
  destruct v as [|t a []]; simpl; try discriminate.
  - destruct (Nat.ltb i (tLen t)); [|discriminate].
    destruct (nth_error elems i) eqn:E; intros H; inversion H; subst.
    apply child_part. simpl. eapply nth_error_In; eauto.
  - destruct (nth_error elems i) eqn:E; intros H; inversion H; subst.
    apply child_part. simpl. eapply nth_error_In; eauto.
Qed.

Lemma child_Field mem v i x : Value_Field v i = Ok x -> child mem v x.
Proof.
  destruct v as [|t a []]; simpl; try discriminate.
  destruct (Nat.ltb i (length (tFields t))); [|discriminate].
  destruct (nth_error fields i) eqn:E; intros H; inversion H; subst.
  apply child_part. simpl. eapply nth_error_In; eauto.
Qed.

Lemma child_ElemIface mem v x : Value_ElemIface v = Ok x -> child mem v x.
Proof.
  destruct v as [|t a []]; simpl; try discriminate.
  intros H; inversion H; subst. apply child_part. simpl. auto.
Qed.

Lemma child_ElemPtr mem v x : Value_ElemPtr mem v = Ok x -> child mem v x.
Proof.
  destruct v as [|t a []]; simpl; try discriminate.
  destruct (mem !! p) as [[tp dp]|] eqn:E; intros H; inversion H; subst.
  intros w Hw. eapply reach_elem; eauto.
Qed.

Lemma child_MapIndex mem v k x : Value_MapIndex v k = Ok x -> child mem v x.
Proof.
  destruct v as [|t a []]; simpl; try discriminate.
  intros H; inversion H; subst. unfold mapIndex.
  destruct (find _ entries) as [e|] eqn:E; [|apply child_zero].
  apply child_part. simpl. apply in_or_app. right. apply in_map.
  apply find_some in E. tauto.
Qed.

Lemma fromPair_refl mem a b s : fromPair mem a b s s.
Proof. split; auto. Qed.

Lemma fromPair_same mem a b s s1 s2 :
  aVisited s2 = aVisited s1 -> bVisited s2 = bVisited s1 ->
  fromPair mem a b s s1 -> fromPair mem a b s s2.
Proof. intros Ea Eb [Ha Hb]. split; intros k v; rewrite ?Ea, ?Eb; auto. Qed.

Lemma fromPair_child mem a b x y s s1 s2 :
  child mem a x -> child mem b y ->
  fromPair mem a b s s1 -> fromPair mem x y s1 s2 -> fromPair mem a b s s2.
Proof.
  intros Cx Cy [Ha Hb] [Ha' Hb']. split; intros k v H.
  - destruct (Ha' _ _ H) as [H1|(x' & y' & Rx & Ry & Ix & Iy)]; [auto|].
    right. exists x', y'. auto.
  - destruct (Hb' _ _ H) as [H1|(x' & y' & Rx & Ry & Ix & Iy)]; [auto|].
    right. exists x', y'. auto.
Qed.

Lemma fromPair_record mem t pa ad bt pb bd s s1 :
  fromPair mem (Val t (Some pa) ad) (Val bt (Some pb) bd) s s1 ->
  fromPair mem (Val t (Some pa) ad) (Val bt (Some pb) bd) s
           (record (pa, t) (pb, bt) s1).
Proof.
  intros [Ha Hb]. split; intros k v H; simpl in H; rewrite lookup_insert in H;
    case_decide; auto; inversion H; subst; right;
    exists (Val t (Some pa) ad), (Val bt (Some pb) bd);
    repeat split; try apply reach_here.
Qed.

Section Entries.
Variable F : Fmt.
Variable mem : gmap uintptr object.
Variable order : nat -> list Value -> list Value.

Lemma cycleCheck_fromPair d av bv s0 s s1 c :
  fromPair mem av bv s0 s -> cycleCheck F d av bv s = (s1, c) ->
  fromPair mem av bv s0 s1.
Proof.
  intros Hs H. unfold cycleCheck in H.
  destruct av as [|at_ [pa|] ad]; try (inversion H; subst; assumption).
  destruct bv as [|bt [pb|] bd]; try (inversion H; subst; assumption).
  destruct (aVisited s !! (pa, at_)) as [vis|].
  - destruct (negb (bool_decide (vis = (pb, bt)))); inversion H; subst;
      apply fromPair_record; auto.
  - destruct (bVisited s !! (pb, bt)); inversion H; subst;
      apply fromPair_record; auto.
Qed.

Lemma diffKind_fromPair rec d at_ bt av bv s0 s s' :
  (forall d x y s s', rec d x y s = Ok s' -> fromPair mem x y s s') ->
  fromPair mem av bv s0 s ->
  diffKind F mem order rec d at_ bt av bv s = Ok s' -> fromPair mem av bv s0 s'.
Proof.
  intros Hrec Hs H. unfold diffKind in H.
  assert (STEP : forall x y d1 s1 s2, child mem av x -> child mem bv y ->
             fromPair mem av bv s0 s1 -> rec d1 x y s1 = Ok s2 ->
             fromPair mem av bv s0 s2).
  { intros x y d1 s1 s2 Cx Cy H1 H2. eapply fromPair_child; eauto. }
  assert (PRINT : forall d1 f a s1, fromPair mem av bv s0 s1 ->
             fromPair mem av bv s0 (printf F d1 f a s1)).
  { intros. eapply fromPair_same; [| |eassumption]; reflexivity. }
  destruct (tKind at_).
  all: try (inv_bind H; inv_bind H; inversion H; subst;
            match goal with |- fromPair _ _ _ _ (if ?c then _ else _) => destruct c end;
            auto; fail).
  all: try discriminate.
  - (* Array *)
    inv_bind H. unfold forRange in H.
    eapply (foldM_invariant (fromPair mem av bv s0)); [|exact Hs|exact H].
    intros i s1 s2 _ Hs1 Hb. repeat inv_bind Hb.
    eapply STEP; eauto using child_Index.
  - (* Interface *)
    repeat inv_bind H. eapply STEP; eauto using child_ElemIface.
  - (* Map *)
    inv_bind H. destruct x as [ka s1]. inv_bind H. destruct x as [kb s2].
    inv_bind H. destruct x as [[ak both] bk]. inv_bind H. inv_bind H.
    assert (fromPair mem av bv s0 s1).
    { destruct av as [|? ? []]; simpl in Hx; try discriminate. inversion Hx; subst.
      eapply fromPair_same; [| |exact Hs]; reflexivity. }
    assert (fromPair mem av bv s0 s2).
    { destruct bv as [|? ? []]; simpl in Hx0; try discriminate. inversion Hx0; subst.
      eapply fromPair_same; [| |eassumption]; reflexivity. }
    assert (fromPair mem av bv s0 x).
    { eapply (foldM_invariant (fromPair mem av bv s0)); [| |exact Hx2]; [|assumption].
      intros k s3 s3' _ Hs3 Hb. repeat inv_bind Hb. inversion Hb; subst. auto. }
    assert (fromPair mem av bv s0 x0).
    { eapply (foldM_invariant (fromPair mem av bv s0)); [| |exact Hx3]; [|assumption].
      intros k s3 s3' _ Hs3 Hb. repeat inv_bind Hb.
      eapply STEP; eauto using child_MapIndex. }
    eapply (foldM_invariant (fromPair mem av bv s0)); [| |exact H]; [|assumption].
    intros k s3 s3' _ Hs3 Hb. repeat inv_bind Hb. inversion Hb; subst. auto.
  - (* Ptr *)
    inv_bind H. inv_bind H.
    destruct (x && negb x0); [inversion H; subst; auto|].
    destruct (negb x && x0); [inversion H; subst; auto|].
    destruct (negb x && negb x0); [|inversion H; subst; auto].
    repeat inv_bind H. eapply STEP; eauto using child_ElemPtr.
  - (* Slice *)
    inv_bind H. inv_bind H.
    destruct (negb (Nat.eqb x x0)); [inversion H; subst; auto|].
    eapply (foldM_invariant (fromPair mem av bv s0)); [|exact Hs|exact H].
    intros i s1 s2 _ Hs1 Hb. repeat inv_bind Hb.
    eapply STEP; eauto using child_Index.
  - (* Struct *)
    inv_bind H. unfold forRange in H.
    eapply (foldM_invariant (fromPair mem av bv s0)); [|exact Hs|exact H].
    intros i s1 s2 _ Hs1 Hb. repeat inv_bind Hb.
    eapply STEP; eauto using child_Field.
Qed.

Lemma diff_fromPair fuel : forall d av bv s s',
  diff F mem order fuel d av bv s = Ok s' -> fromPair mem av bv s s'.
Proof.
  induction fuel as [|fuel IH]; intros d av bv s s' H; [discriminate|].
  cbn [diff] in H.
  assert (PRINT : forall f a, fromPair mem av bv s (printf F d f a s)).
  { intros. eapply fromPair_same; [| |apply fromPair_refl]; reflexivity. }
  destruct av as [|at_ aa ad], bv as [|bt ba bd];
    try (inversion H; subst; auto using fromPair_refl; fail).
  destruct (negb (bool_decide (at_ = bt))); [inversion H; subst; auto|].
  destruct (cycleCheck F d (Val at_ aa ad) (Val bt ba bd) s) as [s1 c] eqn:Hc.
  eapply cycleCheck_fromPair in Hc; [|apply fromPair_refl].
  destruct c; [inversion H; subst; assumption|].
  eapply diffKind_fromPair; [|exact Hc|exact H]. exact IH.
Qed.

End Entries.

Lemma diff_doms F mem order fuel d a b s s' :
  diff F mem order fuel d a b s = Ok s' ->
  dom (aVisited s) ⊆ dom (aVisited s') /\ dom (bVisited s) ⊆ dom (bVisited s').
Proof.
  apply (diff_invariant F mem order
           (fun s2 => dom (aVisited s) ⊆ dom (aVisited s2)
                      /\ dom (bVisited s) ⊆ dom (bVisited s2))).
  - intros x s0 H. exact H.
  - intros k v s0 [Ha Hb]. simpl. rewrite !dom_insert. split.
    + intros z Hz. apply elem_of_union. right. apply Ha. exact Hz.
    + intros z Hz. apply elem_of_union. right. apply Hb. exact Hz.
  - intros s0 n H. exact H.
  - split; intros z Hz; exact Hz.
Qed.




(** ** Reflexivity and the absence of panics *)

Section Halting.
Variable F : Fmt.
Variable mem : gmap uintptr object.
Variable order : nat -> list Value -> list Value.
Hypothesis Hheap : wfHeap mem.
Hypothesis Horder : forall n ks, Permutation (order n ks) ks.

Lemma diff_halts d av bv s :
  wf mem av = true -> wf mem bv = true ->
  exists f0 s', forall f, (f0 <= f)%nat -> diff F mem order f d av bv s = Ok s'.
Proof.
  intros Ha Hb.
  destruct (proj1 (diff_halts_aux F mem order Hheap Horder (unvisited mem s)
                     (vsize av) av (le_n _) bv Ha Hb) d s (le_n _))
    as (f0 & s' & H & _).
  eauto.
Qed.

Lemma diff_no_panic d av bv s f p :
  wf mem av = true -> wf mem bv = true ->
  diff F mem order f d av bv s <> Panic p.
Proof.
  intros Ha Hb H. destruct (diff_halts d av bv s Ha Hb) as (f0 & s' & H0).
  pose proof (diff_fuel_mono F mem order f (Nat.max f f0) d av bv s _
                ltac:(lia) H ltac:(discriminate)) as H1.
  rewrite H0 in H1 by lia. discriminate.
Qed.
End Halting.


Lemma cyclicHeap_wf : wfHeap cyclicHeap.
Proof.
  intros p t d H. unfold cyclicHeap in H. apply lookup_singleton_Some in H as [<- H]. inversion H. reflexivity.
Qed.

Lemma cyclicHeap_clean : cleanHeap cyclicHeap.
Proof.
  intros p t d H. unfold cyclicHeap in H. apply lookup_singleton_Some in H as [<- H]. inversion H. reflexivity.
Qed.


Lemma Diff_cyclic_self : Diff sampleFmt cyclicHeap inOrder 4 cyclic cyclic = Ok [].
Proof. vm_compute. reflexivity. Qed.




Lemma intHeap_wf : wfHeap intHeap.
Proof.
  intros p t d H. unfold intHeap in H.
  apply lookup_insert_Some in H as [[<- H]|[_ H]].
  - inversion H. reflexivity.
  - apply lookup_singleton_Some in H as [<- H]. inversion H. reflexivity.
Qed.


(** ** The order of map keys *)

Ltac same_bind :=
  match goal with
  | |- mbind _ ?c = mbind _ ?c =>
      let r := fresh "r" in
      destruct c as [r|r|]; cbn [mbind result_bind]; [|reflexivity|reflexivity]
  end.

Section OrderExt.
Variable F : Fmt.
Variable mem : gmap uintptr object.
Variables order1 order2 : nat -> list Value -> list Value.
Hypothesis Hsame : forall n ks, order1 n ks = order2 n ks.

Lemma diffKind_order_ext rec1 rec2 d at_ bt av bv s :
  (forall d x y s, rec1 d x y s = rec2 d x y s) ->
  diffKind F mem order1 rec1 d at_ bt av bv s
  = diffKind F mem order2 rec2 d at_ bt av bv s.
Proof.
  intros Hrec. unfold diffKind. destruct (tKind at_); try reflexivity.
  - same_bind. unfold forRange. apply foldM_ext. intros i si _.
    repeat same_bind. apply Hrec.
  - repeat same_bind. apply Hrec.
  - assert (E : forall v s0, Value_MapKeys order1 v s0 = Value_MapKeys order2 v s0).
    { intros [|? ? []] ss; simpl; try reflexivity. rewrite Hsame. reflexivity. }
    rewrite E.
    destruct (Value_MapKeys order2 av s) as [[ka s1]| |]; cbn [mbind result_bind];
      try reflexivity.
    rewrite E.
    destruct (Value_MapKeys order2 bv s1) as [[kb s2]| |]; cbn [mbind result_bind];
      try reflexivity.
    destruct (keyDiff ka kb) as [[[ak both] bk]| |]; cbn [mbind result_bind];
      try reflexivity.
    destruct (foldM _ ak s2) as [s3| |]; cbn [mbind result_bind]; try reflexivity.
    rewrite (foldM_ext _ (fun k s => w ← relabel d (Sprintf F "[%#v]" [OValue k]);
                                     x ← Value_MapIndex av k; y ← Value_MapIndex bv k;
                                     rec2 w x y s)).
    2:{ intros k sk _. repeat same_bind. apply Hrec. }
    reflexivity.
  - repeat same_bind.
    destruct (_ && _); [reflexivity|].
    destruct (_ && _); [reflexivity|].
    destruct (_ && _); [|reflexivity].
    repeat same_bind. apply Hrec.
  - repeat same_bind. destruct (negb _); [reflexivity|].
    unfold forRange. apply foldM_ext. intros i si _.
    repeat same_bind. apply Hrec.
  - same_bind. unfold forRange. apply foldM_ext. intros i si _.
    repeat same_bind. apply Hrec.
Qed.

Lemma diff_order_ext fuel : forall d av bv s,
  diff F mem order1 fuel d av bv s = diff F mem order2 fuel d av bv s.
Proof.
  induction fuel as [|fuel IH]; intros d av bv s; [reflexivity|].
  cbn [diff]. destruct av as [|at_ aa ad], bv as [|bt ba bd]; try reflexivity.
  destruct (negb (bool_decide (at_ = bt))); [reflexivity|].
  destruct (cycleCheck F d (Val at_ aa ad) (Val bt ba bd) s) as [s1 c].
  destruct c; [reflexivity|].
  apply diffKind_order_ext. exact IH.
Qed.
End OrderExt.

Lemma Permutation_short {A} (xs ys : list A) :
  Permutation xs ys -> (length ys < 2)%nat -> xs = ys.
Proof.
  intros HP Hl. destruct ys as [|y [|y' ys]]; simpl in Hl; try lia.
  - apply Permutation_nil. symmetry. exact HP.
  - apply Permutation_length_1_inv. symmetry. exact HP.
Qed.




(** ** Labels inside the format *)

(** C9 (the code at the failing input).  [printf] puts the label into
    the format string.  Comparing [map[string]int{"%d": 1}] with the
    empty map derives the label [["%d"]]; the [%d] inside it consumes the
    operand meant for [%q], so the emitted line is
    [["1"]: %!q(MISSING) != (missing)], which is not the label followed
    by [: ] and the body. *)
Theorem printf_label_is_format F :
  fmt_operand F "#" "v" (OValue (vString "%d")) = dq +:+ "%d" +:+ dq ->
  fmt_operand F "" "d" (OValue (vInt 1)) = "1" ->
  l (keyLabel F (mkPrinter "") (vString "%d")) = "[" +:+ dq +:+ "%d" +:+ dq +:+ "]"
  /\ Diff F ∅ inOrder 2 mapPercent mapEmpty
     = Ok ["[" +:+ dq +:+ "1" +:+ dq +:+ "]: %!q(MISSING) != (missing)"].
Proof.
  intros H1 H2. split.
  - unfold keyLabel. simpl. rewrite H1. reflexivity.
  - unfold Diff, Pdiff.
    assert (HD : keyDiff (inOrder 0 (map fst [(vString "%d", vInt 1)])) (inOrder 1 (map fst (@nil (Value * Value))))
                 = Ok ([vString "%d"], [], [])) by reflexivity.
    unfold mapPercent, mapEmpty. cbn [diff].
    rewrite bool_decide_eq_true_2 by done. cbn [negb cycleCheck].
    rewrite (diffKind_map F ∅ inOrder _ (mkPrinter "") mapSI_t None None
               [(vString "%d", vInt 1)] [] newStore _ _ _ eq_refl HD).
    cbn [foldM mbind result_bind map]. unfold emitAll, afterMapKeys. cbn [out newStore app].
    f_equal. f_equal. unfold line, keyLabel. cbn [l]. 
    rewrite H1.
    change (mapIndex [(vString "%d", vInt 1)] (vString "%d")) with (vInt 1).
    unfold Sprintf.
    match goal with |- context [scan F ?f _] =>
      let f' := eval vm_compute in f in change f with f' end.
    cbn. unfold printArg. cbn. rewrite H2. reflexivity.
Qed.

Lemma printf_label_is_format_witness :
  l (keyLabel sampleFmt (mkPrinter "") (vString "%d")) = "[" +:+ dq +:+ "%d" +:+ dq +:+ "]"
  /\ Diff sampleFmt ∅ inOrder 2 mapPercent mapEmpty
     = Ok ["[" +:+ dq +:+ "1" +:+ dq +:+ "]: %!q(MISSING) != (missing)"].
Proof. apply printf_label_is_format; reflexivity. Defined.

(** Where the label holds no [%], the line is the label, [: ] and the
    body. *)
Lemma scan_plain_prefix F p f a :
  noPercent p = true -> scan F (p +:+ f) a = String.append p <$> scan F f a.
Proof.
  induction p as [|c p IH]; intros H.
  - change ("" +:+ f) with f. destruct (scan F f a); reflexivity.
  - simpl in H. apply andb_prop in H as [Hc Hp].
    change (String c p +:+ f) with (String c (p +:+ f)).
    cbn [scan]. apply negb_true_iff in Hc. rewrite Hc, (IH Hp).
    destruct (scan F f a); reflexivity.
Qed.

Lemma line_plain_label F d f a body :
  noPercent (l d) = true -> scan F f a = Some body ->
  line F d f a = if String.eqb (l d) "" then body else l d +:+ ": " +:+ body.
Proof.
  intros Hl Hb. unfold line, Sprintf.
  destruct (String.eqb (l d) "") eqn:E.
  - change ("" +:+ f) with f. rewrite Hb. reflexivity.
  - rewrite append_assoc, scan_plain_prefix by assumption.
    rewrite (scan_plain_prefix F ": " f a eq_refl), Hb. reflexivity.
Qed.


(** ** Two sinks fed by the same walk

    [Q] holds of the printers the walk uses, [R] relates the two sinks and
    is kept by every call that [diffPrinter.printf] can make. *)

Section TwoSinks.
Variable F : Fmt.
Variable mem : gmap uintptr object.
Variable order : nat -> list Value -> list Value.
Context {W1 W2 : Type}.
Variable P1 : string -> list operand -> W1 -> W1.
Variable P2 : string -> list operand -> W2 -> W2.
Variable R : W1 -> W2 -> Prop.
Variable Q : diffPrinter -> Prop.
Hypothesis Q_relabel : forall d name d1, Q d -> relabel d name = Ok d1 -> Q d1.
Hypothesis R_Printf : forall d f a w1 w2,
  Q d -> verbs f = Some (length a) -> R w1 w2 ->
  R (P1 (labelled d f) a w1) (P2 (labelled d f) a w2).

Lemma alikeR_bind {A} (c : result A) k1 k2 :
  (forall x, c = Ok x -> alikeR R (k1 x) (k2 x)) ->
  alikeR R (x ← c; k1 x) (x ← c; k2 x).
Proof. intros H. destruct c; simpl; auto. Qed.

Lemma alike_printf d f a s1 s2 :
  Q d -> verbs f = Some (length a) -> alike R s1 s2 ->
  alike R (printfW P1 d f a s1) (printfW P2 d f a s2).
Proof.
  intros HQ Hv (H & Ha & Hb & Hn). split; [|auto].
  exact (R_Printf d f a _ _ HQ Hv H).
Qed.

Lemma alike_record x y s1 s2 :
  alike R s1 s2 -> alike R (recordW x y s1) (recordW x y s2).
Proof. intros (H & Ha & Hb & Hn). repeat split; simpl; auto; congruence. Qed.

Lemma alikeR_foldW {A} (b1 : A -> Walk W1 -> result (Walk W1)) b2 xs :
  (forall x s1 s2, alike R s1 s2 -> alikeR R (b1 x s1) (b2 x s2)) ->
  forall s1 s2, alike R s1 s2 -> alikeR R (foldW b1 xs s1) (foldW b2 xs s2).
Proof.
  intros Hb. induction xs as [|x xs IH]; intros s1 s2 Hs; simpl; [exact Hs|].
  specialize (Hb x s1 s2 Hs).
  destruct (b1 x s1), (b2 x s2); simpl in *; try contradiction; auto.
Qed.

Lemma alike_cycleCheck d av bv s1 s2 :
  Q d -> alike R s1 s2 ->
  alike R (fst (cycleCheckW P1 d av bv s1)) (fst (cycleCheckW P2 d av bv s2))
  /\ snd (cycleCheckW P1 d av bv s1) = snd (cycleCheckW P2 d av bv s2).
Proof.
  intros HQ Hs. pose proof Hs as (H & Ha & Hb & Hn). unfold cycleCheckW.
  destruct av as [|at_ [pa|] ad]; try (split; [assumption|reflexivity]).
  destruct bv as [|bt [pb|] bd]; try (split; [assumption|reflexivity]).
  rewrite Ha, Hb.
  destruct (aSeen s2 !! (pa, at_)) as [vis|].
  - destruct (negb (bool_decide (vis = (pb, bt)))); simpl;
      (split; [|reflexivity]); auto using alike_record, alike_printf.
  - destruct (bSeen s2 !! (pb, bt)); simpl;
      (split; [|reflexivity]); auto using alike_record, alike_printf.
Qed.

Lemma alike_MapKeys v s1 s2 :
  alike R s1 s2 ->
  match MapKeysW order v s1, MapKeysW order v s2 with
  | Ok (k1, t1), Ok (k2, t2) => k1 = k2 /\ alike R t1 t2
  | Panic p, Panic q => p = q
  | _, _ => False
  end.
Proof.
  intros (H & Ha & Hb & Hn). destruct v as [|? ? []]; simpl; auto.
  rewrite Hn. repeat split; simpl; auto.
Qed.

Ltac alike_step :=
  first
    [ match goal with
      | |- alikeR _ (mbind ?k1 ?c) (mbind ?k2 ?c) =>
          apply (alikeR_bind c k1 k2);
          let x := fresh "x" in
          let E := fresh "E" in
          intros x E;
          try match type of E with
              | relabel ?d _ = Ok _ =>
                  match goal with
                  | HQ : Q d |- _ => pose proof (Q_relabel _ _ _ HQ E)
                  end
              end
      end
    | match goal with
      | |- alikeR _ (Ok (if ?c then _ else _)) (Ok (if ?c then _ else _)) =>
          destruct c; simpl
      | |- alikeR _ (if ?c then _ else _) (if ?c then _ else _) => destruct c
      end
    | apply alike_printf; [assumption | reflexivity | assumption]
    | assumption ].

Lemma alikeR_diffKind rec1 rec2 d at_ bt av bv s1 s2 :
  (forall d x y s1 s2, Q d -> alike R s1 s2 ->
     alikeR R (rec1 d x y s1) (rec2 d x y s2)) ->
  Q d -> alike R s1 s2 ->
  alikeR R (diffKindW F mem order P1 rec1 d at_ bt av bv s1)
           (diffKindW F mem order P2 rec2 d at_ bt av bv s2).
Proof.
  intros Hrec HQ Hs. unfold diffKindW. destruct (tKind at_).
  all: try (simpl; reflexivity).
  all: try (repeat alike_step; fail).
  - (* Array *)
    alike_step. apply alikeR_foldW; [|assumption].
    intros i t1 t2 Ht. repeat alike_step. auto.
  - (* Interface *)
    repeat alike_step. auto.
  - (* Map *)
    pose proof (alike_MapKeys av s1 s2 Hs) as HK.
    destruct (MapKeysW order av s1) as [[ka t1]| |],
             (MapKeysW order av s2) as [[ka' t2]| |];
      simpl in *; try contradiction; auto.
    destruct HK as [<- Ht].
    pose proof (alike_MapKeys bv t1 t2 Ht) as HK.
    destruct (MapKeysW order bv t1) as [[kb u1]| |],
             (MapKeysW order bv t2) as [[kb' u2]| |];
      simpl in *; try contradiction; auto.
    destruct HK as [<- Hu].
    destruct (keyDiff ka kb) as [[[ak both] bk]| |]; simpl; auto.
    assert (H3 : alikeR R
      (foldW (fun k s => w ← relabel d (Sprintf F "[%#v]" [OValue k]);
                x ← Value_MapIndex av k;
                Ok (printfW P1 w "%q != (missing)" [OValue x] s)) ak u1)
      (foldW (fun k s => w ← relabel d (Sprintf F "[%#v]" [OValue k]);
                x ← Value_MapIndex av k;
                Ok (printfW P2 w "%q != (missing)" [OValue x] s)) ak u2)).
    { apply alikeR_foldW; [|assumption]. intros k v1 v2 Hv. repeat alike_step. }
    destruct (foldW _ ak u1) as [v1| |], (foldW _ ak u2) as [v2| |];
      simpl in *; try contradiction; auto.
    assert (H4 : alikeR R
      (foldW (fun k s => w ← relabel d (Sprintf F "[%#v]" [OValue k]);
                x ← Value_MapIndex av k; y ← Value_MapIndex bv k;
                rec1 w x y s) both v1)
      (foldW (fun k s => w ← relabel d (Sprintf F "[%#v]" [OValue k]);
                x ← Value_MapIndex av k; y ← Value_MapIndex bv k;
                rec2 w x y s) both v2)).
    { apply alikeR_foldW; [|assumption]. intros k x1 x2 Hx.
      repeat alike_step. auto. }
    destruct (foldW _ both v1) as [x1| |], (foldW _ both v2) as [x2| |];
      simpl in *; try contradiction; auto.
    apply alikeR_foldW; [|assumption]. intros k y1 y2 Hy. repeat alike_step.
  - (* Ptr *)
    repeat alike_step. auto.
  - (* Slice *)
    repeat alike_step. apply alikeR_foldW; [|assumption].
    intros i t1 t2 Ht. repeat alike_step. auto.
  - (* Struct *)
    alike_step. apply alikeR_foldW; [|assumption].
    intros i t1 t2 Ht. repeat alike_step. auto.
Qed.

Lemma alikeR_diffW fuel : forall d av bv s1 s2,
  Q d -> alike R s1 s2 ->
  alikeR R (diffW F mem order P1 fuel d av bv s1)
           (diffW F mem order P2 fuel d av bv s2).
Proof.
  induction fuel as [|fuel IH]; intros d av bv s1 s2 HQ Hs; [exact Logic.I|].
  cbn [diffW]. destruct av as [|at_ aa ad], bv as [|bt ba bd];
    try (simpl; auto using alike_printf; fail).
  destruct (negb (bool_decide (at_ = bt))); [simpl; auto using alike_printf|].
  destruct (alike_cycleCheck d (Val at_ aa ad) (Val bt ba bd) s1 s2 HQ Hs)
    as [Hc Hb].
  destruct (cycleCheckW P1 d _ _ s1) as [t1 c1],
           (cycleCheckW P2 d _ _ s2) as [t2 c2].
  simpl in Hc, Hb. subst c2. destruct c1; [exact Hc|].
  apply alikeR_diffKind; auto.
Qed.

End TwoSinks.
(** ** The collecting differ and the walker *)

Section StoreSink.
Variable F : Fmt.
Variable mem : gmap uintptr object.
Variable order : nat -> list Value -> list Value.
Context {W : Type}.
Variable P : string -> list operand -> W -> W.
Variable R : list string -> W -> Prop.
Hypothesis R_Printf :
  forall f a ls w, R ls w -> R (ls ++ [Sprintf F f a]) (P f a w).

Lemma tracksR_bind {A} (c : result A) k1 k2 :
  (forall x, tracksR R (k1 x) (k2 x)) -> tracksR R (x ← c; k1 x) (x ← c; k2 x).
Proof. intros H. destruct c; simpl; auto. Qed.

Lemma tracks_printf d f a s w :
  tracks R s w -> tracks R (printf F d f a s) (printfW P d f a w).
Proof.
  intros (H & Ha & Hb & Hn). repeat split; simpl; auto.
  unfold line. apply R_Printf. exact H.
Qed.

Lemma tracks_record x y s w :
  tracks R s w -> tracks R (record x y s) (recordW x y w).
Proof. intros (H & Ha & Hb & Hn). repeat split; simpl; auto; congruence. Qed.

Lemma tracksR_fold {A} (b1 : A -> Store -> result Store) b2 xs :
  (forall x s w, tracks R s w -> tracksR R (b1 x s) (b2 x w)) ->
  forall s w, tracks R s w -> tracksR R (foldM b1 xs s) (foldW b2 xs w).
Proof.
  intros Hb. induction xs as [|x xs IH]; intros s w Hs; simpl; [exact Hs|].
  specialize (Hb x s w Hs).
  destruct (b1 x s), (b2 x w); simpl in *; try contradiction; auto.
Qed.

Lemma tracks_cycleCheck d av bv s w :
  tracks R s w ->
  tracks R (fst (cycleCheck F d av bv s)) (fst (cycleCheckW P d av bv w))
  /\ snd (cycleCheck F d av bv s) = snd (cycleCheckW P d av bv w).
Proof.
  intros Hs. pose proof Hs as (H & Ha & Hb & Hn). unfold cycleCheck, cycleCheckW.
  destruct av as [|at_ [pa|] ad]; try (split; [assumption|reflexivity]).
  destruct bv as [|bt [pb|] bd]; try (split; [assumption|reflexivity]).
  rewrite Ha, Hb.
  destruct (aSeen w !! (pa, at_)) as [vis|].
  - destruct (negb (bool_decide (vis = (pb, bt)))); simpl;
      (split; [|reflexivity]); auto using tracks_record, tracks_printf.
  - destruct (bSeen w !! (pb, bt)); simpl;
      (split; [|reflexivity]); auto using tracks_record, tracks_printf.
Qed.

Lemma tracks_MapKeys v s w :
  tracks R s w ->
  match Value_MapKeys order v s, MapKeysW order v w with
  | Ok (k1, t1), Ok (k2, t2) => k1 = k2 /\ tracks R t1 t2
  | Panic p, Panic q => p = q
  | _, _ => False
  end.
Proof.
  intros (H & Ha & Hb & Hn). destruct v as [|? ? []]; simpl; auto.
  rewrite Hn. repeat split; simpl; auto.
Qed.

Ltac tracks_step :=
  first
    [ match goal with
      | |- tracksR _ (mbind ?k1 ?c) (mbind ?k2 ?c) =>
          apply (tracksR_bind c k1 k2); intros ?
      end
    | match goal with
      | |- tracksR _ (Ok (if ?c then _ else _)) (Ok (if ?c then _ else _)) =>
          destruct c; simpl
      | |- tracksR _ (if ?c then _ else _) (if ?c then _ else _) => destruct c
      end
    | apply tracks_printf; assumption
    | assumption ].

Lemma tracksR_diffKind rec1 rec2 d at_ bt av bv s w :
  (forall d x y s w, tracks R s w -> tracksR R (rec1 d x y s) (rec2 d x y w)) ->
  tracks R s w ->
  tracksR R (diffKind F mem order rec1 d at_ bt av bv s)
          (diffKindW F mem order P rec2 d at_ bt av bv w).
Proof.
  intros Hrec Hs. unfold diffKind, diffKindW, forRange. destruct (tKind at_).
  all: try (simpl; reflexivity).
  all: try (repeat tracks_step; fail).
  - (* Array *)
    tracks_step. apply tracksR_fold; [|assumption].
    intros i t1 t2 Ht. repeat tracks_step. auto.
  - (* Interface *)
    repeat tracks_step. auto.
  - (* Map *)
    pose proof (tracks_MapKeys av s w Hs) as HK.
    destruct (Value_MapKeys order av s) as [[ka t1]| |], (MapKeysW order av w) as [[ka' t2]| |];
      simpl in *; try contradiction; auto.
    destruct HK as [<- Ht].
    pose proof (tracks_MapKeys bv t1 t2 Ht) as HK.
    destruct (Value_MapKeys order bv t1) as [[kb u1]| |], (MapKeysW order bv t2) as [[kb' u2]| |];
      simpl in *; try contradiction; auto.
    destruct HK as [<- Hu].
    destruct (keyDiff ka kb) as [[[ak both] bk]| |]; simpl; auto.
    assert (H3 : tracksR R
      (foldM (fun k s => w ← relabel d (Sprintf F "[%#v]" [OValue k]);
                x ← Value_MapIndex av k;
                Ok (printf F w "%q != (missing)" [OValue x] s)) ak u1)
      (foldW (fun k s => w ← relabel d (Sprintf F "[%#v]" [OValue k]);
                x ← Value_MapIndex av k;
                Ok (printfW P w "%q != (missing)" [OValue x] s)) ak u2)).
    { apply tracksR_fold; [|assumption]. intros k v1 v2 Hv. repeat tracks_step. }
    destruct (foldM _ ak u1) as [v1| |], (foldW _ ak u2) as [v2| |];
      simpl in *; try contradiction; auto.
    assert (H4 : tracksR R
      (foldM (fun k s => w ← relabel d (Sprintf F "[%#v]" [OValue k]);
                x ← Value_MapIndex av k; y ← Value_MapIndex bv k;
                rec1 w x y s) both v1)
      (foldW (fun k s => w ← relabel d (Sprintf F "[%#v]" [OValue k]);
                x ← Value_MapIndex av k; y ← Value_MapIndex bv k;
                rec2 w x y s) both v2)).
    { apply tracksR_fold; [|assumption]. intros k x1 x2 Hx. repeat tracks_step. auto. }
    destruct (foldM _ both v1) as [x1| |], (foldW _ both v2) as [x2| |];
      simpl in *; try contradiction; auto.
    apply tracksR_fold; [|assumption]. intros k y1 y2 Hy. repeat tracks_step.
  - (* Ptr *)
    repeat tracks_step. auto.
  - (* Slice *)
    repeat tracks_step. apply tracksR_fold; [|assumption].
    intros i t1 t2 Ht. repeat tracks_step. auto.
  - (* Struct *)
    tracks_step. apply tracksR_fold; [|assumption].
    intros i t1 t2 Ht. repeat tracks_step. auto.
Qed.

Lemma tracksR_diff fuel : forall d av bv s w,
  tracks R s w ->
  tracksR R (diff F mem order fuel d av bv s) (diffW F mem order P fuel d av bv w).
Proof.
  induction fuel as [|fuel IH]; intros d av bv s w Hs; [exact Logic.I|].
  cbn [diff diffW]. destruct av as [|at_ aa ad], bv as [|bt ba bd];
    try (simpl; auto using tracks_printf; fail).
  destruct (negb (bool_decide (at_ = bt))); [simpl; auto using tracks_printf|].
  destruct (tracks_cycleCheck d (Val at_ aa ad) (Val bt ba bd) s w Hs) as [Hc Hb].
  destruct (cycleCheck F d _ _ s) as [t1 c1], (cycleCheckW P d _ _ w) as [t2 c2].
  simpl in Hc, Hb. subst c2. destruct c1; [exact Hc|].
  apply tracksR_diffKind; auto.
Qed.

End StoreSink.

(** ** What the sinks receive *)

Section Sinks.
Variable F : Fmt.
Variable mem : gmap uintptr object.
Variable order : nat -> list Value -> list Value.

Lemma replay_snoc {W} (P : string -> list operand -> W -> W) calls f a w :
  replay P (calls ++ [(f, a)]) w = P f a (replay P calls w).
Proof. unfold replay. rewrite fold_left_app. reflexivity. Qed.

Lemma walk_replays {W} (P : string -> list operand -> W -> W) (w0 : W)
    fuel d a b s1 s2 :
  alike (fun calls w => w = replay P calls w0) s1 s2 ->
  alikeR (fun calls w => w = replay P calls w0)
         (diffW F mem order logprintfer_Printf fuel d a b s1)
         (diffW F mem order P fuel d a b s2).
Proof.
  intros Hs.
  apply (alikeR_diffW F mem order logprintfer_Printf P _ (fun _ => True));
    auto.
  intros d0 f args w1 w2 _ _ ->. unfold logprintfer_Printf.
  rewrite replay_snoc. reflexivity.
Qed.

Lemma walk_renders fuel d a b s w :
  tracks (fun ls calls => ls = map (render F) calls) s w ->
  tracksR (fun ls calls => ls = map (render F) calls)
          (diff F mem order fuel d a b s)
          (diffW F mem order logprintfer_Printf fuel d a b w).
Proof.
  intros Hs. apply tracksR_diff; [|exact Hs].
  intros f args ls calls ->. unfold logprintfer_Printf.
  rewrite map_app. reflexivity.
Qed.

(** Every call that the walk makes is balanced. *)
Lemma walk_balanced fuel d a b s1 s2 :
  alike (fun c1 c2 => c1 = c2 /\ Forall balanced c1) s1 s2 ->
  alikeR (fun c1 c2 => c1 = c2 /\ Forall balanced c1)
         (diffW F mem order logprintfer_Printf fuel d a b s1)
         (diffW F mem order logprintfer_Printf fuel d a b s2).
Proof.
  intros Hs.
  apply (alikeR_diffW F mem order logprintfer_Printf logprintfer_Printf _
           (fun _ => True)); auto.
  intros d0 f args w1 w2 _ Hv [-> Hall]. split; [reflexivity|].
  unfold logprintfer_Printf. apply Forall_app. split; [exact Hall|].
  constructor; [|constructor]. exists d0, f. split; [reflexivity|exact Hv].
Qed.

Lemma Ldiff_balanced fuel a b calls :
  Ldiff F mem order fuel [] a b = Ok calls -> Forall balanced calls.
Proof.
  unfold Ldiff, PdiffTo. intros H.
  pose proof (walk_balanced fuel (mkPrinter "") a b
                (mkWalk [] ∅ ∅ 0) (mkWalk [] ∅ ∅ 0)) as HW.
  destruct (diffW F mem order logprintfer_Printf fuel (mkPrinter "") a b
              (mkWalk [] ∅ ∅ 0)) as [s| |]; try discriminate.
  simpl in H. injection H as <-.
  destruct HW as [[_ Hall] _]; [|exact Hall].
  repeat split; constructor.
Qed.

(** *** A newline after the format *)

Lemma fmap_append_Some (p : string) o r :
  o = Some r -> String.append p <$> o = Some (p +:+ r).
Proof. intros ->. reflexivity. Qed.

Lemma scan_newline f :
  (forall args n, verbs f = Some n -> (length args <= n)%nat ->
     exists r, scan F f args = Some r /\ scan F (f +:+ nl) args = Some (r +:+ nl))
  /\ (forall flags args n, verbsIn f = Some n -> (length args <= n)%nat ->
     exists r, directive F f flags args = Some r
               /\ directive F (f +:+ nl) flags args = Some (r +:+ nl)).
Proof.
  induction f as [|c f [IHs IHd]].
  - split.
    + intros args n Hv Hn. injection Hv as <-.
      destruct args; [|simpl in *; lia]. exists "". split; reflexivity.
    + intros flags args n H. discriminate.
  - split.
    + intros args n Hv Hn. cbn [verbs] in Hv.
      change (String c f +:+ nl) with (String c (f +:+ nl)). cbn [scan].
      destruct (Ascii.eqb c "%").
      * apply IHd with n; assumption.
      * destruct (IHs args n Hv Hn) as (r & -> & ->).
        exists (String c r). split; reflexivity.
    + intros flags args n Hv Hn. cbn [verbsIn] in Hv.
      change (String c f +:+ nl) with (String c (f +:+ nl)). cbn [directive].
      destruct (isFlag c); [apply IHd with n; assumption|].
      destruct (Ascii.eqb c "%").
      * destruct (IHs args n Hv Hn) as (r & -> & ->).
        exists (String "%" r). split; reflexivity.
      * destruct (outsideFragment c); [discriminate|].
        destruct (verbs f) as [m|] eqn:Em; [|discriminate].
        injection Hv as <-.
        destruct args as [|x rest].
        -- destruct (IHs [] m eq_refl ltac:(simpl; lia)) as (r & -> & ->).
           eexists. split; [reflexivity|]. simpl. 
           rewrite <- append_assoc. reflexivity.
        -- destruct (IHs rest m eq_refl ltac:(simpl in Hn; lia)) as (r & -> & ->).
           eexists. split; [reflexivity|]. simpl.
           rewrite <- append_assoc. reflexivity.
Qed.


(** [tight g n]: with at most [n] operands left, a newline put after the
    format [g] comes out after everything else, whether [g] is met
    between directives or inside one. *)
Lemma tight_step c g n :
  ((forall args r, (length args <= n)%nat -> scan F g args = Some r ->
      scan F (g +:+ nl) args = Some (r +:+ nl))
   /\ (forall flags args r, (length args <= n)%nat ->
      directive F g flags args = Some r ->
      directive F (g +:+ nl) flags args = Some (r +:+ nl))) ->
  (forall args r, (length args <= n)%nat -> scan F (String c g) args = Some r ->
      scan F (String c g +:+ nl) args = Some (r +:+ nl))
  /\ (forall flags args r, (length args <= n)%nat ->
      directive F (String c g) flags args = Some r ->
      directive F (String c g +:+ nl) flags args = Some (r +:+ nl)).
Proof.
  intros [Hs Hd]. split.
  - intros args r Hn. change (String c g +:+ nl) with (String c (g +:+ nl)).
    cbn [scan]. destruct (Ascii.eqb c "%"); [apply Hd; assumption|].
    destruct (scan F g args) as [r'|] eqn:E; [|discriminate].
    rewrite (Hs _ _ Hn E). injection 1 as <-. reflexivity.
  - intros flags args r Hn. change (String c g +:+ nl) with (String c (g +:+ nl)).
    cbn [directive]. destruct (isFlag c); [apply Hd; assumption|].
    destruct (Ascii.eqb c "%").
    { destruct (scan F g args) as [r'|] eqn:E; [|discriminate].
      rewrite (Hs _ _ Hn E). injection 1 as <-. reflexivity. }
    destruct (outsideFragment c); [discriminate|].
    destruct args as [|x rest].
    + destruct (scan F g []) as [r'|] eqn:E; [|discriminate].
      rewrite (Hs _ _ Hn E). injection 1 as <-. simpl.
      rewrite <- append_assoc. reflexivity.
    + assert (Hn' : (length rest <= n)%nat) by (simpl in Hn; lia).
      destruct (scan F g rest) as [r'|] eqn:E; [|discriminate].
      rewrite (Hs _ _ Hn' E). injection 1 as <-. simpl.
      rewrite <- append_assoc. reflexivity.
Qed.

Lemma tight_literal c g n :
  Ascii.eqb c "%" = false ->
  (forall args r, (length args <= n)%nat -> scan F g args = Some r ->
      scan F (g +:+ nl) args = Some (r +:+ nl)) ->
  forall args r, (length args <= n)%nat -> scan F (String c g) args = Some r ->
      scan F (String c g +:+ nl) args = Some (r +:+ nl).
Proof.
  intros Hc Hs args r Hn. change (String c g +:+ nl) with (String c (g +:+ nl)).
  cbn [scan]. rewrite Hc.
  destruct (scan F g args) as [r'|] eqn:E; [|discriminate].
  rewrite (Hs _ _ Hn E). injection 1 as <-. reflexivity.
Qed.

Lemma tight_verb c g n :
  Ascii.eqb c "%" = false -> isFlag c = false ->
  (forall args r, (length args <= n)%nat -> scan F g args = Some r ->
      scan F (g +:+ nl) args = Some (r +:+ nl)) ->
  forall flags args r, (length args <= n)%nat ->
      directive F (String c g) flags args = Some r ->
      directive F (String c g +:+ nl) flags args = Some (r +:+ nl).
Proof.
  intros Hc Hf Hs flags args r Hn.
  change (String c g +:+ nl) with (String c (g +:+ nl)).
  cbn [directive]. rewrite Hc, Hf.
  destruct (outsideFragment c); [discriminate|].
  destruct args as [|x rest].
  - destruct (scan F g []) as [r'|] eqn:E; [|discriminate].
    rewrite (Hs _ _ Hn E). injection 1 as <-. simpl.
    rewrite <- append_assoc. reflexivity.
  - assert (Hn' : (length rest <= n)%nat) by (simpl in Hn; lia).
    destruct (scan F g rest) as [r'|] eqn:E; [|discriminate].
    rewrite (Hs _ _ Hn' E). injection 1 as <-. simpl.
    rewrite <- append_assoc. reflexivity.
Qed.

Lemma tight_label lab body n :
  verbs body = Some n ->
  forall args r, (length args <= n)%nat ->
    scan F (lab +:+ ": " +:+ body) args = Some r ->
    scan F ((lab +:+ ": " +:+ body) +:+ nl) args = Some (r +:+ nl).
Proof.
  intros Hv.
  assert (H0 : forall args r, (length args <= n)%nat ->
            scan F body args = Some r ->
            scan F (body +:+ nl) args = Some (r +:+ nl)).
  { intros args r Hn E.
    destruct (proj1 (scan_newline body) args n Hv Hn) as (r' & E1 & E2).
    congruence. }
  pose proof (tight_literal " " body n eq_refl H0) as H1.
  pose proof (tight_literal ":" _ n eq_refl H1) as H2.
  pose proof (tight_verb ":" _ n eq_refl eq_refl H1) as H3.
  enough (HT : (forall args r, (length args <= n)%nat ->
              scan F (lab +:+ ": " +:+ body) args = Some r ->
              scan F ((lab +:+ ": " +:+ body) +:+ nl) args = Some (r +:+ nl))
           /\ (forall flags args r, (length args <= n)%nat ->
              directive F (lab +:+ ": " +:+ body) flags args = Some r ->
              directive F ((lab +:+ ": " +:+ body) +:+ nl) flags args
              = Some (r +:+ nl))) by exact (proj1 HT).
  induction lab as [|c lab IH].
  - split; [exact H2|exact H3].
  - change (String c lab +:+ ": " +:+ body) with (String c (lab +:+ ": " +:+ body)).
    apply tight_step. exact IH.
Qed.

Lemma Sprintf_newline c :
  balanced c -> inFragment F c ->
  Sprintf F (fst c +:+ nl) (snd c) = Sprintf F (fst c) (snd c) +:+ nl.
Proof.
  intros (d & body & Hf & Hv) Hin. unfold inFragment in Hin. unfold Sprintf.
  destruct (scan F (fst c) (snd c)) as [r|] eqn:E; [|congruence].
  rewrite Hf in *. unfold labelled in *.
  destruct (String.eqb (l d) "").
  - change ("" +:+ body) with body in *.
    destruct (proj1 (scan_newline body) (snd c) _ Hv (le_n _)) as (r' & E1 & ->).
    congruence.
  - rewrite (append_assoc (l d) ": " body) in *.
    rewrite (tight_label (l d) body _ Hv (snd c) r (le_n _) E). reflexivity.
Qed.

Lemma replay_wprintfer calls : forall w,
  Forall balanced calls -> Forall (inFragment F) calls ->
  replay (wprintfer_Printf F) calls w
  = w +:+ withNewlines (map (render F) calls).
Proof.
  induction calls as [|c calls IH]; intros w Hb Hi.
  - simpl. symmetry. apply append_nil_r.
  - inversion Hb; inversion Hi; subst.
    change (replay (wprintfer_Printf F) (c :: calls) w)
      with (replay (wprintfer_Printf F) calls (wprintfer_Printf F (fst c) (snd c) w)).
    rewrite IH by assumption. unfold wprintfer_Printf.
    rewrite Sprintf_newline by assumption.
    change (withNewlines (map (render F) (c :: calls)))
      with (render F c +:+ nl +:+ withNewlines (map (render F) calls)).
    unfold render. rewrite !append_assoc. reflexivity.
Qed.



(** X3.  Inside a walk entered with printer [d], the sink is only
    appended to, and each new call has a format that starts with the
    label of [d] and is a label with its separator, or nothing, followed
    by a format asking for exactly the operands passed. *)
Theorem walk_calls_labelled fuel d a b s s' :
  diffW F mem order logprintfer_Printf fuel d a b s = Ok s' ->
  exists new, sink s' = sink s ++ new
    /\ Forall (fun c => balanced c /\ exists rest, fst c = l d +:+ rest) new.
Proof.
  intros H.
  pose (R := fun c1 c2 : list (string * list operand) =>
          c1 = c2 /\ exists new, c1 = sink s ++ new
            /\ Forall (fun c => balanced c /\ exists rest, fst c = l d +:+ rest) new).
  pose (Q := fun d' : diffPrinter => exists rest, l d' = l d +:+ rest).
  assert (HW : alikeR R (diffW F mem order logprintfer_Printf fuel d a b s)
                        (diffW F mem order logprintfer_Printf fuel d a b s)).
  { apply (alikeR_diffW F mem order logprintfer_Printf logprintfer_Printf R Q).
    - intros d0 name d1 [rest Hd] Hr. unfold relabel in Hr.
      destruct (String.eqb (l d0) "").
      + injection Hr as <-. exists (rest +:+ name). simpl.
        rewrite Hd. apply append_assoc.
      + destruct name as [|c name]; [discriminate|].
        destruct (negb (Ascii.eqb c "[")); injection Hr as <-; simpl; rewrite Hd.
        * exists (rest +:+ "." +:+ String c name). rewrite !append_assoc. reflexivity.
        * exists (rest +:+ String c name). apply append_assoc.
    - intros d0 f args w1 w2 [rest Hd] Hv [-> (new & -> & Hall)].
      split; [reflexivity|]. exists (new ++ [(labelled d0 f, args)]).
      unfold logprintfer_Printf. split; [symmetry; apply List.app_assoc|].
      apply Forall_app. split; [exact Hall|].
      constructor; [|constructor]. split.
      + exists d0, f. split; [reflexivity|exact Hv].
      + simpl. unfold labelled. destruct (String.eqb (l d0) "") eqn:E.
        * apply String.eqb_eq in E. rewrite E in Hd.
          destruct (l d); [|discriminate]. exists f. reflexivity.
        * rewrite Hd. exists (rest +:+ ": " +:+ f). rewrite !append_assoc. reflexivity.
    - exists "". symmetry. apply append_nil_r.
    - split; [|auto]. split; [reflexivity|]. exists []. split; [|constructor].
      symmetry. apply app_nil_r. }
  rewrite H in HW. destruct HW as [[_ HW] _]. exact HW.
Qed.

(** X4.  When every format that the walk hands to the sink is in the
    fragment of [fmt] that is modelled, [Fdiff] writes the lines that
    [Diff] returns, each followed by a newline, after what the writer
    already holds. *)
Theorem Fdiff_writes_lines fuel w a b calls :
  Ldiff F mem order fuel [] a b = Ok calls ->
  Forall (inFragment F) calls ->
  exists lines, Diff F mem order fuel a b = Ok lines
    /\ Fdiff F mem order fuel w a b = Ok (w +:+ withNewlines lines).
Proof.
  intros HL Hin. exists (map (render F) calls). split.
  - unfold Diff, Pdiff. unfold Ldiff, PdiffTo in HL.
    pose proof (walk_renders fuel (mkPrinter "") a b newStore
                  (mkWalk [] ∅ ∅ 0)) as H.
    destruct (diff F mem order fuel (mkPrinter "") a b newStore) as [s1|p1|],
             (diffW F mem order logprintfer_Printf fuel (mkPrinter "") a b
                (mkWalk [] ∅ ∅ 0)) as [s2|p2|]; simpl in *; try discriminate.
    all: try (exfalso; apply H; repeat split; fail).
    injection HL as <-. destruct H as [-> _]; [repeat split|reflexivity].
  - pose proof (Ldiff_balanced fuel a b calls HL) as Hb.
    unfold Fdiff. unfold Ldiff, PdiffTo in HL. unfold PdiffTo.
    pose proof (walk_replays (wprintfer_Printf F) w fuel (mkPrinter "") a b
                  (mkWalk [] ∅ ∅ 0) (mkWalk w ∅ ∅ 0)) as H.
    destruct (diffW F mem order logprintfer_Printf fuel (mkPrinter "") a b
                (mkWalk [] ∅ ∅ 0)) as [s1|p1|]; simpl in HL; try discriminate.
    injection HL as <-.
    destruct (diffW F mem order (wprintfer_Printf F) fuel (mkPrinter "") a b
                (mkWalk w ∅ ∅ 0)) as [s2|p2|]; simpl in *.
    all: try (exfalso; apply H; repeat split; fail).
    destruct H as [-> _]; [repeat split|].
    rewrite replay_wprintfer by assumption. reflexivity.
Qed.

End Sinks.

Lemma walk_calls_labelled_witness :
  exists new,
    [("x: %d != %d", [OInt 1; OInt 2])] = [] ++ new
    /\ Forall (fun c => balanced c /\ exists rest, fst c = "x" +:+ rest) new.
Proof.
  apply (walk_calls_labelled plainFmt ∅ inOrder 1 (mkPrinter "x")
           (vInt 1) (vInt 2) (mkWalk [] ∅ ∅ 0)
           (mkWalk [("x: %d != %d", [OInt 1; OInt 2])] ∅ ∅ 0)).
  reflexivity.
Defined.

Lemma Fdiff_writes_lines_witness :
  exists lines,
    Diff plainFmt ∅ inOrder 1 (vInt 1) (vInt 2) = Ok lines
    /\ Fdiff plainFmt ∅ inOrder 1 "" (vInt 1) (vInt 2)
       = Ok ("" +:+ withNewlines lines).
Proof.
  apply (Fdiff_writes_lines plainFmt ∅ inOrder 1 "" (vInt 1) (vInt 2)
           [("%d != %d", [OInt 1; OInt 2])]).
  - reflexivity.
  - constructor; [|constructor]. intros H. vm_compute in H. discriminate H.
Defined.


(** ** Every sink is served *)




(** ** No line exactly when the contents are the same *)

Lemma plain_wf mem v : plain v = true -> wf mem v = true.
Proof.
  induction v as [|t a d IH] using Value_parts_ind; intros H; [reflexivity|].
  simpl in *. destruct (tKind t); destruct d; try discriminate H; try reflexivity;
    simpl in IH.
  - apply andb_prop in H as [L H]. rewrite L. simpl.
    apply forallb_forall. intros x Hx. rewrite List.Forall_forall in IH.
    apply IH; [exact Hx|]. rewrite forallb_forall in H. auto.
  - inversion IH; subst. auto.
  - apply forallb_forall. intros x Hx. rewrite List.Forall_forall in IH.
    apply IH; [exact Hx|]. rewrite forallb_forall in H. auto.
  - apply andb_prop in H as [L H]. rewrite L. simpl.
    apply forallb_forall. intros x Hx. rewrite List.Forall_forall in IH.
    apply IH; [exact Hx|]. rewrite forallb_forall in H. auto.
Qed.

(** A walk of plain values reaches no pointer and no map: it does not
    depend on the heap or on the order of map keys. *)
Lemma walk_parts_heap {A} F mem order fuel (lab : A -> diffPrinter) ns xs ys s :
  (forall d x y s, plain x = true -> plain y = true ->
     diff F mem order fuel d x y s = diff F ∅ inOrder fuel d x y s) ->
  forallb plain xs = true -> forallb plain ys = true ->
  foldM (fun '(n, x, y) s => diff F mem order fuel (lab n) x y s)
        (zip (zip ns xs) ys) s
  = foldM (fun '(n, x, y) s => diff F ∅ inOrder fuel (lab n) x y s)
          (zip (zip ns xs) ys) s.
Proof.
  intros IH Hx Hy. apply foldM_ext. intros [[n x] y] s0 Hin.
  apply zip_elems in Hin as [Ix Iy]. rewrite forallb_forall in Hx, Hy.
  apply IH; auto.
Qed.

Lemma diff_plain_heap_any F mem order fuel : forall d a b s,
  plain a = true -> plain b = true ->
  diff F mem order fuel d a b s = diff F ∅ inOrder fuel d a b s.
Proof.
  induction fuel as [|fuel IH]; intros d a b s Ha Hb; [reflexivity|].
  cbn [diff]. destruct a as [|t aa ad], b as [|bt ba bd]; try reflexivity.
  destruct (decide (t = bt)) as [<-|Hne].
  2:{ rewrite !bool_decide_eq_false_2 by exact Hne. reflexivity. }
  rewrite !bool_decide_eq_true_2 by reflexivity. cbn [negb].
  destruct (cycleCheck F d (Val t aa ad) (Val t ba bd) s) as [s1 c].
  destruct c; [reflexivity|].
  simpl in Ha, Hb.
  destruct (tKind t) eqn:Hk; destruct ad; try discriminate Ha;
    destruct bd; try discriminate Hb.
  all: try (unfold diffKind; rewrite Hk; reflexivity).
  - (* Array *)
    apply andb_prop in Ha as [La Ha]. apply andb_prop in Hb as [Lb Hb].
    apply Nat.eqb_eq in La, Lb.
    rewrite !diffKind_array by assumption. apply walk_parts_heap; auto.
  - (* Interface *)
    rewrite !diffKind_iface by assumption. apply IH; auto.
  - (* Slice *)
    destruct (Nat.eqb (length elems) (length elems0)) eqn:E.
    + apply Nat.eqb_eq in E. rewrite !diffKind_slice_eq by assumption.
      apply walk_parts_heap; auto.
    + unfold diffKind. rewrite Hk. simpl. rewrite E. reflexivity.
  - (* Struct *)
    apply andb_prop in Ha as [La Ha]. apply andb_prop in La as [La Na].
    apply andb_prop in Hb as [Lb Hb]. apply andb_prop in Lb as [Lb _].
    apply Nat.eqb_eq in La, Lb.
    rewrite !diffKind_struct by assumption. apply walk_parts_heap; auto.
Qed.

Section Plain.
Variable F : Fmt.
Variable mem : gmap uintptr object.
Variable order : nat -> list Value -> list Value.

Lemma diff_appends fuel d a b s s' :
  diff F mem order fuel d a b s = Ok s' -> exists ls, out s' = out s ++ ls.
Proof.
  apply (diff_invariant F mem order (fun s2 => exists ls, out s2 = out s ++ ls)).
  - intros x s0 [ls H]. exists (ls ++ [x]). simpl. rewrite H.
    symmetry. apply List.app_assoc.
  - intros x y s0 H. exact H.
  - intros s0 n H. exact H.
  - exists []. symmetry. apply List.app_nil_r.
Qed.

Lemma app_same_nil {A} (xs ys : list A) : xs ++ ys = xs -> ys = [].
Proof.
  intros H. apply (f_equal (@length A)) in H. rewrite List.length_app in H.
  destruct ys; [reflexivity|simpl in H; lia].
Qed.

Lemma printf_speaks d f a s : out (printf F d f a s) <> out s.
Proof.
  unfold printf. simpl. intros H. apply app_same_nil in H. discriminate.
Qed.

Lemma plain_parts t a d x :
  plain (Val t a d) = true -> In x (parts d) -> plain x = true.
Proof.
  simpl. intros H Hin.
  destruct (tKind t); destruct d; try discriminate H; simpl in Hin;
    try contradiction.
  - apply andb_prop in H as [_ H]. rewrite forallb_forall in H. auto.
  - destruct Hin as [<-|[]]. exact H.
  - rewrite forallb_forall in H. auto.
  - apply andb_prop in H as [_ H]. rewrite forallb_forall in H. auto.
Qed.

Lemma idents_part t a d x k :
  plain (Val t a d) = true -> In x (parts d) -> In k (idents x) ->
  In k (idents (Val t a d)).
Proof.
  intros H Hin Hk. cbn [idents]. apply in_or_app. right.
  simpl in H. destruct (tKind t); destruct d; try discriminate H;
    simpl in Hin; try contradiction.
  all: try (apply in_flat_map; exists x; split; assumption).
  destruct Hin as [<-|[]]. exact Hk.
Qed.

Lemma reach_idents x w k :
  reach ∅ x w -> plain x = true -> ident w = Some k -> In k (idents x).
Proof.
  induction 1 as [v|v|t a d x w Hin Hr IH|t a p tp dp w Hm Hr IH];
    intros Hp Hi.
  - destruct v as [|t [p|] d]; try discriminate. injection Hi as <-.
    left. reflexivity.
  - discriminate.
  - eapply idents_part; eauto. apply IH; auto. eapply plain_parts; eauto.
  - rewrite lookup_empty in Hm. discriminate Hm.
Qed.

(** After a walk of [x] and [y], what is recorded on the left and was not
    before is an identity of [x], and on the right one of [y]. *)
Lemma diff_records fuel d x y s s' :
  plain x = true -> plain y = true ->
  diff F mem order fuel d x y s = Ok s' ->
  (forall k, aVisited s' !! k = None \/ aVisited s' !! k = aVisited s !! k
             \/ In k (idents x))
  /\ (forall k, bVisited s' !! k = None \/ bVisited s' !! k = bVisited s !! k
             \/ In k (idents y)).
Proof.
  intros Hx Hy H. rewrite (diff_plain_heap_any F mem order) in H by assumption.
  destruct (diff_fromPair F ∅ inOrder fuel d x y s s' H) as [Ha Hb].
  split; intros k.
  - destruct (aVisited s' !! k) as [v|] eqn:E; [|auto]. right.
    destruct (Ha k v E) as [->|(x' & y' & Rx & Ry & Ix & Iy)]; [auto|].
    right. eapply reach_idents; eauto.
  - destruct (bVisited s' !! k) as [v|] eqn:E; [|auto]. right.
    destruct (Hb k v E) as [->|(x' & y' & Rx & Ry & Ix & Iy)]; [auto|].
    right. eapply reach_idents; eauto.
Qed.

Lemma NoDup_app_parts {A} (xs ys : list A) :
  NoDup (xs ++ ys) ->
  NoDup xs /\ NoDup ys /\ forall k, In k xs -> In k ys -> False.
Proof.
  intros H. apply NoDup_app in H as (H1 & H2 & H3). repeat apply conj; auto.
  intros k Hx Hy. apply list_elem_of_In in Hx, Hy. exact (H2 k Hx Hy).
Qed.

(** The loops over elements and fields. *)
Lemma walk_parts_sound {A} fuel (lab : A -> diffPrinter) :
  (forall d a b s s', plain a = true -> plain b = true -> NoDup (idents a) ->
     unseen a (aVisited s) -> diff F mem order fuel d a b s = Ok s' ->
     out s' = out s -> content a = content b) ->
  forall xs ys (ns : list A) s s',
    length ys = length xs ->
    forallb plain xs = true -> forallb plain ys = true ->
    NoDup (flat_map idents xs) ->
    (forall k, In k (flat_map idents xs) -> aVisited s !! k = None) ->
    foldM (fun '(n, x, y) s => diff F mem order fuel (lab n) x y s)
          (zip (zip ns xs) ys) s = Ok s' ->
    out s' = out s ->
    length ns = length xs ->
    map content xs = map content ys.
Proof.
  intros IH. induction xs as [|x xs IHxs]; intros [|y ys] ns s s' Hl Hx Hy Hnd Hf H Ho Hn;
    try discriminate; [reflexivity|].
  destruct ns as [|n ns]; [discriminate|].
  simpl in Hx, Hy. apply andb_prop in Hx as [Hx Hxs]. apply andb_prop in Hy as [Hy Hys].
  cbn [flat_map] in Hnd, Hf. apply NoDup_app_parts in Hnd as (Hnx & Hnxs & Hdis).
  cbn [zip zip_with foldM] in H. apply bind_Ok in H as (s1 & H1 & H2).
  destruct (diff_appends _ _ _ _ _ _ H1) as [l1 E1].
  assert (E2 : exists l2, out s' = out s1 ++ l2).
  { revert H2. apply (foldM_invariant (fun s2 => exists l2, out s2 = out s1 ++ l2)).
    - intros [[n' x'] y'] t t' _ [l2 E] Ht.
      destruct (diff_appends _ _ _ _ _ _ Ht) as [l3 E3].
      exists (l2 ++ l3). rewrite E3, E. symmetry. apply List.app_assoc.
    - exists []. symmetry. apply List.app_nil_r. }
  destruct E2 as [l2 E2].
  assert (l1 = [] /\ l2 = []) as [-> ->].
  { rewrite E2, E1, <- List.app_assoc in Ho. apply app_same_nil in Ho.
    apply app_eq_nil in Ho. exact Ho. }
  rewrite List.app_nil_r in E1, E2.
  simpl. f_equal.
  - apply (IH (lab n) x y s s1); auto.
    intros k Hk. apply Hf. apply in_or_app. left. exact Hk.
  - apply (IHxs ys ns s1 s'); auto; try congruence.
    intros k Hk.
    destruct (proj1 (diff_records _ _ _ _ _ _ Hx Hy H1) k) as [E|[E|E]].
    + exact E.
    + rewrite E. apply Hf. apply in_or_app. right. exact Hk.
    + exfalso. exact (Hdis k E Hk).
Qed.

Lemma unseen_parts t aa ad m :
  NoDup (idents (Val t aa ad)) -> unseen (Val t aa ad) m ->
  unseen (Val t None ad) m /\ NoDup (idents (Val t None ad)).
Proof.
  intros Hnd Hf. split.
  - intros k Hk. apply Hf. cbn [idents] in *. apply in_or_app. right. exact Hk.
  - cbn [idents] in *. apply NoDup_app_parts in Hnd as (_ & H & _). exact H.
Qed.

Lemma unseen_insert t pa ad m v :
  NoDup (idents (Val t (Some pa) ad)) -> unseen (Val t (Some pa) ad) m ->
  unseen (Val t None ad) (<[(pa, t) := v]> m).
Proof.
  intros Hnd Hf k Hk. cbn [idents] in Hnd, Hk.
  apply NoDup_cons in Hnd as [Hnot _].
  rewrite lookup_insert_ne.
  - apply Hf. right. exact Hk.
  - intros <-. apply Hnot. apply list_elem_of_In. exact Hk.
Qed.

Lemma cycleCheck_unseen d t aa ad bt ba bd s s1 c :
  NoDup (idents (Val t aa ad)) -> unseen (Val t aa ad) (aVisited s) ->
  cycleCheck F d (Val t aa ad) (Val bt ba bd) s = (s1, c) ->
  (c = true /\ out s1 <> out s)
  \/ (c = false /\ out s1 = out s /\ unseen (Val t None ad) (aVisited s1)).
Proof.
  intros Hnd Hf Hc. unfold cycleCheck in Hc.
  destruct (unseen_parts _ _ _ _ Hnd Hf) as [Hf' _].
  destruct aa as [pa|], ba as [pb|];
    try (injection Hc as <- <-; right; repeat apply conj; tauto).
  rewrite (Hf (pa, t)) in Hc by (left; reflexivity).
  destruct (bVisited s !! (pb, bt)) eqn:Eb.
  - injection Hc as <- <-. left. split; [reflexivity|]. simpl.
    intros H. apply app_same_nil in H. discriminate.
  - injection Hc as <- <-. right. repeat apply conj; auto.
    simpl. apply unseen_insert; assumption.
Qed.

Lemma scalar_sound (c : bool) d f a s1 s s' :
  Ok (if negb c then printf F d f a s1 else s1) = Ok s' ->
  out s1 = out s -> out s' = out s -> c = true.
Proof.
  intros H H1 Ho. destruct c; [reflexivity|]. simpl in H. injection H as <-.
  rewrite <- H1 in Ho. exfalso. exact (printf_speaks _ _ _ _ Ho).
Qed.

Lemma plain_sound fuel : forall d a b s s',
  plain a = true -> plain b = true -> NoDup (idents a) ->
  unseen a (aVisited s) -> diff F mem order fuel d a b s = Ok s' ->
  out s' = out s -> content a = content b.
Proof.
  induction fuel as [|fuel IH]; intros d a b s s' Ha Hb Hnd Hf H Ho; [discriminate|].
  cbn [diff] in H. destruct a as [|t aa ad], b as [|bt ba bd].
  - reflexivity.
  - injection H as <-. exfalso. exact (printf_speaks _ _ _ _ Ho).
  - injection H as <-. exfalso. exact (printf_speaks _ _ _ _ Ho).
  - destruct (decide (t = bt)) as [<-|Hne].
    2:{ rewrite bool_decide_eq_false_2 in H by exact Hne. injection H as <-.
        exfalso. exact (printf_speaks _ _ _ _ Ho). }
    rewrite bool_decide_eq_true_2 in H by reflexivity. cbn [negb] in H.
    destruct (cycleCheck F d (Val t aa ad) (Val t ba bd) s) as [s1 c] eqn:Hc.
    destruct (cycleCheck_unseen _ _ _ _ _ _ _ _ _ _ Hnd Hf Hc)
      as [[-> Hs1]|(-> & Hs1 & Hf1)].
    { injection H as <-. contradiction. }
    destruct (unseen_parts _ _ _ _ Hnd Hf) as [_ Hnd1].
    assert (Ho1 : out s' = out s1) by congruence.
    clear Hc Hf Hnd Ho Hs1 s.
    cbn [idents app] in Hf1, Hnd1. unfold unseen in Hf1. cbn [idents app] in Hf1.
    simpl in Ha, Hb. cbn [content].
    destruct (tKind t) eqn:Hk; destruct ad; try discriminate Ha;
      destruct bd; try discriminate Hb.
    all: try (unfold diffKind in H; rewrite Hk in H; simpl in H;
              apply scalar_sound with (s := s1) in H; [|reflexivity|exact Ho1];
              first [ apply Bool.eqb_prop in H | apply Z.eqb_eq in H
                    | apply N.eqb_eq in H | apply String.eqb_eq in H ];
              subst; reflexivity).
    + (* Array *)
      apply andb_prop in Ha as [La Ha]. apply andb_prop in Hb as [Lb Hb].
      apply Nat.eqb_eq in La, Lb.
      rewrite (diffKind_array F mem order) in H by assumption.
      do 2 f_equal.
      apply (walk_parts_sound fuel (indexLabel d) IH elems elems0
               (seq 0 (length elems)) s1 s'); auto.
      * congruence.
      * apply length_seq.
    + (* Interface *)
      rewrite (diffKind_iface F mem order) in H by assumption.
      do 2 f_equal. apply (IH d e e0 s1 s'); auto.
    + (* Slice *)
      destruct (Nat.eqb (length elems) (length elems0)) eqn:E.
      2:{ unfold diffKind in H. rewrite Hk in H. simpl in H. rewrite E in H.
          simpl in H. injection H as <-. exfalso.
          exact (printf_speaks _ _ _ _ Ho1). }
      apply Nat.eqb_eq in E.
      rewrite (diffKind_slice_eq F mem order) in H by assumption.
      do 2 f_equal.
      apply (walk_parts_sound fuel (indexLabel d) IH elems elems0
               (seq 0 (length elems)) s1 s'); auto.
      apply length_seq.
    + (* Struct *)
      apply andb_prop in Ha as [La Ha]. apply andb_prop in La as [La Na].
      apply andb_prop in Hb as [Lb Hb]. apply andb_prop in Lb as [Lb _].
      apply Nat.eqb_eq in La, Lb.
      rewrite (diffKind_struct F mem order) in H by assumption.
      do 2 f_equal.
      apply (walk_parts_sound fuel (fieldLabel d) IH fields fields0
               (tFields t) s1 s'); auto.
      congruence.
Qed.


Lemma cycleCheck_quiet d t aa ad bt ba bd s s1 c :
  NoDup (idents (Val t aa ad)) -> NoDup (idents (Val bt ba bd)) ->
  unseen (Val t aa ad) (aVisited s) -> unseen (Val bt ba bd) (bVisited s) ->
  cycleCheck F d (Val t aa ad) (Val bt ba bd) s = (s1, c) ->
  c = false /\ out s1 = out s /\ unseen (Val t None ad) (aVisited s1)
  /\ unseen (Val bt None bd) (bVisited s1).
Proof.
  intros Hna Hnb Hfa Hfb Hc. unfold cycleCheck in Hc.
  destruct (unseen_parts _ _ _ _ Hna Hfa) as [Hfa' _].
  destruct (unseen_parts _ _ _ _ Hnb Hfb) as [Hfb' _].
  destruct aa as [pa|], ba as [pb|];
    try (injection Hc as <- <-; repeat apply conj; tauto).
  rewrite (Hfa (pa, t)) in Hc by (left; reflexivity).
  rewrite (Hfb (pb, bt)) in Hc by (left; reflexivity).
  injection Hc as <- <-. repeat apply conj; auto; simpl.
  - apply unseen_insert; assumption.
  - apply unseen_insert; assumption.
Qed.

Lemma walk_parts_quiet {A} fuel (lab : A -> diffPrinter) :
  (forall d a b s s', plain a = true -> plain b = true ->
     NoDup (idents a) -> NoDup (idents b) ->
     unseen a (aVisited s) -> unseen b (bVisited s) ->
     content a = content b ->
     diff F mem order fuel d a b s = Ok s' -> out s' = out s) ->
  forall xs ys (ns : list A) s s',
    map content xs = map content ys ->
    forallb plain xs = true -> forallb plain ys = true ->
    NoDup (flat_map idents xs) -> NoDup (flat_map idents ys) ->
    (forall k, In k (flat_map idents xs) -> aVisited s !! k = None) ->
    (forall k, In k (flat_map idents ys) -> bVisited s !! k = None) ->
    foldM (fun '(n, x, y) s => diff F mem order fuel (lab n) x y s)
          (zip (zip ns xs) ys) s = Ok s' ->
    out s' = out s.
Proof.
  intros IH. induction xs as [|x xs IHxs];
    intros [|y ys] ns s s' Hc Hx Hy Hna Hnb Hfa Hfb H; try discriminate.
  - destruct ns; simpl in H; injection H as <-; reflexivity.
  - destruct ns as [|n ns]; [simpl in H; injection H as <-; reflexivity|].
    simpl in Hc. injection Hc as Hc Hcs.
    simpl in Hx, Hy. apply andb_prop in Hx as [Hx Hxs].
    apply andb_prop in Hy as [Hy Hys].
    cbn [flat_map] in Hna, Hnb, Hfa, Hfb.
    apply NoDup_app_parts in Hna as (Hnx & Hnxs & Hdx).
    apply NoDup_app_parts in Hnb as (Hny & Hnys & Hdy).
    cbn [zip zip_with foldM] in H. apply bind_Ok in H as (s1 & H1 & H2).
    assert (E1 : out s1 = out s).
    { apply (IH (lab n) x y s s1); auto.
      - intros k Hk. apply Hfa. apply in_or_app. left. exact Hk.
      - intros k Hk. apply Hfb. apply in_or_app. left. exact Hk. }
    rewrite <- E1. apply (IHxs ys ns s1 s'); auto.
    + intros k Hk.
      destruct (proj1 (diff_records _ _ _ _ _ _ Hx Hy H1) k) as [E|[E|E]].
      * exact E.
      * rewrite E. apply Hfa. apply in_or_app. right. exact Hk.
      * exfalso. exact (Hdx k E Hk).
    + intros k Hk.
      destruct (proj2 (diff_records _ _ _ _ _ _ Hx Hy H1) k) as [E|[E|E]].
      * exact E.
      * rewrite E. apply Hfb. apply in_or_app. right. exact Hk.
      * exfalso. exact (Hdy k E Hk).
Qed.

Lemma plain_complete fuel : forall d a b s s',
  plain a = true -> plain b = true -> NoDup (idents a) -> NoDup (idents b) ->
  unseen a (aVisited s) -> unseen b (bVisited s) -> content a = content b ->
  diff F mem order fuel d a b s = Ok s' -> out s' = out s.
Proof.
  induction fuel as [|fuel IH];
    intros d a b s s' Ha Hb Hna Hnb Hfa Hfb Hc H; [discriminate|].
  cbn [diff] in H. destruct a as [|t aa ad], b as [|bt ba bd]; try discriminate Hc.
  - injection H as <-. reflexivity.
  - cbn [content] in Hc. injection Hc as <- Hd.
    rewrite bool_decide_eq_true_2 in H by reflexivity. cbn [negb] in H.
    destruct (cycleCheck F d (Val t aa ad) (Val t ba bd) s) as [s1 c] eqn:Hcc.
    destruct (cycleCheck_quiet _ _ _ _ _ _ _ _ _ _ Hna Hnb Hfa Hfb Hcc)
      as (-> & Hs1 & Hfa1 & Hfb1).
    destruct (unseen_parts _ _ _ _ Hna Hfa) as [_ Hna1].
    destruct (unseen_parts _ _ _ _ Hnb Hfb) as [_ Hnb1].
    rewrite <- Hs1. clear Hcc Hfa Hfb Hna Hnb Hs1 s.
    unfold unseen in Hfa1, Hfb1. cbn [idents app] in Hfa1, Hfb1, Hna1, Hnb1.
    simpl in Ha, Hb.
    destruct (tKind t) eqn:Hk; destruct ad; try discriminate Ha;
      destruct bd; try discriminate Hb; injection Hd as Hd.
    all: try (subst; unfold diffKind in H; rewrite Hk in H; simpl in H;
              rewrite ?Bool.eqb_reflx, ?Z.eqb_refl, ?N.eqb_refl, ?String.eqb_refl in H;
              simpl in H; injection H as <-; reflexivity).
    + (* Array *)
      apply andb_prop in Ha as [La Ha]. apply andb_prop in Hb as [Lb Hb].
      apply Nat.eqb_eq in La, Lb.
      rewrite (diffKind_array F mem order) in H by assumption.
      apply (walk_parts_quiet fuel (indexLabel d) IH elems elems0
               (seq 0 (length elems)) s1 s'); auto.
    + (* Interface *)
      rewrite (diffKind_iface F mem order) in H by assumption.
      apply (IH d e e0 s1 s'); auto.
    + (* Slice *)
      assert (E : length elems = length elems0).
      { apply (f_equal (@length Value)) in Hd. rewrite !length_map in Hd. exact Hd. }
      rewrite (diffKind_slice_eq F mem order) in H by assumption.
      apply (walk_parts_quiet fuel (indexLabel d) IH elems elems0
               (seq 0 (length elems)) s1 s'); auto.
    + (* Struct *)
      apply andb_prop in Ha as [La Ha]. apply andb_prop in La as [La Na].
      apply andb_prop in Hb as [Lb Hb]. apply andb_prop in Lb as [Lb _].
      apply Nat.eqb_eq in La, Lb.
      rewrite (diffKind_struct F mem order) in H by assumption.
      apply (walk_parts_quiet fuel (fieldLabel d) IH fields fields0
               (tFields t) s1 s'); auto.
Qed.

Lemma diff_plain_heap fuel d a b s :
  plain a = true -> plain b = true ->
  diff F mem order fuel d a b s = diff F ∅ inOrder fuel d a b s.
Proof. apply diff_plain_heap_any. Qed.

(** X5.  Soundness of an empty report: when [Diff] returns no line for
    two plain values, of which the left one has no two parts at one
    identity, the two values hold the same contents. *)
Theorem Diff_plain_sound fuel a b :
  plain a = true -> plain b = true -> NoDup (idents a) ->
  Diff F mem order fuel a b = Ok [] -> content a = content b.
Proof.
  intros Ha Hb Hnd H. unfold Diff, Pdiff in H.
  apply bind_Ok in H as (s' & H & Ho). injection Ho as Ho.
  apply (plain_sound fuel (mkPrinter "") a b newStore s'); auto.
  intros k _. apply lookup_empty.
Qed.

(** X6.  Completeness of the report: for two plain values with the same
    contents, each without two parts at one identity, [Diff] returns, from
    some depth on, and returns no line. *)
Theorem Diff_plain_complete a b :
  plain a = true -> plain b = true -> NoDup (idents a) -> NoDup (idents b) ->
  content a = content b ->
  exists f0, forall fuel, (f0 <= fuel)%nat -> Diff F mem order fuel a b = Ok [].
Proof.
  intros Ha Hb Hna Hnb Hc.
  assert (Hheap : wfHeap ∅).
  { intros p t d H. rewrite lookup_empty in H. discriminate H. }
  assert (Horder : forall n ks, Permutation (inOrder n ks) ks).
  { intros n ks. reflexivity. }
  destruct (diff_halts F ∅ inOrder Hheap Horder (mkPrinter "") a b newStore
              (plain_wf ∅ a Ha) (plain_wf ∅ b Hb)) as (f0 & s' & H).
  exists f0. intros fuel Hle. unfold Diff, Pdiff.
  rewrite (diff_plain_heap fuel (mkPrinter "") a b newStore Ha Hb), (H fuel Hle).
  simpl. f_equal.
  specialize (H fuel Hle).
  rewrite <- (diff_plain_heap fuel (mkPrinter "") a b newStore Ha Hb) in H.
  apply (plain_complete fuel (mkPrinter "") a b newStore s'); auto.
  - intros k _. apply lookup_empty.
  - intros k _. apply lookup_empty.
Qed.

End Plain.

Lemma slice12_NoDup : NoDup (idents slice12).
Proof. apply (bool_decide_unpack _). vm_compute. exact Logic.I. Qed.

Lemma slice12b_NoDup : NoDup (idents slice12b).
Proof. apply (bool_decide_unpack _). vm_compute. exact Logic.I. Qed.

Lemma Diff_plain_sound_witness : content slice12 = content slice12b.
Proof.
  apply (Diff_plain_sound plainFmt ∅ inOrder 2 slice12 slice12b).
  - reflexivity.
  - reflexivity.
  - exact slice12_NoDup.
  - reflexivity.
Defined.

Lemma Diff_plain_complete_witness :
  exists f0, forall fuel, (f0 <= fuel)%nat ->
    Diff plainFmt ∅ inOrder fuel slice12 slice12b = Ok [].
Proof.
  apply (Diff_plain_complete plainFmt ∅ inOrder slice12 slice12b).
  - reflexivity.
  - reflexivity.
  - exact slice12_NoDup.
  - exact slice12b_NoDup.
  - reflexivity.
Defined.


(** ** The form of the lines *)

Lemma noPercent_app x y : noPercent (x +:+ y) = noPercent x && noPercent y.
Proof.
  induction x as [|c x IH]; [reflexivity|].
  change (String c x +:+ y) with (String c (x +:+ y)). simpl. rewrite IH.
  apply andb_assoc.
Qed.

Lemma noPercent_uint u : noPercent (NilEmpty.string_of_uint u) = true.
Proof. induction u; simpl; auto. Qed.

Lemma noPercent_decimal n : noPercent (decimal n) = true.
Proof.
  unfold decimal, NilZero.string_of_int, NilZero.string_of_uint.
  destruct (Z.to_int n) as [u|u]; destruct u; try reflexivity;
    try apply (noPercent_uint (Decimal.D0 u));
    rewrite ?noPercent_uint; simpl; rewrite ?noPercent_uint; reflexivity.
Qed.

Lemma noPercent_indexLabel d i :
  noPercent (l d) = true -> noPercent (l (indexLabel d i)) = true.
Proof.
  intros H. unfold indexLabel. cbn [l].
  rewrite !noPercent_app, H, noPercent_decimal. reflexivity.
Qed.

Lemma noPercent_fieldLabel d name :
  noPercent (l d) = true -> noPercent name = true ->
  noPercent (l (fieldLabel d name)) = true.
Proof.
  intros H Hn. unfold fieldLabel. cbn [l].
  destruct (String.eqb (l d) ""); [exact Hn|].
  destruct name as [|c name]; rewrite ?noPercent_app, ?H; try reflexivity.
  destruct (Ascii.eqb_spec c "[") as [->|Hc].
  - rewrite noPercent_app, H. exact Hn.
  - assert (E : match c with
                | "["%char => l d +:+ String c name
                | _ => (l d +:+ ".") +:+ String c name
                end = (l d +:+ ".") +:+ String c name).
    { destruct c as [[] [] [] [] [] [] [] []]; try reflexivity. congruence. }
    rewrite E, !noPercent_app, H. exact Hn.
Qed.

Lemma namesPlain_parts t a d x :
  namesPlain (Val t a d) = true -> In x (parts d) -> namesPlain x = true.
Proof.
  simpl. intros H Hin. apply andb_prop in H as [_ H].
  destruct d; simpl in Hin; try contradiction.
  - rewrite forallb_forall in H. auto.
  - rewrite forallb_forall in H. auto.
  - rewrite forallb_forall in H. auto.
  - destruct Hin as [<-|[]]. exact H.
  - rewrite forallb_forall in H. apply in_app_or in Hin as [Hin|Hin];
      apply in_map_iff in Hin as (e & <- & He); specialize (H e He);
      apply andb_prop in H; tauto.
Qed.

Section Lines.
Variable F : Fmt.
Variable mem : gmap uintptr object.
Variable order : nat -> list Value -> list Value.

Lemma printf_labelled d f args s :
  noPercent (l d) = true -> verbs f = Some (length args) ->
  Forall (labelledLine F) (out s) ->
  Forall (labelledLine F) (out (printf F d f args s)).
Proof.
  intros Hl Hv Hs. unfold printf. simpl. apply Forall_app. split; [exact Hs|].
  constructor; [|constructor]. exists (l d), f, args.
  repeat apply conj; auto.
  destruct (proj1 (scan_newline F f) args _ Hv (le_n _)) as (r & Hr & _).
  rewrite (line_plain_label F d f args r Hl Hr). unfold Sprintf. rewrite Hr.
  destruct (String.eqb (l d) ""); [reflexivity|].
  symmetry. apply append_assoc.
Qed.

Lemma cycleCheck_labelled d av bv s s1 c :
  noPercent (l d) = true -> Forall (labelledLine F) (out s) ->
  cycleCheck F d av bv s = (s1, c) -> Forall (labelledLine F) (out s1).
Proof.
  intros Hl Hs H. unfold cycleCheck in H.
  destruct av as [|at_ [pa|] ad]; try (injection H as <- <-; exact Hs).
  destruct bv as [|bt [pb|] bd]; try (injection H as <- <-; exact Hs).
  destruct (aVisited s !! (pa, at_)) as [vis|].
  - destruct (negb (bool_decide (vis = (pb, bt)))); injection H as <- <-; simpl;
      [apply printf_labelled; auto|exact Hs].
  - destruct (bVisited s !! (pb, bt)); injection H as <- <-; simpl;
      [apply printf_labelled; auto|exact Hs].
Qed.

Lemma walk_parts_labelled {A} fuel (lab : A -> diffPrinter) (ok : A -> Prop) :
  (forall d a b s s', plain a = true -> plain b = true ->
     namesPlain a = true -> noPercent (l d) = true ->
     diff F mem order fuel d a b s = Ok s' ->
     Forall (labelledLine F) (out s) -> Forall (labelledLine F) (out s')) ->
  (forall n, ok n -> noPercent (l (lab n)) = true) ->
  forall ns xs ys s s',
    Forall ok ns ->
    forallb plain xs = true -> forallb plain ys = true ->
    forallb namesPlain xs = true ->
    foldM (fun '(n, x, y) s => diff F mem order fuel (lab n) x y s)
          (zip (zip ns xs) ys) s = Ok s' ->
    Forall (labelledLine F) (out s) -> Forall (labelledLine F) (out s').
Proof.
  intros IH Hlab ns xs ys s s' Hns Hx Hy Hn H Hs.
  refine (foldM_invariant (fun s2 => Forall (labelledLine F) (out s2))
            _ _ _ s s' Hs H).
  intros [[n x] y] t t' Hin Ht Hd.
  pose proof (zip_elems _ _ _ _ _ _ Hin) as [Ix Iy].
  assert (In_n : In n ns).
  { apply list_elem_of_In in Hin. apply elem_of_zip_l in Hin.
    apply elem_of_zip_l in Hin. apply list_elem_of_In. exact Hin. }
  rewrite forallb_forall in Hx, Hy, Hn. rewrite List.Forall_forall in Hns.
  apply (IH (lab n) x y t t'); auto.
Qed.

Lemma plain_labelled fuel : forall d a b s s',
  plain a = true -> plain b = true -> namesPlain a = true ->
  noPercent (l d) = true ->
  diff F mem order fuel d a b s = Ok s' ->
  Forall (labelledLine F) (out s) -> Forall (labelledLine F) (out s').
Proof.
  induction fuel as [|fuel IH]; intros d a b s s' Ha Hb Hn Hl H Hs; [discriminate|].
  cbn [diff] in H. destruct a as [|t aa ad], b as [|bt ba bd].
  - injection H as <-. exact Hs.
  - injection H as <-. apply printf_labelled; auto.
  - injection H as <-. apply printf_labelled; auto.
  - destruct (decide (t = bt)) as [<-|Hne].
    2:{ rewrite bool_decide_eq_false_2 in H by exact Hne. injection H as <-.
        apply printf_labelled; auto. }
    rewrite bool_decide_eq_true_2 in H by reflexivity. cbn [negb] in H.
    destruct (cycleCheck F d (Val t aa ad) (Val t ba bd) s) as [s1 c] eqn:Hc.
    pose proof (cycleCheck_labelled _ _ _ _ _ _ Hl Hs Hc) as Hs1.
    destruct c; [injection H as <-; exact Hs1|].
    clear Hc Hs s.
    assert (Hparts : forall x, In x (parts ad) -> namesPlain x = true).
    { intros x. apply (namesPlain_parts t aa ad x Hn). }
    assert (Hnames : Forall (fun n => noPercent n = true) (tFields t)).
    { simpl in Hn. apply andb_prop in Hn as [Hn _].
      apply List.Forall_forall. rewrite forallb_forall in Hn. exact Hn. }
    simpl in Ha, Hb.
    destruct (tKind t) eqn:Hk; destruct ad; try discriminate Ha;
      destruct bd; try discriminate Hb.
    all: try (unfold diffKind in H; rewrite Hk in H; simpl in H;
              match type of H with
              | Ok (if ?c then _ else _) = _ =>
                  destruct c; injection H as <-;
                  [apply printf_labelled; auto|exact Hs1]
              end).
    + (* Array *)
      apply andb_prop in Ha as [La Ha]. apply andb_prop in Hb as [Lb Hb].
      apply Nat.eqb_eq in La, Lb.
      rewrite (diffKind_array F mem order) in H by assumption.
      apply (walk_parts_labelled fuel (indexLabel d) (fun _ => True) IH
               ltac:(intros; apply noPercent_indexLabel; exact Hl)
               _ _ _ _ _ ltac:(apply List.Forall_forall; auto) Ha Hb
               ltac:(apply forallb_forall; exact Hparts) H Hs1).
    + (* Interface *)
      rewrite (diffKind_iface F mem order) in H by assumption.
      apply (IH d e e0 s1 s'); auto. apply Hparts. left. reflexivity.
    + (* Slice *)
      destruct (Nat.eqb (length elems) (length elems0)) eqn:E.
      2:{ unfold diffKind in H. rewrite Hk in H. simpl in H. rewrite E in H.
          simpl in H. injection H as <-. apply printf_labelled; auto. }
      apply Nat.eqb_eq in E.
      rewrite (diffKind_slice_eq F mem order) in H by assumption.
      apply (walk_parts_labelled fuel (indexLabel d) (fun _ => True) IH
               ltac:(intros; apply noPercent_indexLabel; exact Hl)
               _ _ _ _ _ ltac:(apply List.Forall_forall; auto) Ha Hb
               ltac:(apply forallb_forall; exact Hparts) H Hs1).
    + (* Struct *)
      apply andb_prop in Ha as [La Ha]. apply andb_prop in La as [La Na].
      apply andb_prop in Hb as [Lb Hb]. apply andb_prop in Lb as [Lb _].
      apply Nat.eqb_eq in La, Lb.
      rewrite (diffKind_struct F mem order) in H by assumption.
      apply (walk_parts_labelled fuel (fieldLabel d)
               (fun n => noPercent n = true) IH
               ltac:(intros; apply noPercent_fieldLabel; assumption)
               _ _ _ _ _ Hnames Ha Hb
               ltac:(apply forallb_forall; exact Hparts) H Hs1).
Qed.


End Lines.



(** ** Key matching is an equivalence that looks at contents only *)

Lemma eachEqual_true eq n bAt xs : forall i,
  eachEqual eq n bAt xs i = Ok true <->
  forall j, (i <= j < n)%nat ->
    exists x y, nth_error xs (j - i) = Some x /\ bAt j = Ok y /\ eq x y = Ok true.
Proof.
  induction xs as [|x xs IH]; intros i; simpl.
  - destruct (Nat.ltb i n) eqn:E.
    + apply Nat.ltb_lt in E. split; [discriminate|].
      intros H. destruct (H i (conj (le_n _) E)) as (x & y & Hx & _).
      rewrite Nat.sub_diag in Hx. discriminate.
    + apply Nat.ltb_ge in E. split; [|reflexivity]. intros _ j Hj. lia.
  - destruct (Nat.ltb i n) eqn:E.
    + apply Nat.ltb_lt in E. split.
      * intros H. apply bind_Ok in H as (y & Hy & H).
        apply bind_Ok in H as (r & Hr & H). destruct r; [|discriminate].
        intros j Hj. destruct (decide (j = i)) as [->|Hne].
        -- rewrite Nat.sub_diag. exists x, y. auto.
        -- destruct (proj1 (IH (S i)) H j ltac:(lia)) as (x' & y' & Hx' & Hy' & He).
           exists x', y'. repeat apply conj; auto.
           replace (j - i)%nat with (S (j - S i)) by lia. exact Hx'.
      * intros H. destruct (H i ltac:(lia)) as (x' & y & Hx' & Hy & He).
        rewrite Nat.sub_diag in Hx'. injection Hx' as <-.
        rewrite Hy. simpl. rewrite He. simpl. apply IH. intros j Hj.
        destruct (H j ltac:(lia)) as (x' & y' & Hx' & Hy' & He').
        exists x', y'. repeat apply conj; auto.
        replace (j - i)%nat with (S (j - S i)) in Hx' by lia. exact Hx'.
    + apply Nat.ltb_ge in E. split; [|reflexivity]. intros _ j Hj. lia.
Qed.

Lemma SFeqb_true a b :
  SFeqb a b = true ->
  (exists s s', a = S754_zero s /\ b = S754_zero s') \/ (a = b /\ isNaN a = false).
Proof.
  unfold SFeqb, SFcompare.
  destruct a as [sa|sa| |sa ma ea], b as [sb|sb| |sb mb eb]; try discriminate;
    try (destruct sa; discriminate); try (destruct sb; discriminate).
  - intros _. left. eauto.
  - destruct sa, sb; try discriminate; intros _; right; split; reflexivity.
  - change (PosDef.Pos.compare_cont Eq ma mb) with (Pos.compare ma mb).
    intros H. right. split; [|reflexivity].
    destruct sa, sb; try discriminate;
      destruct (ea ?= eb)%Z eqn:Ee; try discriminate;
      destruct (ma ?= mb)%positive eqn:Em; try discriminate;
      apply Z.compare_eq in Ee; apply Pos.compare_eq in Em; subst; reflexivity.
Qed.

Lemma SFeqb_trans a b c :
  SFeqb a b = true -> SFeqb b c = true -> SFeqb a c = true.
Proof.
  intros H1 H2.
  destruct (SFeqb_true _ _ H1) as [(s & s' & -> & ->)|[-> Ha]].
  - destruct (SFeqb_true _ _ H2) as [(t & t' & _ & ->)|[<- _]]; reflexivity.
  - exact H2.
Qed.

Lemma Value_Index_nth v j y :
  Value_Index v j = Ok y ->
  exists t a xs, (v = Val t a (DArray xs) \/ v = Val t a (DSlice xs))
                 /\ nth_error xs j = Some y.
Proof.
  destruct v as [|t a []]; simpl; try discriminate.
  - destruct (Nat.ltb j (tLen t)); [|discriminate].
    destruct (nth_error elems j) eqn:E; [|discriminate]. injection 1 as <-.
    exists t, a, elems. auto.
  - destruct (nth_error elems j) eqn:E; [|discriminate]. injection 1 as <-.
    exists t, a, elems. auto.
Qed.

Lemma Value_Field_nth v j y :
  Value_Field v j = Ok y ->
  exists t a xs, v = Val t a (DStruct xs) /\ nth_error xs j = Some y.
Proof.
  destruct v as [|t a []]; simpl; try discriminate.
  destruct (Nat.ltb j (length (tFields t))); [|discriminate].
  destruct (nth_error fields j) eqn:E; [|discriminate]. injection 1 as <-.
  exists t, a, fields. auto.
Qed.

(** The loop of [keyEqual] over parts, for three values. *)
Lemma eachEqual_trans n (bAt cAt : nat -> result Value) xs ys :
  Forall (fun x => forall b c, keyEqual x b = Ok true -> keyEqual b c = Ok true ->
                               keyEqual x c = Ok true) xs ->
  (forall j y, bAt j = Ok y -> nth_error ys j = Some y) ->
  eachEqual keyEqual n bAt xs 0 = Ok true ->
  eachEqual keyEqual n cAt ys 0 = Ok true ->
  eachEqual keyEqual n cAt xs 0 = Ok true.
Proof.
  intros HF HB H1 H2. rewrite eachEqual_true in *. intros j Hj.
  destruct (H1 j Hj) as (x & y & Hx & Hy & Exy).
  destruct (H2 j Hj) as (y' & z & Hy' & Hz & Eyz).
  rewrite Nat.sub_0_r in *. apply HB in Hy. rewrite Hy in Hy'. injection Hy' as <-.
  exists x, z. repeat apply conj; auto.
  rewrite List.Forall_forall in HF. apply (HF x (nth_error_In _ _ Hx) y z); auto.
Qed.

(** X7.  [keyEqual] is transitive: when it reports [a] equal to [b] and
    [b] equal to [c], it reports [a] equal to [c]. *)
Theorem keyEqual_transitive a : forall b c,
  keyEqual a b = Ok true -> keyEqual b c = Ok true -> keyEqual a c = Ok true.
Proof.
  induction a as [|t aa d IH] using Value_parts_ind; intros b c H1 H2.
  - destruct b; [exact H2|discriminate].
  - destruct b as [|bt ba bd]; [discriminate|].
    destruct c as [|ct ca cd]; [discriminate|].
    simpl keyEqual in *.
    destruct (decide (t = bt)) as [<-|Hne].
    2:{ rewrite bool_decide_eq_false_2 in H1 by exact Hne. discriminate. }
    destruct (decide (t = ct)) as [<-|Hne].
    2:{ rewrite bool_decide_eq_false_2 in H2 by exact Hne. discriminate. }
    rewrite bool_decide_eq_true_2 in * by reflexivity. simpl negb in *.
    cbv iota in *.
    destruct (tKind t) eqn:Hk; try discriminate;
      destruct d; try discriminate; destruct bd; try discriminate.
    all: try (destruct cd; try discriminate; simpl in *;
              injection H1 as H1; injection H2 as H2; f_equal;
              first [ apply Bool.eqb_prop in H1; apply Bool.eqb_prop in H2;
                      subst; apply Bool.eqb_reflx
                    | apply Z.eqb_eq in H1; apply Z.eqb_eq in H2; subst;
                      apply Z.eqb_refl
                    | apply N.eqb_eq in H1; apply N.eqb_eq in H2; subst;
                      apply N.eqb_refl
                    | apply String.eqb_eq in H1; apply String.eqb_eq in H2; subst;
                      apply String.eqb_refl
                    | exact (SFeqb_trans _ _ _ H1 H2)
                    | apply andb_prop in H1 as [R1 I1];
                      apply andb_prop in H2 as [R2 I2];
                      rewrite (SFeqb_trans _ _ _ R1 R2), (SFeqb_trans _ _ _ I1 I2);
                      reflexivity ]; fail).
    + (* Array *)
      simpl in IH.
      apply (eachEqual_trans _ (Value_Index (Val t ba (DArray elems0))) _ _ elems0);
        auto.
      intros j y Hy. apply Value_Index_nth in Hy as (t' & a' & xs & [E|E] & Hn);
        inversion E; subst; exact Hn.
    + (* Interface *)
      simpl in IH, H1. apply List.Forall_inv in IH.
      destruct cd; try discriminate. simpl in *. eapply IH; eauto.
    + (* Struct *)
      simpl in IH.
      apply (eachEqual_trans _ (Value_Field (Val t ba (DStruct fields0))) _ _ fields0);
        auto.
      intros j y Hy. apply Value_Field_nth in Hy as (t' & a' & xs & E & Hn).
      inversion E; subst; exact Hn.
Qed.

Lemma keyEqual_transitive_witness :
  keyEqual (vInt 1) (Val int_t (Some 8%N) (DInt 1)) = Ok true.
Proof.
  apply (keyEqual_transitive (vInt 1) (Val int_t (Some 24%N) (DInt 1))
           (Val int_t (Some 8%N) (DInt 1))); reflexivity.
Defined.

Lemma Value_Index_content v j :
  Value_Index (content v) j = contentOf (Value_Index v j).
Proof.
  destruct v as [|t a []]; simpl; try reflexivity.
  - destruct (Nat.ltb j (tLen t)); [|reflexivity].
    rewrite nth_error_map. destruct (nth_error elems j); reflexivity.
  - rewrite nth_error_map. destruct (nth_error elems j); reflexivity.
Qed.

Lemma Value_Field_content v j :
  Value_Field (content v) j = contentOf (Value_Field v j).
Proof.
  destruct v as [|t a []]; simpl; try reflexivity.
  destruct (Nat.ltb j (length (tFields t))); [|reflexivity].
  rewrite nth_error_map. destruct (nth_error fields j); reflexivity.
Qed.

Lemma eachEqual_content n (bAt bAt' : nat -> result Value) xs :
  Forall (fun x => forall y, keyEqual (content x) (content y) = keyEqual x y) xs ->
  (forall j, bAt' j = contentOf (bAt j)) ->
  forall i, eachEqual keyEqual n bAt' (map content xs) i
            = eachEqual keyEqual n bAt xs i.
Proof.
  intros HF HB. induction xs as [|x xs IH]; intros i; simpl; [reflexivity|].
  destruct (Nat.ltb i n); [|reflexivity].
  rewrite HB. destruct (bAt i) as [y| |]; simpl; try reflexivity.
  rewrite (List.Forall_inv HF y).
  destruct (keyEqual x y) as [[]| |]; simpl; try reflexivity.
  apply IH. exact (List.Forall_inv_tail HF).
Qed.

(** [keyEqual] does not look at addresses. *)
Lemma keyEqual_content a : forall b,
  keyEqual (content a) (content b) = keyEqual a b.
Proof.
  induction a as [|t aa d IH] using Value_parts_ind; intros b.
  - destruct b; reflexivity.
  - destruct b as [|bt ba bd]; [reflexivity|].
    cbn [content]. simpl keyEqual.
    destruct (negb (bool_decide (t = bt))); [reflexivity|].
    destruct (tKind t) eqn:Hk; try reflexivity; destruct d; try reflexivity.
    all: try (destruct bd; reflexivity).
    + (* Array *)
      apply eachEqual_content; [exact IH|]. intros j.
      apply (Value_Index_content (Val bt ba bd)).
    + (* Interface *)
      simpl in IH. apply List.Forall_inv in IH.
      destruct bd; try reflexivity. simpl. apply IH.
    + (* Struct *)
      apply eachEqual_content; [exact IH|]. intros j.
      apply (Value_Field_content (Val bt ba bd)).
Qed.

Lemma inBoth_content_r av l :
  inBoth (fun bv => keyEqual (content av) bv) (map content l)
  = inBoth (fun bv => keyEqual av bv) l.
Proof.
  induction l as [|x l IH]; simpl; [reflexivity|].
  rewrite keyEqual_content. destruct (keyEqual av x) as [[]| |]; simpl; auto.
Qed.

Lemma inBoth_content_l bv l :
  inBoth (fun av => keyEqual av (content bv)) (map content l)
  = inBoth (fun av => keyEqual av bv) l.
Proof.
  induction l as [|x l IH]; simpl; [reflexivity|].
  rewrite keyEqual_content. destruct (keyEqual x bv) as [[]| |]; simpl; auto.
Qed.

Lemma keyDiffLeft_content b : forall a,
  keyDiffLeft (map content a) (map content b)
  = ('(ak, both) ← keyDiffLeft a b; Ok (map content ak, map content both)).
Proof.
  induction a as [|x a IH]; simpl; [reflexivity|].
  rewrite inBoth_content_r.
  destruct (inBoth (fun bv => keyEqual x bv) b) as [r| |]; simpl; try reflexivity.
  rewrite IH. destruct (keyDiffLeft a b) as [[ak both]| |]; simpl; try reflexivity.
  destruct r; reflexivity.
Qed.

Lemma keyDiffRight_content a : forall b,
  keyDiffRight (map content a) (map content b)
  = (bk ← keyDiffRight a b; Ok (map content bk)).
Proof.
  induction b as [|y b IH]; simpl; [reflexivity|].
  rewrite inBoth_content_l.
  destruct (inBoth (fun av => keyEqual av y) a) as [r| |]; simpl; try reflexivity.
  rewrite IH. destruct (keyDiffRight a b) as [bk| |]; simpl; try reflexivity.
  destruct r; reflexivity.
Qed.

(** X8.  Key matching does not look at addresses: [keyDiff] splits the
    keys stripped of their addresses as it splits the keys, with the same
    panics. *)
Theorem keyDiff_content a b :
  keyDiff (map content a) (map content b)
  = ('(ak, both, bk) ← keyDiff a b;
     Ok (map content ak, map content both, map content bk)).
Proof.
  unfold keyDiff. rewrite keyDiffLeft_content, keyDiffRight_content.
  destruct (keyDiffLeft a b) as [[ak both]| |]; simpl; try reflexivity.
  destruct (keyDiffRight a b) as [bk| |]; reflexivity.
Qed.

Lemma discrete_clean v : discrete v = true -> clean v = true.
Proof.
  induction v as [|t a d IH] using Value_parts_ind; intros H; [reflexivity|].
  simpl in *. destruct d; try discriminate H; try reflexivity; simpl in IH.
  - apply forallb_forall. intros x Hx. rewrite List.Forall_forall in IH.
    rewrite forallb_forall in H. auto.
  - apply forallb_forall. intros x Hx. rewrite List.Forall_forall in IH.
    rewrite forallb_forall in H. auto.
  - apply forallb_forall. intros x Hx. rewrite List.Forall_forall in IH.
    rewrite forallb_forall in H. auto.
  - apply List.Forall_inv in IH. auto.
  - apply forallb_forall. intros [k x] Hx. rewrite List.Forall_forall in IH.
    rewrite forallb_forall in H. specialize (H _ Hx). simpl in *.
    apply andb_prop in H as [Hk Hv]. apply andb_true_intro. split.
    + apply IH; [|exact Hk]. apply in_or_app. left.
      apply (in_map fst _ _ Hx).
    + apply IH; [|exact Hv]. apply in_or_app. right.
      apply (in_map snd _ _ Hx).
Qed.

Lemma parts_same_content n xs ys :
  length xs = n -> length ys = n ->
  (forall j, (j < n)%nat -> exists x y,
      nth_error xs j = Some x /\ nth_error ys j = Some y /\ content x = content y) ->
  map content xs = map content ys.
Proof.
  intros Lx Ly H. apply nth_error_ext. intros j. rewrite !nth_error_map.
  destruct (Nat.lt_ge_cases j n) as [Hj|Hj].
  - destruct (H j Hj) as (x & y & -> & -> & E). simpl. f_equal. exact E.
  - rewrite (proj2 (nth_error_None xs j)), (proj2 (nth_error_None ys j)) by lia.
    reflexivity.
Qed.

Lemma keyEqual_same_content a : forall b,
  comparable a = true -> comparable b = true ->
  discrete a = true -> discrete b = true ->
  keyEqual a b = Ok true -> content a = content b.
Proof.
  induction a as [|t aa d IH] using Value_parts_ind; intros b Ha Hb Da Db H.
  - destruct b; [reflexivity|discriminate].
  - destruct b as [|bt ba bd]; [discriminate|].
    simpl keyEqual in H.
    destruct (decide (t = bt)) as [<-|Hne].
    2:{ rewrite bool_decide_eq_false_2 in H by exact Hne. discriminate. }
    rewrite bool_decide_eq_true_2 in H by reflexivity. simpl negb in H.
    cbv iota in H. simpl in Ha, Hb, Da, Db. cbn [content].
    destruct (tKind t) eqn:Hk; destruct d; try discriminate Ha;
      destruct bd; try discriminate Hb; try discriminate Da; simpl in H.
    all: try (injection H as H;
              first [ apply Bool.eqb_prop in H | apply Z.eqb_eq in H
                    | apply N.eqb_eq in H | apply String.eqb_eq in H ];
              subst; reflexivity).
    + (* Array *)
      apply andb_prop in Ha as [La Ha]. apply andb_prop in Hb as [Lb Hb].
      apply Nat.eqb_eq in La, Lb. do 2 f_equal.
      apply (parts_same_content (tLen t)); auto. intros j Hj.
      destruct (proj1 (eachEqual_true _ _ _ _ _) H j ltac:(lia))
        as (x & y & Hx & Hy & E).
      rewrite Nat.sub_0_r in Hx.
      apply Value_Index_nth in Hy as (t' & a' & xs & [Ev|Ev] & Hn);
        inversion Ev; subst.
      exists x, y. repeat apply conj; auto.
      simpl in IH. rewrite List.Forall_forall in IH.
      rewrite forallb_forall in Ha, Hb, Da, Db.
      apply IH; eauto using nth_error_In.
    + (* Interface *)
      simpl in IH. apply List.Forall_inv in IH. do 2 f_equal. apply IH; auto.
    + (* Struct *)
      apply andb_prop in Ha as [La Ha]. apply andb_prop in Hb as [Lb Hb].
      apply Nat.eqb_eq in La, Lb. do 2 f_equal.
      apply (parts_same_content (length (tFields t))); auto. intros j Hj.
      destruct (proj1 (eachEqual_true _ _ _ _ _) H j ltac:(lia))
        as (x & y & Hx & Hy & E).
      rewrite Nat.sub_0_r in Hx.
      apply Value_Field_nth in Hy as (t' & a' & xs & Ev & Hn).
      inversion Ev; subst.
      exists x, y. repeat apply conj; auto.
      simpl in IH. rewrite List.Forall_forall in IH.
      rewrite forallb_forall in Ha, Hb, Da, Db.
      apply IH; eauto using nth_error_In.
Qed.

(** X9.  On keys with no float or complex part, [keyEqual] reports
    equality exactly when the two keys hold the same contents. *)
Theorem keyEqual_exact a b :
  comparable a = true -> comparable b = true ->
  discrete a = true -> discrete b = true ->
  (keyEqual a b = Ok true <-> content a = content b).
Proof.
  intros Ha Hb Da Db. split.
  - apply keyEqual_same_content; assumption.
  - intros Hc. rewrite <- keyEqual_content, <- Hc, keyEqual_content.
    apply keyEqual_refl; [exact Ha|]. apply discrete_clean. exact Da.
Qed.

Lemma keyEqual_exact_witness :
  keyEqual (vString "a") (Val string_t (Some 8%N) (DString "a")) = Ok true
  <-> content (vString "a") = content (Val string_t (Some 8%N) (DString "a")).
Proof.
  apply (keyEqual_exact (vString "a") (Val string_t (Some 8%N) (DString "a")));
    reflexivity.
Defined.


(** ** Shell quoting *)

Lemma inClass_literal c :
  inClass c = true ->
  Ascii.eqb c " " = false /\ Ascii.eqb c "'" = false
  /\ Ascii.eqb c "034" = false /\ shLiteral c = true.
Proof.
  destruct c as [[] [] [] [] [] [] [] []]; vm_compute; intros H;
    try discriminate H; repeat split.
Qed.

Lemma lex_literal s : forall w tail,
  pattern_MatchString s = false ->
  lex (InWord w) (s +:+ tail) = lex (InWord (w +:+ s)) tail.
Proof.
  induction s as [|c s IH]; intros w tail H.
  - rewrite append_nil_r. reflexivity.
  - simpl in H. apply orb_false_elim in H as [Hc Hs].
    apply negb_false_iff in Hc.
    destruct (inClass_literal c Hc) as (E1 & E2 & E3 & E4).
    change (String c s +:+ tail) with (String c (s +:+ tail)).
    cbn [lex]. rewrite E1, E2, E3, E4, (IH _ _ Hs), append_assoc. reflexivity.
Qed.

Lemma lex_single s : forall w tail,
  lex (InSingle w) (ReplaceAll s "'" quoteEscape +:+ tail)
  = lex (InSingle (w +:+ s)) tail.
Proof.
  induction s as [|c s IH]; intros w tail.
  - rewrite append_nil_r. reflexivity.
  - cbn [ReplaceAll]. destruct (Ascii.eqb c "'") eqn:E.
    + apply Ascii.eqb_eq in E. subst c. rewrite append_assoc.
      change (quoteEscape +:+ ReplaceAll s "'" quoteEscape +:+ tail)
        with (String "'" (String "034" (String "'" (String "034" (String "'"
                (ReplaceAll s "'" quoteEscape +:+ tail)))))).
      cbn [lex]. simpl. rewrite IH, append_assoc. reflexivity.
    + change (String c (ReplaceAll s "'" quoteEscape) +:+ tail)
        with (String c (ReplaceAll s "'" quoteEscape +:+ tail)).
      cbn [lex]. rewrite E, IH, append_assoc. reflexivity.
Qed.

Lemma lex_Quote s tail : lex Between (Quote s +:+ tail) = lex (InWord s) tail.
Proof.
  unfold Quote. destruct s as [|c s]; [reflexivity|].
  cbn [String.length Nat.eqb].
  destruct (pattern_MatchString (String c s)) eqn:E.
  - rewrite append_assoc.
    change ("'" +:+ (ReplaceAll (String c s) "'" quoteEscape +:+ "'") +:+ tail)
      with (String "'" ((ReplaceAll (String c s) "'" quoteEscape +:+ "'") +:+ tail)).
    cbn [lex]. simpl Ascii.eqb. cbv iota. rewrite append_assoc, lex_single.
    reflexivity.
  - pose proof E as E'. simpl in E'. apply orb_false_elim in E' as [Hc Hs].
    apply negb_false_iff in Hc.
    destruct (inClass_literal c Hc) as (E1 & E2 & E3 & E4).
    change (String c s +:+ tail) with (String c (s +:+ tail)).
    cbn [lex]. rewrite E1, E2, E3, E4. apply (lex_literal s (String c "") tail Hs).
Qed.

(** X10.  A shell reads the command line that [QuoteCommand] builds
    back as the arguments it was built from. *)
Theorem QuoteCommand_round_trip args :
  shellWords (QuoteCommand args) = Some args.
Proof.
  unfold shellWords, QuoteCommand. induction args as [|a args IH]; [reflexivity|].
  destruct args as [|b args].
  - simpl. rewrite <- (append_nil_r (Quote a)), lex_Quote. reflexivity.
  - change (Join (map Quote (a :: b :: args)) " ")
      with (Quote a +:+ String " " (Join (map Quote (b :: args)) " ")).
    rewrite lex_Quote. cbn [lex]. simpl Ascii.eqb. cbv iota.
    rewrite IH. reflexivity.
Qed.


(** ** Line breaking in [logger.output] *)

Section OutputLines.
Variable argWidth : string -> nat.
Variable colorize : string -> string.
Variable tw : nat.
Variable indent : string.

Lemma Join_snoc xs x sep :
  xs <> [] -> Join (xs ++ [x]) sep = Join xs sep +:+ sep +:+ x.
Proof.
  induction xs as [|y xs IH]; intros H; [congruence|].
  destruct xs as [|z xs]; [reflexivity|].
  change (Join ((y :: z :: xs) ++ [x]) sep)
    with (y +:+ sep +:+ Join ((z :: xs) ++ [x]) sep).
  rewrite IH by discriminate.
  change (Join (y :: z :: xs) sep) with (y +:+ sep +:+ Join (z :: xs) sep).
  rewrite !append_assoc. reflexivity.
Qed.

Lemma Join_cons x xs sep :
  xs <> [] -> Join (x :: xs) sep = x +:+ sep +:+ Join xs sep.
Proof. destruct xs; [congruence|reflexivity]. Qed.

Lemma width_snoc cur a :
  cur <> [] -> width argWidth (cur ++ [a]) = (width argWidth cur + (argWidth a + 1))%nat.
Proof.
  intros H. unfold width. rewrite map_app, list_sum_app, List.length_app. simpl.
  destruct cur; [congruence|]. simpl. lia.
Qed.

(** The loop, from a state in which the line being filled holds [cur]
    and the buffer holds [pre] followed by the text of that line. *)
Lemma output_loop args : forall st cur pre,
  lineArgs st = length cur ->
  padding st = (if cur is [] then "" else " ") ->
  lineWidth st = (tw + width argWidth cur)%nat ->
  buf st = pre +:+ lineText indent cur ->
  (length cur <= 1 \/ tw + width argWidth cur <= maxLineWidth)%nat ->
  exists lines,
    concat lines = cur ++ args
    /\ Forall (fun line => line <> []) lines
    /\ Forall (fun line => length line = 1%nat
                           \/ (tw + width argWidth line <= maxLineWidth)%nat) lines
    /\ full argWidth tw lines
    /\ (cur <> [] -> exists rest more, lines = (cur ++ rest) :: more)
    /\ buf (fold_left (outputArg argWidth tw indent) args st)
       = pre +:+ Join (map (lineText indent) lines) (nl +:+ indent).
Proof.
  induction args as [|a args IH]; intros st cur pre Hn Hp Hw Hb Hfit.
  - destruct cur as [|c cur].
    + exists []. split; [|split; [|split; [|split; [|split]]]]; auto.
      * exact Logic.I.
      * intros H. exfalso. apply H. reflexivity.
    + exists [c :: cur]. split; [|split; [|split; [|split; [|split]]]].
      * simpl. rewrite !List.app_nil_r. reflexivity.
      * constructor; [discriminate|constructor].
      * constructor; [|constructor]. simpl in Hfit. destruct Hfit as [H|H]; [|auto].
        left. simpl. lia.
      * exact Logic.I.
      * intros _. exists [], []. rewrite List.app_nil_r. reflexivity.
      * exact Hb.
  - cbn [fold_left].
    destruct cur as [|c cur].
    + (* the first argument of the output *)
      destruct (IH (outputArg argWidth tw indent st a) [a] pre)
        as (lines & Hc & Hne & Hfits & Hfull & _ & Ht).
      * unfold outputArg. rewrite Hn. simpl. rewrite andb_false_r. reflexivity.
      * reflexivity.
      * unfold outputArg. rewrite Hn. simpl. rewrite andb_false_r. simpl.
        rewrite Hw, Hp. unfold width. simpl. lia.
      * unfold outputArg. rewrite Hn. simpl. rewrite andb_false_r. simpl.
        rewrite Hb, Hp. unfold lineText. simpl. rewrite append_nil_r.
        reflexivity.
      * left. simpl. lia.
      * exists lines. split; [|split; [|split; [|split; [|split]]]]; auto.
        intros H. exfalso. apply H. reflexivity.
    + (* a further argument *)
      set (cur' := c :: cur) in *.
      assert (Hcur : cur' <> []) by discriminate.
      assert (Hpad : padding st = " ") by exact Hp.
      assert (Hnz : Nat.eqb (lineArgs st) 0 = false).
      { rewrite Hn. reflexivity. }
      assert (Hw1 : (lineWidth st + (argWidth a + String.length (padding st))
                     = tw + width argWidth (cur' ++ [a]))%nat).
      { rewrite Hw, Hpad, width_snoc by exact Hcur. simpl. lia. }
      destruct (Nat.ltb maxLineWidth
                  (lineWidth st + (argWidth a + String.length (padding st))))
        eqn:E.
      * (* break the line *)
        destruct (IH (outputArg argWidth tw indent st a) [a]
                    (pre +:+ lineText indent cur' +:+ nl +:+ indent))
          as (lines & Hc & Hne & Hfits & Hfull & Hfirst & Ht).
        -- unfold outputArg. rewrite E, Hnz. reflexivity.
        -- reflexivity.
        -- unfold outputArg. rewrite E, Hnz. simpl. unfold width. simpl. lia.
        -- unfold outputArg. rewrite E, Hnz. simpl. rewrite Hb.
           unfold lineText at 2. simpl. rewrite !append_assoc. reflexivity.
        -- left. simpl. lia.
        -- destruct (Hfirst ltac:(discriminate)) as (rest & more & ->).
           exists (cur' :: ([a] ++ rest) :: more). split; [|split; [|split; [|split; [|split]]]].
           ++ cbn [concat] in *. rewrite Hc. reflexivity.
           ++ constructor; assumption.
           ++ constructor; [|assumption].
              destruct Hfit as [H|H]; [left; subst cur'; simpl in *; lia|auto].
           ++ change (full argWidth tw (cur' :: ([a] ++ rest) :: more))
                with ((maxLineWidth < tw + width argWidth (cur' ++ [a]))%nat
                      /\ full argWidth tw (([a] ++ rest) :: more)).
              split; [|exact Hfull]. apply Nat.ltb_lt in E. lia.
           ++ intros _. exists [], (([a] ++ rest) :: more).
              rewrite List.app_nil_r. reflexivity.
           ++ rewrite Ht. cbn [map]. rewrite !append_assoc. reflexivity.
      * (* go on with the line *)
        apply Nat.ltb_ge in E.
        destruct (IH (outputArg argWidth tw indent st a) (cur' ++ [a]) pre)
          as (lines & Hc & Hne & Hfits & Hfull & Hfirst & Ht).
        -- unfold outputArg.
           rewrite (proj2 (Nat.ltb_ge _ _) E). cbn [andb lineArgs].
           rewrite Hn, List.length_app. simpl. lia.
        -- subst cur'. reflexivity.
        -- unfold outputArg. rewrite (proj2 (Nat.ltb_ge _ _) E).
           cbn [andb lineWidth]. exact Hw1.
        -- unfold outputArg. rewrite (proj2 (Nat.ltb_ge _ _) E).
           cbn [andb buf padding].
           rewrite Hb, Hpad. unfold lineText. rewrite map_app.
           cbn [map]. rewrite Join_snoc.
           ++ rewrite !append_assoc. reflexivity.
           ++ subst cur'. discriminate.
        -- right. rewrite <- Hw1. exact E.
        -- exists lines. split; [|split; [|split; [|split; [|split]]]]; auto.
           ++ rewrite Hc, <- List.app_assoc. reflexivity.
           ++ intros _. destruct Hfirst as (rest & more & ->).
              { subst cur'. discriminate. }
              exists (a :: rest), more. rewrite <- List.app_assoc. reflexivity.
Qed.

End OutputLines.

(** X11.  [output] writes the timestamp, a space, and then the
    arguments, each once and in order, laid out in lines: no line is
    empty, a line either holds a single argument or is counted at most 80
    columns wide with the timestamp column, the arguments of a line are
    separated by one space, each line after the first starts on a new
    line indented under the first, and a line is ended only when the next
    argument would have made it wider than 80 columns. *)
Theorem output_lines argWidth colorize timestamp args buf0 :
  let tw := (String.length timestamp + 1)%nat in
  let indent := Repeat " " tw in
  exists lines,
    concat lines = args
    /\ Forall (fun line => line <> []) lines
    /\ Forall (fun line => length line = 1%nat
                           \/ (tw + width argWidth line <= maxLineWidth)%nat) lines
    /\ full argWidth tw lines
    /\ output argWidth colorize timestamp args buf0
       = buf0 +:+ colorize timestamp +:+ " "
         +:+ Join (map (lineText indent) lines) (nl +:+ indent) +:+ nl.
Proof.
  intros tw indent. unfold output. fold tw. fold indent.
  destruct (output_loop argWidth tw indent args
              (mkLine (buf0 +:+ colorize timestamp +:+ " ") "" 0 tw) []
              (buf0 +:+ colorize timestamp +:+ " "))
    as (lines & Hc & Hne & Hfits & Hfull & _ & Ht).
  - reflexivity.
  - reflexivity.
  - simpl. unfold width. simpl. lia.
  - simpl. unfold lineText. simpl. symmetry. apply append_nil_r.
  - left. simpl. lia.
  - exists lines. repeat apply conj; auto.
    rewrite Ht. rewrite !append_assoc. reflexivity.
Qed.
